(** * Page-replacement policies of replaceAlgos.c

    A shallow embedding of the three replacement engines ([LRU], [FIFO],
    [Clock]), of the two array helpers they share ([arrayContains],
    [getIndex]), of the loops of [main] and of the sampler [normal],
    followed by the properties proved about them.  The engines are given
    twice: from their arrays as the initialising loops leave them, which is
    what most properties are about, and from the declarations of those
    arrays on a stack of any content, to show that the two agree.

    Conventions of the embedding.
    - A C [int] that holds a page identifier, a use bit or a fault count is a
      [Z].  An [int] that is only ever an array length or an array index
      ([wss], [size], [i], [j], [c], [fifoIndex]) starts at 0 and is only
      incremented or reset to 0 in the source; it is a [nat].
    - A C array is a [list Z].  Every read and write is bounds-checked; an
      access outside the array is undefined behaviour in C and [None] here.
    - The macro [TRACES] is both the number of trials of [main] and the
      length of every trace.  It is a parameter of the embedding, so that the
      loops can be run on short traces; [TRACES_default] is the value the
      source compiles with.  Fault counters never exceed [TRACES], which is
      an [int] constant in the source, so they cannot overflow. *)

From Stdlib Require Import ZArith Reals Lra Lia.
From stdpp Require Import base option numbers list.

(** ** Constants *)

Definition INT_MIN : Z := (-2147483648)%Z.
Definition TRACES_default : nat := 1000.
Definition SET_SIZE_LOWER : nat := 4.
Definition SET_SIZE_UPPER : nat := 20.

(** ** Array helpers *)

(** [array[i] = v]: a write inside the array, undefined outside. *)
Definition store (array : list Z) (i : nat) (v : Z) : option (list Z) :=
  if decide (i < length array) then Some (<[i:=v]> array) else None.

(** [arrayContains(array, size, value)]: scan of the cells [0 .. size-1],
    true at the first cell equal to [value]. *)
Fixpoint arrayContains (array : list Z) (size : nat) (value : Z) : bool :=
  match size, array with
  | S n, a :: rest => if (value =? a)%Z then true else arrayContains rest n value
  | _, _ => false
  end.

(** [getIndex(array, size, value)]: the first index below [size] whose cell
    equals [value]; [None] stands for the source's [-1]. *)
Fixpoint getIndex (array : list Z) (size : nat) (value : Z) : option nat :=
  match size, array with
  | S n, a :: rest => if (a =? value)%Z then Some 0 else S <$> getIndex rest n value
  | _, _ => None
  end.

(** [fifoIndex++; if (fifoIndex == wss) fifoIndex = 0;] *)
Definition advance (wss fifoIndex : nat) : nat :=
  if decide (S fifoIndex = wss) then 0 else S fifoIndex.

(** ** LRU *)

Record LRU_state := MkLRU {
  lru_set : list Z;
  lru_size : nat;
  lru_faults : Z
}.

(** How the backward scan [for (j = i, c = 0; j >= 0; j--)] ends. *)
Inductive scan_exit :=
| ScanBreak (lru : Z) (j : nat)   (* [c == wss] at position [j]: [lru = data[j]; break] *)
| ScanFellThrough                 (* [j] went below 0: [lru] was never assigned *)
| ScanUndefined.                  (* an access outside an array *)

(** [LRU_scan set wss data k ru c] runs the scan from position [j = k - 1]
    downwards with recency array [ru] and counter [c]. *)
Fixpoint LRU_scan (set : list Z) (wss : nat) (data : list Z) (k : nat)
    (ru : list Z) (c : nat) : scan_exit :=
  match k with
  | 0 => ScanFellThrough
  | S j =>
    match data !! j with
    | None => ScanUndefined
    | Some d =>
      if arrayContains set wss d then
        if negb (arrayContains ru wss d) then
          match store ru c d with
          | None => ScanUndefined
          | Some ru' =>
            if decide (S c = wss) then ScanBreak d j
            else LRU_scan set wss data j ru' (S c)
          end
        else
          if decide (c = wss) then ScanBreak d j
          else LRU_scan set wss data j ru c
      else LRU_scan set wss data j ru c
    end
  end.

Definition LRU_init (wss : nat) : LRU_state :=
  MkLRU (replicate wss INT_MIN) 0 0.

(** One iteration of the main loop of [LRU], at position [i]. *)
Definition LRU_step (wss : nat) (data : list Z) (i : nat) (st : LRU_state)
    : option LRU_state :=
  d ← data !! i;
  if negb (arrayContains (lru_set st) wss d) then
    if decide (lru_size st ≠ wss) then
      set' ← store (lru_set st) (lru_size st) d;
      Some (MkLRU set' (S (lru_size st)) (lru_faults st))
    else
      match LRU_scan (lru_set st) wss data (S i) (replicate wss INT_MIN) 0 with
      | ScanBreak lru _ =>
        c ← getIndex (lru_set st) wss lru;
        set' ← store (lru_set st) c d;
        Some (MkLRU set' (lru_size st) (lru_faults st + 1))
      | _ => None
      end
  else Some st.

(** The state at the head of the main loop when [i = k]. *)
Fixpoint LRU_run (wss : nat) (data : list Z) (k : nat) : option LRU_state :=
  match k with
  | 0 => Some (LRU_init wss)
  | S i => st ← LRU_run wss data i; LRU_step wss data i st
  end.

Definition LRU (TRACES wss : nat) (data : list Z) : option Z :=
  lru_faults <$> LRU_run wss data TRACES.

(** ** FIFO *)

Record FIFO_state := MkFIFO {
  fifo_set : list Z;
  fifo_size : nat;
  fifo_fifoIndex : nat;
  fifo_faults : Z
}.

Definition FIFO_init (wss : nat) : FIFO_state :=
  MkFIFO (replicate wss INT_MIN) 0 0 0.

Definition FIFO_step (wss : nat) (data : list Z) (i : nat) (st : FIFO_state)
    : option FIFO_state :=
  d ← data !! i;
  if negb (arrayContains (fifo_set st) wss d) then
    if decide (fifo_size st ≠ wss) then
      set' ← store (fifo_set st) (fifo_size st) d;
      Some (MkFIFO set' (S (fifo_size st)) (fifo_fifoIndex st) (fifo_faults st))
    else
      set' ← store (fifo_set st) (fifo_fifoIndex st) d;
      Some (MkFIFO set' (fifo_size st) (advance wss (fifo_fifoIndex st))
                   (fifo_faults st + 1))
  else Some st.

Fixpoint FIFO_run (wss : nat) (data : list Z) (k : nat) : option FIFO_state :=
  match k with
  | 0 => Some (FIFO_init wss)
  | S i => st ← FIFO_run wss data i; FIFO_step wss data i st
  end.

Definition FIFO (TRACES wss : nat) (data : list Z) : option Z :=
  fifo_faults <$> FIFO_run wss data TRACES.

(** ** Clock *)

Record Clock_state := MkClock {
  clock_set : list Z;
  clock_secondChance : list Z;
  clock_size : nat;
  clock_fifoIndex : nat;
  clock_faults : Z
}.

(** How [fuel] iterations of the sweep
    [while (secondChance[fifoIndex] != 0)] end. *)
Inductive sweep_exit :=
| SweepStopped (secondChance : list Z) (fifoIndex : nat)
| SweepOutOfFuel
| SweepUndefined.

Fixpoint Clock_sweep (fuel wss : nat) (secondChance : list Z) (fifoIndex : nat)
    : sweep_exit :=
  match secondChance !! fifoIndex with
  | None => SweepUndefined
  | Some b =>
    if decide (b ≠ 0%Z) then
      match fuel with
      | 0 => SweepOutOfFuel
      | S fuel' =>
        match store secondChance fifoIndex 0 with
        | None => SweepUndefined
        | Some sc' => Clock_sweep fuel' wss sc' (advance wss fifoIndex)
        end
      end
    else SweepStopped secondChance fifoIndex
  end.

Definition Clock_init (wss : nat) : Clock_state :=
  MkClock (replicate wss INT_MIN) (replicate wss 0%Z) 0 0 0.

(** One iteration of the main loop of [Clock].  The sweep is given [wss]
    iterations, which [Clock_sweep_exact] shows to be as good as any larger
    number. *)
Definition Clock_step (wss : nat) (data : list Z) (i : nat) (st : Clock_state)
    : option Clock_state :=
  d ← data !! i;
  if negb (arrayContains (clock_set st) wss d) then
    if decide (clock_size st ≠ wss) then
      set' ← store (clock_set st) (clock_size st) d;
      Some (MkClock set' (clock_secondChance st) (S (clock_size st))
                    (clock_fifoIndex st) (clock_faults st))
    else
      match Clock_sweep wss wss (clock_secondChance st) (clock_fifoIndex st) with
      | SweepStopped sc' fi =>
        set' ← store (clock_set st) fi d;
        Some (MkClock set' sc' (clock_size st) (advance wss fi)
                      (clock_faults st + 1))
      | _ => None
      end
  else
    c ← getIndex (clock_set st) wss d;
    sc' ← store (clock_secondChance st) c 1;
    Some (MkClock (clock_set st) sc' (clock_size st) (clock_fifoIndex st)
                  (clock_faults st)).

Fixpoint Clock_run (wss : nat) (data : list Z) (k : nat) : option Clock_state :=
  match k with
  | 0 => Some (Clock_init wss)
  | S i => st ← Clock_run wss data i; Clock_step wss data i st
  end.

Definition Clock (TRACES wss : nat) (data : list Z) : option Z :=
  clock_faults <$> Clock_run wss data TRACES.

(** ** The engines on the stack as they find it

    [set], [ru] and [secondChance] are declared without an initial value
    ([int set[wss];]): until the loop that follows the declaration has run,
    their cells hold whatever the stack held.  The definitions above start
    from the arrays as those loops leave them; the definitions of this
    section start from the declarations.  The scalar [lru] has no initial
    value either; reading it before the scan has assigned it is undefined,
    and [None] as before. *)

(** What the stack holds where the arrays of one call are declared: the cell
    [j] of [set], the cell [j] of [secondChance], and the cell [j] of the
    array [ru] declared at the miss of position [i]. *)
Record stack := MkStack {
  stack_set : nat → Z;
  stack_secondChance : nat → Z;
  stack_ru : nat → nat → Z
}.

(** [int array[wss];]: [wss] cells with the content of the stack. *)
Definition declare (content : nat → Z) (wss : nat) : list Z :=
  content <$> seq 0 wss.

(** [for (i = ...; i < wss; i++) array[i] = v;] with [n] iterations to
    go. *)
Fixpoint fill (array : list Z) (i n : nat) (v : Z) : option (list Z) :=
  match n with
  | 0 => Some array
  | S n' => array' ← store array i v; fill array' (S i) n' v
  end.

(** The loop of [Clock] that fills [set] and [secondChance], with [n]
    iterations to go. *)
Fixpoint Clock_fill (set secondChance : list Z) (i n : nat)
    : option (list Z * list Z) :=
  match n with
  | 0 => Some (set, secondChance)
  | S n' =>
    set' ← store set i INT_MIN;
    sc' ← store secondChance i 0%Z;
    Clock_fill set' sc' (S i) n'
  end.

Definition LRU_init_on (m : stack) (wss : nat) : option LRU_state :=
  set ← fill (declare (stack_set m) wss) 0 wss INT_MIN;
  Some (MkLRU set 0 0).

(** One iteration of the main loop of [LRU], with the declaration of [ru]
    and the loop that fills it. *)
Definition LRU_step_on (m : stack) (wss : nat) (data : list Z) (i : nat)
    (st : LRU_state) : option LRU_state :=
  d ← data !! i;
  if negb (arrayContains (lru_set st) wss d) then
    if decide (lru_size st ≠ wss) then
      set' ← store (lru_set st) (lru_size st) d;
      Some (MkLRU set' (S (lru_size st)) (lru_faults st))
    else
      ru ← fill (declare (stack_ru m i) wss) 0 wss INT_MIN;
      match LRU_scan (lru_set st) wss data (S i) ru 0 with
      | ScanBreak lru _ =>
        c ← getIndex (lru_set st) wss lru;
        set' ← store (lru_set st) c d;
        Some (MkLRU set' (lru_size st) (lru_faults st + 1))
      | _ => None
      end
  else Some st.

Fixpoint LRU_run_on (m : stack) (wss : nat) (data : list Z) (k : nat)
    : option LRU_state :=
  match k with
  | 0 => LRU_init_on m wss
  | S i => st ← LRU_run_on m wss data i; LRU_step_on m wss data i st
  end.

Definition LRU_on (m : stack) (TRACES wss : nat) (data : list Z) : option Z :=
  lru_faults <$> LRU_run_on m wss data TRACES.

Definition FIFO_init_on (m : stack) (wss : nat) : option FIFO_state :=
  set ← fill (declare (stack_set m) wss) 0 wss INT_MIN;
  Some (MkFIFO set 0 0 0).

Fixpoint FIFO_run_on (m : stack) (wss : nat) (data : list Z) (k : nat)
    : option FIFO_state :=
  match k with
  | 0 => FIFO_init_on m wss
  | S i => st ← FIFO_run_on m wss data i; FIFO_step wss data i st
  end.

Definition FIFO_on (m : stack) (TRACES wss : nat) (data : list Z) : option Z :=
  fifo_faults <$> FIFO_run_on m wss data TRACES.

Definition Clock_init_on (m : stack) (wss : nat) : option Clock_state :=
  '(set, sc) ← Clock_fill (declare (stack_set m) wss)
                          (declare (stack_secondChance m) wss) 0 wss;
  Some (MkClock set sc 0 0 0).

Fixpoint Clock_run_on (m : stack) (wss : nat) (data : list Z) (k : nat)
    : option Clock_state :=
  match k with
  | 0 => Clock_init_on m wss
  | S i => st ← Clock_run_on m wss data i; Clock_step wss data i st
  end.

Definition Clock_on (m : stack) (TRACES wss : nat) (data : list Z) : option Z :=
  clock_faults <$> Clock_run_on m wss data TRACES.

(** ** The averaging step of [main] *)

(** One accumulator cell: [Results[wss] += policy(wss, data)] once per trial,
    [gen i] being the trace generated in trial [i].  The sum is at most
    [TRACES] times the number of trials ([accumulate_bounded]), 10^6 with the
    compiled constants, so the [int] accumulator does not overflow. *)
Fixpoint accumulate (policy : nat → list Z → option Z) (wss : nat)
    (gen : nat → list Z) (trials : nat) : option Z :=
  match trials with
  | 0 => Some 0%Z
  | S i =>
    sum ← accumulate policy wss gen i;
    f ← policy wss (gen i);
    Some (sum + f)%Z
  end.

(** [Results[wss] /= TRACES]: C division truncates toward zero; a zero
    divisor is undefined. *)
Definition average (TRACES : nat) (sum : Z) : option Z :=
  if decide (TRACES = 0) then None else Some (Z.quot sum (Z.of_nat TRACES)).

(** The value [main] prints for one policy and one working-set size. *)
Definition main_cell (TRACES : nat) (policy : nat → nat → list Z → option Z)
    (wss : nat) (gen : nat → list Z) : option Z :=
  sum ← accumulate (policy TRACES) wss gen TRACES; average TRACES sum.

(** ** The sampler [normal]

    A [double] is idealised as a real number.  The conversions of [rand()]
    and [RAND_MAX] to [double] are exact and so are the comparisons of their
    quotient with 0 and 1, which is all the range statements below rely
    on.  [sqrt], [log], [cos] and the products are exact here and rounded in
    C: where the exact value of the expression is within a rounding error of
    an integer, [normal] can differ by one from what the code returns.  What
    is proved of its result is therefore a range with room for that error,
    never an exact value.  [RAND_MAX] comes from <stdlib.h> and is a
    parameter; the values [rand()] returns are read from the list [rand]. *)

(** [((double)rand()) / ((double)RAND_MAX)] *)
Definition uniform (RAND_MAX x : Z) : R := (IZR x / IZR RAND_MAX)%R.

(** [do { r1 = ... } while (r1 == 0.0);] over the values [rand()] returns.
    [None]: the list ran out before a nonzero quotient was drawn. *)
Fixpoint draw_r1 (RAND_MAX : Z) (rand : list Z) : option (R * list Z) :=
  match rand with
  | [] => None
  | x :: rest =>
    if Req_dec_T (uniform RAND_MAX x) 0 then draw_r1 RAND_MAX rest
    else Some (uniform RAND_MAX x, rest)
  end.

(** The two variates of one call, and what is left of the random source. *)
Definition draws (RAND_MAX : Z) (rand : list Z) : option (R * R * list Z) :=
  match draw_r1 RAND_MAX rand with
  | Some (r1, x2 :: rest) => Some (r1, uniform RAND_MAX x2, rest)
  | _ => None
  end.

(** The cast [(int)] of a [double]: truncation toward zero. *)
Definition trunc (x : R) : Z :=
  if Rle_dec 0 x then Int_part x else (- Int_part (- x))%Z.

(** [sqrt(-2.0 * log(r1)) * cos(2.0 * M_PI * r2) * sd + mean] *)
Definition box_muller (r1 r2 : R) (mean sd : Z) : R :=
  (sqrt (-2 * ln r1) * cos (2 * PI * r2) * IZR sd + IZR mean)%R.

Definition normal (RAND_MAX : Z) (mean sd : Z) (rand : list Z)
    : option (Z * list Z) :=
  match draws RAND_MAX rand with
  | Some (r1, r2, rest) => Some (trunc (box_muller r1 r2 mean sd), rest)
  | None => None
  end.

(** ** Trace generation and the loops of [main]

    The progress messages, the seeding of the random source and the output
    file are left out; [main] below returns the rows that the source prints
    to the file, one per working-set size. *)

(** [data[j] = (10 * ((int)(j/100))) + normal(10, 2)] for the [n] positions
    [j = from, from + 1, ...]: the trace, and what is left of the random
    source. *)
Fixpoint generate (RAND_MAX : Z) (n from : nat) (rand : list Z)
    : option (list Z * list Z) :=
  match n with
  | 0 => Some ([], rand)
  | S n' =>
    '(v, rand1) ← normal RAND_MAX 10 2 rand;
    '(rest, rand2) ← generate RAND_MAX n' (S from) rand1;
    Some ((10 * (Z.of_nat from `quot` 100) + v)%Z :: rest, rand2)
  end.

(** The three arrays [LRUResults], [FIFOResults] and [ClockResults], of
    [SET_SIZE_UPPER + 1] cells each. *)
Record results := MkResults {
  LRUResults : list Z;
  FIFOResults : list Z;
  ClockResults : list Z
}.

Definition results_init : results :=
  MkResults (replicate (S SET_SIZE_UPPER) 0%Z) (replicate (S SET_SIZE_UPPER) 0%Z)
            (replicate (S SET_SIZE_UPPER) 0%Z).

(** The number of working-set sizes from [SET_SIZE_LOWER] to
    [SET_SIZE_UPPER]. *)
Definition SET_SIZES : nat := S SET_SIZE_UPPER - SET_SIZE_LOWER.

(** [array[i] += v] *)
Definition add_at (array : list Z) (i : nat) (v : Z) : option (list Z) :=
  x ← array !! i; store array i (x + v)%Z.

(** The loop [for (wss = ...; wss <= SET_SIZE_UPPER; wss++)] of one trial,
    with [n] iterations to go. *)
Fixpoint simulate (TRACES : nat) (data : list Z) (n wss : nat) (res : results)
    : option results :=
  match n with
  | 0 => Some res
  | S n' =>
    l ← LRU TRACES wss data;
    lr ← add_at (LRUResults res) wss l;
    f ← FIFO TRACES wss data;
    fr ← add_at (FIFOResults res) wss f;
    c ← Clock TRACES wss data;
    cr ← add_at (ClockResults res) wss c;
    simulate TRACES data n' (S wss) (MkResults lr fr cr)
  end.

(** [n] iterations of the loop [for (i = 0; i < TRACES; i++)] over the
    trials. *)
Fixpoint run_trials (RAND_MAX : Z) (TRACES n : nat) (rand : list Z) (res : results)
    : option (results * list Z) :=
  match n with
  | 0 => Some (res, rand)
  | S n' =>
    '(data, rand1) ← generate RAND_MAX TRACES 0 rand;
    res1 ← simulate TRACES data SET_SIZES SET_SIZE_LOWER res;
    run_trials RAND_MAX TRACES n' rand1 res1
  end.

(** [array[i] /= TRACES] *)
Definition div_at (TRACES : nat) (array : list Z) (i : nat) : option (list Z) :=
  x ← array !! i; q ← average TRACES x; store array i q.

(** The loop that turns the sums into averages, with [n] iterations to go. *)
Fixpoint averages (TRACES n wss : nat) (res : results) : option results :=
  match n with
  | 0 => Some res
  | S n' =>
    lr ← div_at TRACES (LRUResults res) wss;
    fr ← div_at TRACES (FIFOResults res) wss;
    cr ← div_at TRACES (ClockResults res) wss;
    averages TRACES n' (S wss) (MkResults lr fr cr)
  end.

(** The rows [wss, LRU, FIFO, Clock] of the output loop, with [n] iterations
    to go. *)
Fixpoint rows (n wss : nat) (res : results) : option (list (Z * Z * Z * Z)) :=
  match n with
  | 0 => Some []
  | S n' =>
    l ← LRUResults res !! wss;
    f ← FIFOResults res !! wss;
    c ← ClockResults res !! wss;
    rest ← rows n' (S wss) res;
    Some ((Z.of_nat wss, l, f, c) :: rest)
  end.

Definition main (RAND_MAX : Z) (TRACES : nat) (rand : list Z)
    : option (list (Z * Z * Z * Z)) :=
  '(res, _) ← run_trials RAND_MAX TRACES TRACES rand results_init;
  res1 ← averages TRACES SET_SIZES SET_SIZE_LOWER res;
  rows SET_SIZES SET_SIZE_LOWER res1.

(** What [rand()] may return. *)
Definition rand_value (RAND_MAX x : Z) : Prop := (0 ≤ x ≤ RAND_MAX)%Z.

(** The trace of the eviction-order examples. *)
Definition trace12 : list Z := [1; 2; 3; 4; 1; 2; 5; 1; 2; 3; 4; 5]%Z.

(** A trace that references [INT_MIN] once the frame is full, then misses. *)
Definition sentinel_trace : list Z := [1; 2; 3; 4; INT_MIN; 5]%Z.

(** A trace whose seventh reference misses while every use bit is set. *)
Definition trace_all_used : list Z := [1; 2; 3; 1; 2; 3; 4]%Z.

(** * Specification vocabulary *)

(** ** The working-set frame

    What the three engines do to [set] and [size] in one iteration on the
    reference [d]: nothing on a hit, fill the next free cell while there is
    room, overwrite some cell [c] otherwise. *)
Inductive frame_step (wss : nat) (d : Z) (set : list Z) (size : nat)
    : list Z → nat → Prop :=
| frame_hit :
    d ∈ set → frame_step wss d set size set size
| frame_fill :
    d ∉ set → size ≠ wss → size < length set →
    frame_step wss d set size (<[size:=d]> set) (S size)
| frame_evict c :
    d ∉ set → size = wss → c < length set →
    frame_step wss d set size (<[c:=d]> set) size.

(** The invariant of the frame after [k] references of the trace [data]:
    the first [size] cells are filled, hold pairwise different pages that the
    trace has referenced, and the cells behind them still hold the
    sentinel. *)
Record frame_inv (wss : nat) (data : list Z) (k : nat)
    (set : list Z) (size : nat) : Prop := {
  fi_length : length set = wss;
  fi_size : size ≤ wss;
  fi_free : ∀ j, size ≤ j → j < wss → set !! j = Some INT_MIN;
  fi_nodup : NoDup (take size set);
  fi_real : size < wss → INT_MIN ∉ take size set;
  fi_seen : ∀ p, p ∈ take size set → ∃ j, j < k ∧ data !! j = Some p
}.

(** The occupied slots of a frame, as the data model has them: the cells
    that do not hold the sentinel. *)
Definition occupied (set : list Z) : list Z :=
  filter (λ p, p ≠ INT_MIN) set.

(** The invariant of the data model: at most [wss] occupied slots, no page
    in two of them. *)
Definition frame_ok (wss : nat) (set : list Z) : Prop :=
  length (occupied set) ≤ wss ∧ NoDup (occupied set).

(** ** What the three engines have in common

    The frame, the fill count and the fault count change in the same three
    ways in LRU, FIFO and Clock; the engines differ only in the cell [c] they
    overwrite on a fault. *)
Inductive core_step (wss : nat) (d : Z) (set : list Z) (size : nat) (faults : Z)
    : list Z → nat → Z → Prop :=
| core_hit :
    d ∈ set → core_step wss d set size faults set size faults
| core_fill :
    d ∉ set → size < wss →
    core_step wss d set size faults (<[size:=d]> set) (S size) faults
| core_evict c :
    d ∉ set → size = wss → c < wss →
    core_step wss d set size faults (<[c:=d]> set) size (faults + 1).

(** The frames, fill counts and fault counts that [k] references of the
    trace can lead to. *)
Inductive core_reach (wss : nat) (data : list Z) : nat → list Z → nat → Z → Prop :=
| reach_init :
    core_reach wss data 0 (replicate wss INT_MIN) 0 0
| reach_step k d set size faults set' size' faults' :
    core_reach wss data k set size faults →
    data !! k = Some d →
    core_step wss d set size faults set' size' faults' →
    core_reach wss data (S k) set' size' faults'.

(** ** Recency

    [last_ref data k p]: the most recent position below [k] at which the
    trace references the page [p]. *)
Fixpoint last_ref (data : list Z) (k : nat) (p : Z) : option nat :=
  match k with
  | 0 => None
  | S j => if decide (data !! j = Some p) then Some j else last_ref data j p
  end.

(** [recent data k]: the pages referenced below position [k], each once, the
    most recently referenced first. *)
Fixpoint recent (data : list Z) (k : nat) : list Z :=
  match k with
  | 0 => []
  | S j =>
    match data !! j with
    | Some d => d :: filter (λ p, p ≠ d) (recent data j)
    | None => recent data j
    end
  end.

(** [first_refs data k]: the pages other than the sentinel referenced below
    position [k], each once, in the order of their first reference. *)
Fixpoint first_refs (data : list Z) (k : nat) : list Z :=
  match k with
  | 0 => []
  | S j =>
    match data !! j with
    | Some d =>
      if decide (d = INT_MIN ∨ d ∈ first_refs data j) then first_refs data j
      else first_refs data j ++ [d]
    | None => first_refs data j
    end
  end.

(** The recency array of the backward scan once the pages [rec] have been
    appended to it: the cells behind them still hold the sentinel. *)
Definition recency (wss : nat) (rec : list Z) : list Z :=
  rec ++ replicate (wss - length rec) INT_MIN.

(** The clock hand points into the use-bit array, which has one bit per
    slot. *)
Definition fifo_ok (wss : nat) (secondChance : list Z) (fifoIndex : nat) : Prop :=
  length secondChance = wss ∧ fifoIndex < wss.

(** The number of use bits that are set. *)
Definition use_bits (secondChance : list Z) : nat :=
  length (filter (λ b, b ≠ 0%Z) secondChance).

(** ** Invariants of the three engines after [k] references *)

Definition LRU_inv (wss : nat) (data : list Z) (k : nat) (st : LRU_state) : Prop :=
  frame_inv wss data k (lru_set st) (lru_size st).

Definition FIFO_inv (wss : nat) (data : list Z) (k : nat) (st : FIFO_state) : Prop :=
  frame_inv wss data k (fifo_set st) (fifo_size st) ∧
  fifo_fifoIndex st < wss.

Definition Clock_inv (wss : nat) (data : list Z) (k : nat) (st : Clock_state) : Prop :=
  frame_inv wss data k (clock_set st) (clock_size st) ∧
  fifo_ok wss (clock_secondChance st) (clock_fifoIndex st).

(** ** The result arrays of [main] *)

(** What a loop over the cells [w, w + 1, ..., w + n - 1] of one array does
    when it replaces the content [x] of the cell [i] by [h i x]. *)
Fixpoint update_range (h : nat → Z → option Z) (n w : nat) (array : list Z)
    : option (list Z) :=
  match n with
  | 0 => Some array
  | S n' =>
    x ← array !! w; y ← h w x; array' ← store array w y;
    update_range h n' (S w) array'
  end.

(** An array of [SET_SIZE_UPPER + 1] cells in which the cell of every
    working-set size holds at most [trials] fault counts of that size. *)
Definition cells_le (TRACES trials : nat) (array : list Z) : Prop :=
  length array = S SET_SIZE_UPPER ∧
  ∀ i x, array !! i = Some x →
    (0 ≤ x ≤ Z.of_nat trials * Z.of_nat (TRACES - i))%Z.

Definition results_le (TRACES trials : nat) (res : results) : Prop :=
  cells_le TRACES trials (LRUResults res) ∧
  cells_le TRACES trials (FIFOResults res) ∧
  cells_le TRACES trials (ClockResults res).

(** A random source that never returns 0. *)
Definition rand_positive (RAND_MAX x : Z) : Prop := (0 < x ≤ RAND_MAX)%Z.

(** A sum that an accumulator cell of [main] can hold: the fault counts of
    one engine on any number of traces. *)
Definition fault_sum (TRACES : nat) (sum : Z) : Prop :=
  ∃ wss gen trials,
    accumulate (LRU TRACES) wss gen trials = Some sum ∨
    accumulate (FIFO TRACES) wss gen trials = Some sum ∨
    accumulate (Clock TRACES) wss gen trials = Some sum.

(** * Properties *)

(** ** Array helpers *)

Lemma arrayContains_take (array : list Z) (size : nat) (value : Z) :
  arrayContains array size value = true ↔ value ∈ take size array.
Proof.
  revert size; induction array as [|a rest IH]; intros [|n]; simpl;
    [by rewrite elem_of_nil..|].
  destruct (Z.eqb_spec value a) as [->|Hne].
  - split; [intros _; left | done].
  - rewrite IH, elem_of_cons. split; [by right | by intros [?|?]].
Qed.

Lemma arrayContains_elem (array : list Z) (value : Z) :
  arrayContains array (length array) value = true ↔ value ∈ array.
Proof. by rewrite arrayContains_take, firstn_all. Qed.

Lemma arrayContains_not_elem (array : list Z) (value : Z) :
  arrayContains array (length array) value = false ↔ value ∉ array.
Proof. rewrite <-arrayContains_elem. by destruct arrayContains. Qed.

Lemma getIndex_Some (array : list Z) (size : nat) (value : Z) (i : nat) :
  getIndex array size value = Some i →
  i < size ∧ array !! i = Some value ∧ ∀ k, k < i → array !! k ≠ Some value.
Proof.
  revert size i; induction array as [|a rest IH]; intros [|n] i; simpl; try done.
  destruct (Z.eqb_spec a value) as [->|Hne].
  - intros [= <-]. split_and!; [lia | done | lia].
  - destruct (getIndex rest n value) as [i'|] eqn:E; simpl; [|done].
    intros [= <-]. destruct (IH _ _ E) as (? & ? & Hk).
    split_and!; [lia | done |].
    intros [|k] ?; simpl; [congruence | apply Hk; lia].
Qed.

Lemma getIndex_is_Some (array : list Z) (size : nat) (value : Z) :
  value ∈ take size array → is_Some (getIndex array size value).
Proof.
  revert size; induction array as [|a rest IH]; intros [|n]; simpl;
    try by intros ?%elem_of_nil.
  destruct (Z.eqb_spec a value) as [->|Hne]; [eauto|].
  intros [->|Hin]%elem_of_cons; [done|].
  destruct (IH _ Hin) as [i ->]. simpl. eauto.
Qed.

Lemma store_Some (array : list Z) (i : nat) (v : Z) :
  i < length array → store array i v = Some (<[i:=v]> array).
Proof. intros. unfold store. by rewrite decide_True. Qed.

Lemma store_inv (array array' : list Z) (i : nat) (v : Z) :
  store array i v = Some array' → i < length array ∧ array' = <[i:=v]> array.
Proof. unfold store. case_decide; naive_solver. Qed.

Lemma elem_of_insert_inv (l : list Z) (i : nat) (v x : Z) :
  x ∈ <[i:=v]> l → x = v ∨ x ∈ l.
Proof.
  intros (j & Hj)%list_elem_of_lookup.
  destruct (decide (i = j)) as [->|Hne].
  - destruct (decide (j < length l)).
    + rewrite list_lookup_insert_eq in Hj by done. left. congruence.
    + rewrite list_insert_ge in Hj by lia. right. eapply list_elem_of_lookup_2, Hj.
  - rewrite list_lookup_insert_ne in Hj by done. right.
    eapply list_elem_of_lookup_2, Hj.
Qed.

Lemma NoDup_insert_fresh (l : list Z) (i : nat) (v : Z) :
  NoDup l → v ∉ l → NoDup (<[i:=v]> l).
Proof.
  revert i; induction l as [|a l IH]; intros i Hnd Hv; [done|].
  apply NoDup_cons in Hnd as [Ha Hnd].
  apply not_elem_of_cons in Hv as [Hva Hv].
  destruct i as [|i]; simpl; apply NoDup_cons.
  - done.
  - split; [|by apply IH].
    intros [->|?]%elem_of_insert_inv; done.
Qed.

(** ** The frame invariant *)

Lemma frame_inv_init (wss : nat) (data : list Z) :
  frame_inv wss data 0 (replicate wss INT_MIN) 0.
Proof.
  split; simpl.
  - apply length_replicate.
  - lia.
  - intros j _ Hj. by apply lookup_replicate_2.
  - rewrite take_0. constructor.
  - rewrite take_0. intros _. apply not_elem_of_nil.
  - rewrite take_0. by intros p ?%elem_of_nil.
Qed.

Lemma frame_inv_step (wss : nat) (data : list Z) (k : nat) (d : Z)
    (set : list Z) (size : nat) (set' : list Z) (size' : nat) :
  frame_inv wss data k set size →
  data !! k = Some d →
  frame_step wss d set size set' size' →
  frame_inv wss data (S k) set' size'.
Proof.
  intros [Hlen Hsz Hfree Hnd Hreal Hseen] Hd Hstep.
  destruct Hstep as [Hin | Hnin Hne Hlt | c Hnin -> Hc].
  - split; try done.
    intros p Hp. destruct (Hseen p Hp) as (j & ? & ?). exists j. split; [lia|done].
  - assert (Htake : take (S size) (<[size:=d]> set) = take size set ++ [d]).
    { erewrite take_S_r by (by apply list_lookup_insert_eq).
      by rewrite take_insert_ge by lia. }
    assert (Hdsent : d ≠ INT_MIN).
    { intros ->. apply Hnin. apply (list_elem_of_lookup_2 set size), Hfree; lia. }
    split.
    + by rewrite length_insert.
    + lia.
    + intros j ? ?. rewrite list_lookup_insert_ne by lia. apply Hfree; lia.
    + rewrite Htake. apply NoDup_app. split_and!; [done| |apply NoDup_singleton].
      intros x Hx ->%list_elem_of_singleton. apply Hnin.
      apply elem_of_take in Hx as (j & Hj & _). eapply list_elem_of_lookup_2, Hj.
    + intros _. rewrite Htake, not_elem_of_app, not_elem_of_cons.
      split_and!; [apply Hreal; lia | done | apply not_elem_of_nil].
    + intros p. rewrite Htake, elem_of_app, list_elem_of_singleton.
      intros [Hp | ->].
      * destruct (Hseen p Hp) as (j & ? & ?). exists j. split; [lia|done].
      * exists k. split; [lia|done].
  - subst wss. assert (Hall : take (length set) set = set) by apply firstn_all.
    rewrite Hall in *.
    assert (Hall' : take (length set) (<[c:=d]> set) = <[c:=d]> set).
    { rewrite <-(length_insert set c d). apply firstn_all. }
    split.
    + by rewrite length_insert.
    + lia.
    + intros; lia.
    + rewrite Hall'. by apply NoDup_insert_fresh.
    + intros; lia.
    + rewrite Hall'. intros p [-> | Hp]%elem_of_insert_inv.
      * exists k. split; [lia|done].
      * destruct (Hseen p Hp) as (j & ? & ?). exists j. split; [lia|done].
Qed.

Lemma frame_contains (wss : nat) (data : list Z) (k : nat) (set : list Z)
    (size : nat) (d : Z) :
  frame_inv wss data k set size →
  arrayContains set wss d = true ↔ d ∈ set.
Proof. intros [<- _ _ _ _ _]. apply arrayContains_elem. Qed.

Lemma frame_not_contains (wss : nat) (data : list Z) (k : nat) (set : list Z)
    (size : nat) (d : Z) :
  frame_inv wss data k set size →
  arrayContains set wss d = false ↔ d ∉ set.
Proof. intros [<- _ _ _ _ _]. apply arrayContains_not_elem. Qed.

Lemma advance_lt (wss fifoIndex : nat) :
  fifoIndex < wss → advance wss fifoIndex < wss.
Proof. unfold advance. case_decide; lia. Qed.

(** ** FIFO: the invariant holds along every run, and the run never leaves
    the arrays *)

Lemma FIFO_step_inv (wss : nat) (data : list Z) (k : nat) (st st' : FIFO_state) :
  FIFO_inv wss data k st →
  FIFO_step wss data k st = Some st' →
  FIFO_inv wss data (S k) st' ∧
  ∃ d, data !! k = Some d ∧
       frame_step wss d (fifo_set st) (fifo_size st) (fifo_set st') (fifo_size st').
Proof.
  intros [Hf Hi]. unfold FIFO_step.
  destruct (data !! k) as [d|] eqn:Hd; simpl; [|done].
  destruct (arrayContains _ _ _) eqn:Hc; simpl.
  - intros [= <-]. apply (frame_contains _ _ _ _ _ _ Hf) in Hc.
    assert (Hs : frame_step wss d (fifo_set st) (fifo_size st) (fifo_set st) (fifo_size st))
      by by constructor.
    split; [split; [eapply frame_inv_step|]|]; eauto.
  - apply (frame_not_contains _ _ _ _ _ _ Hf) in Hc.
    case_decide as Hsz.
    + destruct (store _ _ _) as [set'|] eqn:Hst; simpl; [|done].
      intros [= <-]; simpl. apply store_inv in Hst as [Hlt ->].
      assert (Hs : frame_step wss d (fifo_set st) (fifo_size st)
                     (<[fifo_size st:=d]> (fifo_set st)) (S (fifo_size st)))
        by by constructor.
      split; [split; [eapply frame_inv_step|]|]; eauto.
    + destruct (store _ _ _) as [set'|] eqn:Hst; simpl; [|done].
      intros [= <-]; simpl. apply store_inv in Hst as [Hlt ->].
      assert (Hs : frame_step wss d (fifo_set st) (fifo_size st)
                     (<[fifo_fifoIndex st:=d]> (fifo_set st)) (fifo_size st)).
      { constructor; [done | by destruct (decide (fifo_size st = wss)) | done]. }
      split; [split; [eapply frame_inv_step|by apply advance_lt]|]; eauto.
Qed.

Lemma FIFO_step_total (wss : nat) (data : list Z) (k : nat) (st : FIFO_state) :
  FIFO_inv wss data k st → k < length data →
  is_Some (FIFO_step wss data k st).
Proof.
  intros [Hf Hi] Hk. unfold FIFO_step.
  destruct (lookup_lt_is_Some_2 data k Hk) as [d ->]; simpl.
  destruct (arrayContains _ _ _); simpl; [eauto|].
  destruct Hf as [Hlen Hsz _ _ _ _].
  case_decide; rewrite store_Some by lia; simpl; eauto.
Qed.

Lemma FIFO_run_inv (wss : nat) (data : list Z) (k : nat) (st : FIFO_state) :
  1 ≤ wss → FIFO_run wss data k = Some st → FIFO_inv wss data k st.
Proof.
  intros Hwss. revert st; induction k as [|k IH]; simpl; intros st.
  - intros [= <-]. split; [apply frame_inv_init | simpl; lia].
  - destruct (FIFO_run wss data k) as [st0|]; simpl; [|done].
    intros Hst. eapply FIFO_step_inv; [by apply IH | done].
Qed.

Lemma FIFO_run_total (wss : nat) (data : list Z) (k : nat) :
  1 ≤ wss → k ≤ length data → is_Some (FIFO_run wss data k).
Proof.
  intros Hwss. induction k as [|k IH]; simpl; intros Hk; [eauto|].
  destruct IH as [st Hst]; [lia|]. rewrite Hst; simpl.
  apply FIFO_step_total; [by apply FIFO_run_inv | lia].
Qed.

(** ** Clock: the sweep *)

Lemma Clock_sweep_unfold (fuel wss : nat) (secondChance : list Z) (fifoIndex : nat) :
  Clock_sweep fuel wss secondChance fifoIndex =
  match secondChance !! fifoIndex with
  | None => SweepUndefined
  | Some b =>
    if decide (b ≠ 0%Z) then
      match fuel with
      | 0 => SweepOutOfFuel
      | S fuel' =>
        match store secondChance fifoIndex 0 with
        | None => SweepUndefined
        | Some sc' => Clock_sweep fuel' wss sc' (advance wss fifoIndex)
        end
      end
    else SweepStopped secondChance fifoIndex
  end.
Proof. by destruct fuel. Qed.

Lemma use_bits_le (secondChance : list Z) :
  use_bits secondChance ≤ length secondChance.
Proof. apply length_filter. Qed.

Lemma use_bits_clear (secondChance : list Z) (i : nat) (b : Z) :
  secondChance !! i = Some b → b ≠ 0%Z →
  S (use_bits (<[i:=0%Z]> secondChance)) = use_bits secondChance.
Proof.
  unfold use_bits. revert i; induction secondChance as [|a sc IH]; intros [|i]; simpl; try done.
  - intros [= ->] Hb. rewrite filter_cons_False by (intros H; by apply H).
    by rewrite filter_cons_True.
  - intros Hi Hb. destruct (decide (a ≠ 0%Z)).
    + rewrite !filter_cons_True by done. simpl. f_equal. by eapply IH.
    + rewrite !filter_cons_False by done. by eapply IH.
Qed.

(** The sweep runs an exact number [n] of iterations, at most the number of
    set use bits, and stops on a slot whose bit is 0. *)
Lemma Clock_sweep_exact (wss : nat) (secondChance : list Z) (fifoIndex : nat) :
  fifo_ok wss secondChance fifoIndex →
  ∃ n sc' fi',
    n ≤ use_bits secondChance ∧
    fifo_ok wss sc' fi' ∧
    sc' !! fi' = Some 0%Z ∧
    (∀ fuel, Clock_sweep fuel wss secondChance fifoIndex =
             if decide (n ≤ fuel) then SweepStopped sc' fi' else SweepOutOfFuel) ∧
    (secondChance !! fifoIndex = Some 0%Z → n = 0 ∧ sc' = secondChance ∧ fi' = fifoIndex).
Proof.
  remember (use_bits secondChance) as u eqn:Hu.
  revert secondChance fifoIndex Hu.
  induction u as [|u IH]; intros sc fi Hu [Hlen Hfi].
  - destruct (lookup_lt_is_Some_2 sc fi) as [b Hb]; [lia|].
    destruct (decide (b = 0%Z)) as [->|Hne].
    + exists 0, sc, fi. split_and!; [lia | done | done | | done].
      intros fuel. rewrite Clock_sweep_unfold, Hb.
      rewrite decide_False by (intros H; by apply H). by rewrite decide_True by lia.
    + pose proof (use_bits_clear sc fi b Hb Hne). lia.
  - destruct (lookup_lt_is_Some_2 sc fi) as [b Hb]; [lia|].
    destruct (decide (b = 0%Z)) as [->|Hne].
    + exists 0, sc, fi. split_and!; [lia | done | done | | done].
      intros fuel. rewrite Clock_sweep_unfold, Hb.
      rewrite decide_False by (intros H; by apply H). by rewrite decide_True by lia.
    + pose proof (use_bits_clear sc fi b Hb Hne) as Hclr.
      destruct (IH (<[fi:=0%Z]> sc) (advance wss fi)) as (n & sc' & fi' & Hn & Hok & Hbit & Hrun & _).
      { lia. }
      { split; [by rewrite length_insert | by apply advance_lt]. }
      exists (S n), sc', fi'. split_and!; [lia | done | done | |].
      * intros fuel. rewrite Clock_sweep_unfold, Hb, decide_True by done.
        destruct fuel as [|fuel]; [by rewrite decide_False by lia|].
        rewrite store_Some by lia. rewrite Hrun.
        destruct (decide (n ≤ fuel)); [by rewrite decide_True by lia|by rewrite decide_False by lia].
      * intros ?. congruence.
Qed.

Lemma Clock_sweep_wss (wss : nat) (secondChance : list Z) (fifoIndex : nat) :
  fifo_ok wss secondChance fifoIndex →
  ∃ sc' fi',
    Clock_sweep wss wss secondChance fifoIndex = SweepStopped sc' fi' ∧
    fifo_ok wss sc' fi' ∧ sc' !! fi' = Some 0%Z.
Proof.
  intros Hok. destruct (Clock_sweep_exact _ _ _ Hok) as (n & sc' & fi' & Hn & Hok' & Hbit & Hrun & _).
  exists sc', fi'. split_and!; [|done..].
  rewrite Hrun, decide_True; [done|].
  pose proof (use_bits_le secondChance). destruct Hok. lia.
Qed.

(** ** Clock: the invariant holds along every run, and the run never leaves
    the arrays *)

Lemma Clock_step_inv (wss : nat) (data : list Z) (k : nat) (st st' : Clock_state) :
  Clock_inv wss data k st →
  Clock_step wss data k st = Some st' →
  Clock_inv wss data (S k) st' ∧
  ∃ d, data !! k = Some d ∧
       frame_step wss d (clock_set st) (clock_size st) (clock_set st') (clock_size st').
Proof.
  intros [Hf [Hlen Hi]]. unfold Clock_step.
  destruct (data !! k) as [d|] eqn:Hd; simpl; [|done].
  destruct (arrayContains _ _ _) eqn:Hc; simpl.
  - destruct (getIndex _ _ _) as [c|] eqn:Hg; simpl; [|done].
    destruct (store _ _ _) as [sc'|] eqn:Hst; simpl; [|done].
    intros [= <-]; simpl. apply store_inv in Hst as [Hlt ->].
    apply (frame_contains _ _ _ _ _ _ Hf) in Hc.
    assert (Hs : frame_step wss d (clock_set st) (clock_size st) (clock_set st) (clock_size st))
      by by constructor.
    split; [split; [eapply frame_inv_step|split; simpl; [by rewrite length_insert|done]]|]; eauto.
  - apply (frame_not_contains _ _ _ _ _ _ Hf) in Hc.
    case_decide as Hsz.
    + destruct (store _ _ _) as [set'|] eqn:Hst; simpl; [|done].
      intros [= <-]; simpl. apply store_inv in Hst as [Hlt ->].
      assert (Hs : frame_step wss d (clock_set st) (clock_size st)
                     (<[clock_size st:=d]> (clock_set st)) (S (clock_size st)))
        by by constructor.
      split; [split; [eapply frame_inv_step|done]|]; eauto.
    + destruct (Clock_sweep_wss wss (clock_secondChance st) (clock_fifoIndex st))
        as (sc' & fi' & -> & [Hlen' Hfi'] & Hbit); [done|].
      destruct (store _ _ _) as [set'|] eqn:Hst; simpl; [|done].
      intros [= <-]; simpl. apply store_inv in Hst as [Hlt ->].
      assert (Hs : frame_step wss d (clock_set st) (clock_size st)
                     (<[fi':=d]> (clock_set st)) (clock_size st)).
      { constructor; [done | by destruct (decide (clock_size st = wss)) | done]. }
      split; [split; [eapply frame_inv_step|split; simpl; [done|by apply advance_lt]]|]; eauto.
Qed.

Lemma Clock_step_total (wss : nat) (data : list Z) (k : nat) (st : Clock_state) :
  Clock_inv wss data k st → k < length data →
  is_Some (Clock_step wss data k st).
Proof.
  intros [Hf [Hlen Hi]] Hk. unfold Clock_step.
  destruct (lookup_lt_is_Some_2 data k Hk) as [d ->]; simpl.
  destruct (arrayContains _ _ _) eqn:Hc; simpl.
  - apply arrayContains_take in Hc.
    destruct (getIndex_is_Some _ _ _ Hc) as [c Hg]. rewrite Hg; simpl.
    apply getIndex_Some in Hg as (? & _ & _).
    rewrite store_Some by lia. simpl; eauto.
  - destruct Hf as [Hlens Hsz _ _ _ _].
    case_decide; [rewrite store_Some by lia; simpl; eauto|].
    destruct (Clock_sweep_wss wss (clock_secondChance st) (clock_fifoIndex st))
      as (sc' & fi' & -> & [Hlen' Hfi'] & Hbit); [done|].
    rewrite store_Some by lia. simpl; eauto.
Qed.

Lemma Clock_run_inv (wss : nat) (data : list Z) (k : nat) (st : Clock_state) :
  1 ≤ wss → Clock_run wss data k = Some st → Clock_inv wss data k st.
Proof.
  intros Hwss. revert st; induction k as [|k IH]; simpl; intros st.
  - intros [= <-]. split; [apply frame_inv_init | split; simpl; [apply length_replicate | lia]].
  - destruct (Clock_run wss data k) as [st0|]; simpl; [|done].
    intros Hst. eapply Clock_step_inv; [by apply IH | done].
Qed.

Lemma Clock_run_total (wss : nat) (data : list Z) (k : nat) :
  1 ≤ wss → k ≤ length data → is_Some (Clock_run wss data k).
Proof.
  intros Hwss. induction k as [|k IH]; simpl; intros Hk; [eauto|].
  destruct IH as [st Hst]; [lia|]. rewrite Hst; simpl.
  apply Clock_step_total; [by apply Clock_run_inv | lia].
Qed.

(** ** LRU: the backward scan *)

Lemma last_ref_Some (data : list Z) (k : nat) (p : Z) (j : nat) :
  last_ref data k p = Some j ↔
  j < k ∧ data !! j = Some p ∧ ∀ j', j < j' → j' < k → data !! j' ≠ Some p.
Proof.
  induction k as [|k IH]; simpl.
  - split; [done | intros [? _]; lia].
  - case_decide as Hk.
    + split.
      * intros [= <-]. split_and!; [lia | done | intros; lia].
      * intros (Hj & Hd & Hlast). destruct (decide (j = k)) as [->|]; [done|].
        destruct (Hlast k); [lia | lia | done].
    + rewrite IH. split; intros (Hj & Hd & Hlast).
      * split_and!; [lia | done |]. intros j' ? ?.
        destruct (decide (j' = k)) as [->|]; [done | apply Hlast; lia].
      * assert (j ≠ k) by congruence.
        split_and!; [lia | done | intros; apply Hlast; lia].
Qed.

Lemma length_recency (wss : nat) (rec : list Z) :
  length rec ≤ wss → length (recency wss rec) = wss.
Proof. intros. unfold recency. rewrite length_app, length_replicate. lia. Qed.

Lemma recency_contains (wss : nat) (rec : list Z) (d : Z) :
  length rec ≤ wss → d ≠ INT_MIN →
  arrayContains (recency wss rec) wss d = true ↔ d ∈ rec.
Proof.
  intros Hlen Hd. rewrite <-(length_recency wss rec) at 2 by done.
  rewrite arrayContains_elem. unfold recency.
  rewrite elem_of_app, elem_of_replicate. split; [by intros [?|[? _]] | by left].
Qed.

Lemma recency_store (wss : nat) (rec : list Z) (d : Z) :
  length rec < wss →
  store (recency wss rec) (length rec) d = Some (recency wss (rec ++ [d])).
Proof.
  intros Hlen. rewrite store_Some by (rewrite length_recency; lia).
  f_equal. unfold recency.
  rewrite insert_app_r_alt, Nat.sub_diag by lia.
  rewrite length_app; simpl.
  replace (wss - length rec) with (S (wss - (length rec + 1))) by lia.
  simpl. by rewrite <-app_assoc.
Qed.

(** On a full frame that does not hold the sentinel, the scan breaks, at the
    most recent reference of a resident page that every other resident page
    has been referenced after. *)
Lemma LRU_scan_break (set : list Z) (wss : nat) (data : list Z) :
  length set = wss → NoDup set → INT_MIN ∉ set →
  ∀ (k : nat) (rec : list Z),
    length rec < wss → NoDup rec → (∀ p, p ∈ rec → p ∈ set) →
    k ≤ length data →
    (∀ p, p ∈ set → p ∉ rec → ∃ j, j < k ∧ data !! j = Some p) →
    ∃ lru j,
      LRU_scan set wss data k (recency wss rec) (length rec) = ScanBreak lru j ∧
      j < k ∧ data !! j = Some lru ∧ lru ∈ set ∧ (lru ∉ rec) ∧
      (∀ p, p ∈ set → p ≠ lru →
            p ∈ rec ∨ (∃ j', j < j' ∧ j' < k ∧ data !! j' = Some p)) ∧
      (∀ j', j < j' → j' < k → data !! j' ≠ Some lru).
Proof.
  intros Hlen Hnds Hsent.
  induction k as [|k IH]; intros rec Hc Hnd Hsub Hk Hseen.
  - exfalso. assert (Hle : set ⊆+ rec).
    { apply NoDup_submseteq; [done|]. intros p Hp.
      destruct (decide (p ∈ rec)) as [|Hn]; [done|].
      destruct (Hseen p Hp Hn) as (j & ? & _). lia. }
    apply submseteq_length in Hle. lia.
  - simpl. destruct (lookup_lt_is_Some_2 data k) as [d Hd]; [lia|]. rewrite Hd.
    destruct (arrayContains set wss d) eqn:Hin.
    + rewrite <-Hlen, arrayContains_elem in Hin.
      assert (Hdne : d ≠ INT_MIN) by (by intros ->).
      destruct (arrayContains (recency wss rec) wss d) eqn:Hru; simpl.
      * apply recency_contains in Hru; [|lia|done].
        rewrite decide_False by lia.
        destruct (IH rec) as (lru & j & Hscan & Hj & Hl & Hls & Hlr & Hothers & Hlast);
          [done..|lia| |].
        { intros p Hp Hn. destruct (Hseen p Hp Hn) as (j & Hj & Hpj).
          exists j. split; [|done].
          destruct (decide (j = k)) as [->|]; [|lia]. congruence. }
        exists lru, j. split_and!; [done | lia | done..| |].
        -- intros p Hp Hne. destruct (Hothers p Hp Hne) as [?|(j' & ? & ? & ?)]; [by left|].
           right. exists j'. split_and!; [done | lia | done].
        -- intros j' ? ?. destruct (decide (j' = k)) as [->|]; [|apply Hlast; lia].
           rewrite Hd. congruence.
      * assert (Hnr : d ∉ rec).
        { intros Hr. apply (recency_contains wss) in Hr; [congruence | lia | done]. }
        rewrite recency_store by done.
        assert (Hnd' : NoDup (rec ++ [d])).
        { apply NoDup_app. split_and!; [done | | apply NoDup_singleton].
          by intros x Hx ->%list_elem_of_singleton. }
        assert (Hsub' : ∀ p, p ∈ rec ++ [d] → p ∈ set).
        { intros p [?| ->%list_elem_of_singleton]%elem_of_app; [by apply Hsub | done]. }
        case_decide as Hfull.
        -- exists d, k. split_and!; [done | lia | done | done | done | | intros; lia].
           intros p Hp Hne. left.
           assert (Hperm : rec ++ [d] ≡ₚ set).
           { apply submseteq_length_Permutation; [by apply NoDup_submseteq|].
             rewrite length_app; simpl. lia. }
           rewrite <-Hperm in Hp.
           apply elem_of_app in Hp as [?| ->%list_elem_of_singleton]; done.
        -- replace (S (length rec)) with (length (rec ++ [d]))
             by (rewrite length_app; simpl; lia).
           destruct (IH (rec ++ [d])) as (lru & j & Hscan & Hj & Hl & Hls & Hlr & Hothers & Hlast);
             [rewrite length_app; simpl; lia | done | done | lia | |].
           { intros p Hp Hn. apply not_elem_of_app in Hn as [Hn Hpd].
             destruct (Hseen p Hp Hn) as (j & Hj & Hpj).
             exists j. split; [|done].
             destruct (decide (j = k)) as [->|]; [|lia].
             exfalso. apply Hpd, list_elem_of_singleton. congruence. }
           apply not_elem_of_app in Hlr as [Hlr Hld].
           exists lru, j. split_and!; [done | lia | done..| |].
           ++ intros p Hp Hne.
              destruct (Hothers p Hp Hne) as [[?| ->%list_elem_of_singleton]%elem_of_app|(j' & ? & ? & ?)].
              ** by left.
              ** right. exists k. split_and!; [lia | lia | done].
              ** right. exists j'. split_and!; [done | lia | done].
           ++ intros j' ? ?. destruct (decide (j' = k)) as [->|]; [|apply Hlast; lia].
              rewrite Hd. intros [= ->]. apply Hld. by apply list_elem_of_singleton.
    + rewrite <-Hlen, arrayContains_not_elem in Hin.
      destruct (IH rec) as (lru & j & Hscan & Hj & Hl & Hls & Hlr & Hothers & Hlast);
        [done..|lia| |].
      { intros p Hp Hn. destruct (Hseen p Hp Hn) as (j & Hj & Hpj).
        exists j. split; [|done].
        destruct (decide (j = k)) as [->|]; [|lia]. congruence. }
      exists lru, j. split_and!; [done | lia | done..| |].
      * intros p Hp Hne. destruct (Hothers p Hp Hne) as [?|(j' & ? & ? & ?)]; [by left|].
        right. exists j'. split_and!; [done | lia | done].
      * intros j' ? ?. destruct (decide (j' = k)) as [->|]; [|apply Hlast; lia].
        rewrite Hd. congruence.
Qed.

Lemma last_ref_later (data : list Z) (k : nat) (p : Z) (j : nat) :
  j < k → data !! j = Some p → ∃ j', last_ref data k p = Some j' ∧ j ≤ j'.
Proof.
  induction k as [|k IH]; simpl; [lia|]. intros Hj Hd.
  case_decide; [exists k; split; [done|lia]|].
  destruct (decide (j = k)) as [->|]; [done|].
  destruct IH as (j' & ? & ?); [lia | done |]. eauto.
Qed.

(** On a full frame in which the sentinel is resident the scan cannot break:
    the fresh recency array is filled with the sentinel, so the resident
    sentinel always counts as recorded already and [c] stays below [wss]. *)
Lemma LRU_scan_no_break (set : list Z) (wss : nat) (data : list Z) :
  length set = wss → NoDup set → INT_MIN ∈ set →
  ∀ (k : nat) (rec : list Z),
    length rec < wss → NoDup rec →
    (∀ p, p ∈ rec → p ∈ set ∧ p ≠ INT_MIN) →
    k ≤ length data →
    LRU_scan set wss data k (recency wss rec) (length rec) = ScanFellThrough.
Proof.
  intros Hlen Hnds Hsent.
  induction k as [|k IH]; intros rec Hc Hnd Hsub Hk; simpl; [done|].
  destruct (lookup_lt_is_Some_2 data k) as [d Hd]; [lia|]. rewrite Hd.
  destruct (arrayContains set wss d) eqn:Hin; [|apply IH; [done..|lia]].
  rewrite <-Hlen, arrayContains_elem in Hin.
  destruct (arrayContains (recency wss rec) wss d) eqn:Hru; simpl.
  - rewrite decide_False by lia. apply IH; [done..|lia].
  - rewrite <-(length_recency wss rec) in Hru at 2 by lia.
    apply arrayContains_not_elem in Hru. unfold recency in Hru.
    apply not_elem_of_app in Hru as [Hnr Hrep].
    assert (Hdne : d ≠ INT_MIN).
    { intros ->. apply Hrep, elem_of_replicate. split; [done|lia]. }
    rewrite recency_store by done.
    assert (Hsub' : INT_MIN :: rec ++ [d] ⊆+ set).
    { apply NoDup_submseteq.
      - apply NoDup_cons. split.
        + intros [Hp|Heq%list_elem_of_singleton]%elem_of_app; [|done].
          by destruct (Hsub _ Hp).
        + apply NoDup_app. split_and!; [done| |apply NoDup_singleton].
          by intros x Hx ->%list_elem_of_singleton.
      - intros p [->|[Hp| ->%list_elem_of_singleton]%elem_of_app]%elem_of_cons;
          [done | by destruct (Hsub _ Hp) | done]. }
    apply submseteq_length in Hsub'. simpl in Hsub'.
    rewrite length_app in Hsub'; simpl in Hsub'.
    rewrite decide_False by lia.
    replace (S (length rec)) with (length (rec ++ [d]))
      by (rewrite length_app; simpl; lia).
    apply IH; [rewrite length_app; simpl; lia | | | lia].
    + apply NoDup_app. split_and!; [done| |apply NoDup_singleton].
      by intros x Hx ->%list_elem_of_singleton.
    + intros p [Hp| ->%list_elem_of_singleton]%elem_of_app; [by apply Hsub|done].
Qed.

(** The scan reads the trace only below the position it starts from. *)
Lemma LRU_scan_ext (set : list Z) (wss : nat) (data data' : list Z) (k : nat)
    (ru : list Z) (c : nat) :
  (∀ j, j < k → data !! j = data' !! j) →
  LRU_scan set wss data k ru c = LRU_scan set wss data' k ru c.
Proof.
  revert ru c; induction k as [|k IH]; intros ru c Heq; simpl; [done|].
  rewrite <-(Heq k) by lia. destruct (data !! k) as [d|]; [|done].
  assert (Hk : ∀ j, j < k → data !! j = data' !! j) by (intros; apply Heq; lia).
  destruct (arrayContains set wss d); [|by apply IH].
  destruct (arrayContains ru wss d); simpl.
  - case_decide; [done | by apply IH].
  - destruct (store ru c d); [|done]. case_decide; [done | by apply IH].
Qed.

(** ** LRU: the invariant holds along every run *)

Arguments LRU_scan : simpl never.

Lemma LRU_step_inv (wss : nat) (data : list Z) (k : nat) (st st' : LRU_state) :
  LRU_inv wss data k st →
  LRU_step wss data k st = Some st' →
  LRU_inv wss data (S k) st' ∧
  ∃ d, data !! k = Some d ∧
       frame_step wss d (lru_set st) (lru_size st) (lru_set st') (lru_size st').
Proof.
  unfold LRU_inv. intros Hf. unfold LRU_step.
  destruct (data !! k) as [d|] eqn:Hd; simpl; [|done].
  destruct (arrayContains _ _ _) eqn:Hc; simpl.
  - intros [= <-]. apply (frame_contains _ _ _ _ _ _ Hf) in Hc.
    assert (Hs : frame_step wss d (lru_set st) (lru_size st) (lru_set st) (lru_size st))
      by by constructor.
    split; [eapply frame_inv_step|]; eauto.
  - apply (frame_not_contains _ _ _ _ _ _ Hf) in Hc.
    case_decide as Hsz.
    + destruct (store _ _ _) as [set'|] eqn:Hst; simpl; [|done].
      intros [= <-]; simpl. apply store_inv in Hst as [Hlt ->].
      assert (Hs : frame_step wss d (lru_set st) (lru_size st)
                     (<[lru_size st:=d]> (lru_set st)) (S (lru_size st)))
        by by constructor.
      split; [eapply frame_inv_step|]; eauto.
    + destruct (LRU_scan _ _ _ _ _ _) as [lru j| |]; [|done..].
      destruct (getIndex _ _ _) as [c|] eqn:Hg; simpl; [|done].
      destruct (store _ _ _) as [set'|] eqn:Hst; simpl; [|done].
      intros [= <-]; simpl. apply store_inv in Hst as [Hlt ->].
      assert (Hs : frame_step wss d (lru_set st) (lru_size st)
                     (<[c:=d]> (lru_set st)) (lru_size st)).
      { constructor; [done | by destruct (decide (lru_size st = wss)) | done]. }
      split; [eapply frame_inv_step|]; eauto.
Qed.

Lemma LRU_run_inv (wss : nat) (data : list Z) (k : nat) (st : LRU_state) :
  LRU_run wss data k = Some st → LRU_inv wss data k st.
Proof.
  revert st; induction k as [|k IH]; simpl; intros st.
  - intros [= <-]. apply frame_inv_init.
  - destruct (LRU_run wss data k) as [st0|]; simpl; [|done].
    intros Hst. eapply LRU_step_inv; [by apply IH | done].
Qed.

(** A full frame holds exactly the pages of its cells, all referenced
    before. *)
Lemma frame_full_seen (wss : nat) (data : list Z) (k : nat) (set : list Z) (p : Z) :
  frame_inv wss data k set wss → p ∈ set → ∃ j, j < k ∧ data !! j = Some p.
Proof.
  intros [Hlen _ _ _ _ Hseen] Hp. apply Hseen.
  by rewrite <-Hlen, firstn_all.
Qed.

Lemma frame_full_NoDup (wss : nat) (data : list Z) (k : nat) (set : list Z) :
  frame_inv wss data k set wss → NoDup set.
Proof. intros [Hlen _ _ Hnd _ _]. by rewrite <-Hlen, firstn_all in Hnd. Qed.

(** The eviction of LRU on a full frame of real pages: the scan breaks at the
    least recently used resident page, whose cell receives the reference. *)
Lemma LRU_step_evict (wss : nat) (data : list Z) (i : nat) (st : LRU_state) (d : Z) :
  1 ≤ wss →
  LRU_inv wss data i st →
  lru_size st = wss →
  INT_MIN ∉ lru_set st →
  data !! i = Some d →
  d ∉ lru_set st →
  ∃ lru j c,
    LRU_scan (lru_set st) wss data (S i) (replicate wss INT_MIN) 0 = ScanBreak lru j ∧
    lru ∈ lru_set st ∧
    last_ref data (S i) lru = Some j ∧
    (∀ p, p ∈ lru_set st → p ≠ lru → ∃ j', last_ref data (S i) p = Some j' ∧ j < j') ∧
    getIndex (lru_set st) wss lru = Some c ∧
    lru_set st !! c = Some lru ∧
    LRU_step wss data i st =
      Some (MkLRU (<[c:=d]> (lru_set st)) (lru_size st) (lru_faults st + 1)).
Proof.
  unfold LRU_inv. intros Hwss Hf Hfull Hsent Hd Hmiss. rewrite Hfull in Hf.
  pose proof (fi_length _ _ _ _ _ Hf) as Hlen.
  destruct (LRU_scan_break (lru_set st) wss data Hlen (frame_full_NoDup _ _ _ _ Hf) Hsent
              (S i) []) as (lru & j & Hscan & Hj & Hl & Hls & _ & Hothers & Hlast).
  { simpl; lia. }
  { constructor. }
  { by intros p ?%elem_of_nil. }
  { apply lookup_lt_Some in Hd. lia. }
  { intros p Hp _. destruct (frame_full_seen _ _ _ _ _ Hf Hp) as (j & ? & ?).
    exists j. split; [lia|done]. }
  unfold recency in Hscan. simpl in Hscan. rewrite Nat.sub_0_r in Hscan.
  destruct (getIndex_is_Some (lru_set st) wss lru) as [c Hg].
  { by rewrite <-Hlen, firstn_all. }
  pose proof (getIndex_Some _ _ _ _ Hg) as (Hc & Hcl & _).
  exists lru, j, c. split_and!; [done | done | | | done | done |].
  - apply last_ref_Some. split_and!; [lia | done | done].
  - intros p Hp Hne.
    destruct (Hothers p Hp Hne) as [?%elem_of_nil|(j' & ? & ? & Hpj)]; [done|].
    destruct (last_ref_later data (S i) p j') as (j'' & ? & ?); [lia | done |].
    exists j''. split; [done | lia].
  - unfold LRU_step. rewrite Hd; simpl.
    apply (frame_not_contains _ _ _ _ _ _ Hf) in Hmiss. rewrite Hmiss; simpl.
    rewrite decide_False by (intros H; by apply H).
    rewrite Hscan, Hg; simpl. rewrite store_Some by lia. done.
Qed.

(** At a miss of a run on a full frame, the scan breaks exactly when the
    sentinel is not resident. *)
Lemma LRU_scan_breaks_iff (wss : nat) (data : list Z) (i : nat) (st : LRU_state) :
  1 ≤ wss →
  LRU_run wss data i = Some st → i < length data → lru_size st = wss →
  (∃ lru j, LRU_scan (lru_set st) wss data (S i) (replicate wss INT_MIN) 0
            = ScanBreak lru j) ↔
  INT_MIN ∉ lru_set st.
Proof.
  intros Hwss Hf%LRU_run_inv Hi Hfull. unfold LRU_inv in Hf. rewrite Hfull in Hf.
  pose proof (fi_length _ _ _ _ _ Hf) as Hlen.
  pose proof (frame_full_NoDup _ _ _ _ Hf) as Hnd.
  split.
  - intros (lru & j & Hscan) Hsent.
    pose proof (LRU_scan_no_break _ _ data Hlen Hnd Hsent (S i) []) as Hno.
    unfold recency in Hno; simpl in Hno. rewrite Nat.sub_0_r in Hno.
    rewrite Hno in Hscan; [done | lia | constructor | | lia].
    by intros p ?%elem_of_nil.
  - intros Hsent.
    destruct (LRU_scan_break _ _ data Hlen Hnd Hsent (S i) [])
      as (lru & j & Hscan & _); [simpl; lia | constructor | | lia | |].
    + by intros p ?%elem_of_nil.
    + intros p Hp _. destruct (frame_full_seen _ _ _ _ _ Hf Hp) as (j & ? & ?).
      exists j. split; [lia|done].
    + unfold recency in Hscan; simpl in Hscan. rewrite Nat.sub_0_r in Hscan. eauto.
Qed.

(** On a trace that never references the sentinel, LRU never leaves its
    arrays and never uses [lru] unassigned. *)
Lemma LRU_step_total (wss : nat) (data : list Z) (k : nat) (st : LRU_state) :
  1 ≤ wss →
  LRU_inv wss data k st → k < length data →
  (∀ j, j < k → data !! j ≠ Some INT_MIN) →
  is_Some (LRU_step wss data k st).
Proof.
  intros Hwss Hf Hk Hreal.
  destruct (lookup_lt_is_Some_2 data k Hk) as [d Hd].
  destruct (arrayContains (lru_set st) wss d) eqn:Hc.
  - unfold LRU_step. rewrite Hd; simpl. rewrite Hc; simpl. eauto.
  - destruct (decide (lru_size st = wss)) as [Hfull|Hroom].
    + apply (frame_not_contains _ _ _ _ _ _ Hf) in Hc.
      destruct (LRU_step_evict wss data k st d) as (? & ? & ? & _ & _ & _ & _ & _ & _ & ->);
        eauto.
      intros Hs. unfold LRU_inv in Hf. rewrite Hfull in Hf.
      destruct (frame_full_seen _ _ _ _ _ Hf Hs) as (j & ? & ?). by eapply Hreal.
    + unfold LRU_step. rewrite Hd; simpl. rewrite Hc; simpl.
      rewrite decide_True by done.
      destruct Hf as [Hlen Hsz _ _ _ _].
      rewrite store_Some by lia. simpl; eauto.
Qed.

Lemma LRU_run_total (wss : nat) (data : list Z) (k : nat) :
  1 ≤ wss → k ≤ length data →
  (∀ j, j < k → data !! j ≠ Some INT_MIN) →
  is_Some (LRU_run wss data k).
Proof.
  intros Hwss. induction k as [|k IH]; simpl; intros Hk Hreal; [eauto|].
  destruct IH as [st Hst]; [lia | intros; apply Hreal; lia |]. rewrite Hst; simpl.
  apply LRU_step_total; [done | by apply LRU_run_inv | lia | intros; apply Hreal; lia].
Qed.

(** ** Traces with at most [wss] distinct pages *)

Lemma first_refs_S (data : list Z) (k : nat) (d : Z) :
  data !! k = Some d →
  first_refs data (S k) =
    if decide (d = INT_MIN ∨ d ∈ first_refs data k) then first_refs data k
    else first_refs data k ++ [d].
Proof. intros Hd. simpl. by rewrite Hd. Qed.

(** The first references are the pages of the trace, the sentinel apart. *)
Lemma first_refs_elem (data : list Z) (k : nat) (p : Z) :
  p ∈ first_refs data k ↔ p ∈ take k data ∧ p ≠ INT_MIN.
Proof.
  induction k as [|k IH].
  - simpl. rewrite take_0. split; [by intros ?%elem_of_nil | by intros [?%elem_of_nil _]].
  - destruct (data !! k) as [d|] eqn:Hd.
    + rewrite (first_refs_S _ _ _ Hd), (take_S_r _ _ _ Hd).
      rewrite (elem_of_app (take k data)), list_elem_of_singleton.
      case_decide as Hdec.
      * rewrite IH. split; [intros [? ?]; auto|]. intros [[?| ->] Hne]; [done|].
        destruct Hdec as [?|Hin]; [done|]. by apply IH in Hin.
      * rewrite elem_of_app, list_elem_of_singleton, IH. split.
        -- intros [[? ?]| ->]; [auto|]. split; [by right|].
           intros ->. apply Hdec. by left.
        -- intros [[?| ->] ?]; [left|right]; done.
    + simpl. rewrite Hd. apply lookup_ge_None in Hd.
      rewrite IH, !take_ge by lia. done.
Qed.

Lemma first_refs_NoDup (data : list Z) (k : nat) : NoDup (first_refs data k).
Proof.
  induction k as [|k IH]; simpl; [constructor|].
  destruct (data !! k) as [d|]; [|done]. case_decide as Hdec; [done|].
  apply NoDup_app. split_and!; [done| |apply NoDup_singleton].
  intros x Hx ->%list_elem_of_singleton. apply Hdec. by right.
Qed.

Lemma first_refs_length (TRACES wss : nat) (data : list Z) (k : nat) :
  length (remove_dups (take TRACES data)) ≤ wss → k ≤ TRACES →
  length (first_refs data k) ≤ wss.
Proof.
  intros Hdistinct Hk.
  assert (Hsub : first_refs data k ⊆+ remove_dups (take TRACES data)).
  { apply NoDup_submseteq; [apply first_refs_NoDup|].
    intros p [Hp _]%first_refs_elem. apply elem_of_remove_dups.
    apply elem_of_take in Hp as (j & ? & ?). apply elem_of_take.
    exists j. split; [done|lia]. }
  apply submseteq_length in Hsub. lia.
Qed.

(** While the trace has no more than [wss] distinct pages, a page of the
    trace that is not among the first references so far leaves a slot
    free. *)
Lemma first_refs_room (TRACES wss : nat) (data : list Z) (k : nat) (d : Z) :
  length (remove_dups (take TRACES data)) ≤ wss → k ≤ TRACES →
  d ∈ take TRACES data → d ∉ first_refs data k →
  length (first_refs data k) < wss.
Proof.
  intros Hdistinct Hk Hd Hn.
  assert (Hsub : d :: first_refs data k ⊆+ remove_dups (take TRACES data)).
  { apply NoDup_submseteq; [apply NoDup_cons; split; [done|apply first_refs_NoDup]|].
    intros p Hp. apply elem_of_remove_dups.
    apply elem_of_cons in Hp as [->|[Hp _]%first_refs_elem]; [done|].
    apply elem_of_take in Hp as (j & ? & ?). apply elem_of_take.
    exists j. split; [done|lia]. }
  apply submseteq_length in Hsub. simpl in Hsub. lia.
Qed.

(** A frame that holds the pages [pages] in its first cells still holds the
    sentinel while it has a free cell. *)
Lemma recency_sentinel (wss : nat) (rec : list Z) :
  length rec < wss → arrayContains (recency wss rec) wss INT_MIN = true.
Proof.
  intros Hlen. rewrite <-(length_recency wss rec) at 2 by lia.
  apply arrayContains_elem. unfold recency. apply elem_of_app. right.
  apply elem_of_replicate. split; [done|lia].
Qed.

(** What a reference does to a frame that holds the first references in its
    first cells: nothing when the page is one of them or the sentinel, and
    otherwise the page goes into the next cell. *)
Lemma first_refs_hit (TRACES wss : nat) (data : list Z) (k : nat) (d : Z) :
  length (remove_dups (take TRACES data)) ≤ wss → k < TRACES →
  data !! k = Some d →
  d = INT_MIN ∨ d ∈ first_refs data k →
  arrayContains (recency wss (first_refs data k)) wss d = true.
Proof.
  intros Hdistinct Hk Hd Hdec.
  destruct (decide (d = INT_MIN)) as [->|Hne].
  - apply recency_sentinel.
    apply (first_refs_room TRACES wss data k INT_MIN); [done|lia| |].
    + apply elem_of_take. exists k. split; [done|lia].
    + by intros [_ ?]%first_refs_elem.
  - destruct Hdec as [?|Hin]; [done|].
    apply recency_contains; [|done..].
    apply (first_refs_length TRACES); [done|lia].
Qed.

Lemma first_refs_fill (TRACES wss : nat) (data : list Z) (k : nat) (d : Z) :
  length (remove_dups (take TRACES data)) ≤ wss → k < TRACES →
  data !! k = Some d →
  ¬ (d = INT_MIN ∨ d ∈ first_refs data k) →
  arrayContains (recency wss (first_refs data k)) wss d = false ∧
  length (first_refs data k) < wss ∧
  store (recency wss (first_refs data k)) (length (first_refs data k)) d
    = Some (recency wss (first_refs data k ++ [d])).
Proof.
  intros Hdistinct Hk Hd Hdec.
  assert (Hroom : length (first_refs data k) < wss).
  { apply (first_refs_room TRACES wss data k d); [done|lia| |].
    - apply elem_of_take. exists k. split; [done|lia].
    - intros Hin. apply Hdec. by right. }
  split_and!; [|done|by apply recency_store].
  destruct (arrayContains _ _ _) eqn:Hc; [|done].
  apply recency_contains in Hc; [|lia|].
  - destruct Hdec. by right.
  - intros ->. apply Hdec. by left.
Qed.

(** On a trace with at most [wss] distinct pages the three engines only hit
    and fill: after [k] references each holds the first references so far
    in its first cells, the sentinel behind them, and has counted no
    fault. *)
Lemma fill_phase_runs (TRACES wss : nat) (data : list Z) (k : nat) :
  TRACES ≤ length data →
  length (remove_dups (take TRACES data)) ≤ wss →
  k ≤ TRACES →
  LRU_run wss data k =
    Some (MkLRU (recency wss (first_refs data k)) (length (first_refs data k)) 0) ∧
  FIFO_run wss data k =
    Some (MkFIFO (recency wss (first_refs data k)) (length (first_refs data k)) 0 0) ∧
  ∃ secondChance,
    length secondChance = wss ∧
    Clock_run wss data k =
      Some (MkClock (recency wss (first_refs data k)) secondChance
                    (length (first_refs data k)) 0 0).
Proof.
  intros Hlen Hdistinct. induction k as [|k IH]; intros Hk.
  - unfold recency. simpl. rewrite Nat.sub_0_r. split_and!; [done..|].
    exists (replicate wss 0%Z). by rewrite length_replicate.
  - destruct IH as (Hlru & Hfifo & sc & Hsc & Hclock); [lia|].
    destruct (lookup_lt_is_Some_2 data k) as [d Hd]; [lia|].
    change (LRU_run wss data (S k)) with (LRU_run wss data k ≫= LRU_step wss data k).
    change (FIFO_run wss data (S k)) with (FIFO_run wss data k ≫= FIFO_step wss data k).
    change (Clock_run wss data (S k)) with (Clock_run wss data k ≫= Clock_step wss data k).
    rewrite Hlru, Hfifo, Hclock, (first_refs_S _ _ _ Hd). simpl.
    unfold LRU_step, FIFO_step, Clock_step. rewrite Hd. simpl.
    destruct (decide (d = INT_MIN ∨ d ∈ first_refs data k)) as [Hdec|Hdec].
    + assert (Hhit : arrayContains (recency wss (first_refs data k)) wss d = true)
        by (apply (first_refs_hit TRACES); [done | lia | done | done]).
      rewrite Hhit. simpl. split_and!; [done..|].
      destruct (getIndex_is_Some (recency wss (first_refs data k)) wss d) as [c Hc];
        [by apply arrayContains_take|].
      rewrite Hc. simpl. apply getIndex_Some in Hc as (Hc & _).
      rewrite store_Some by lia. simpl.
      exists (<[c:=1%Z]> sc). by rewrite length_insert.
    + destruct (first_refs_fill TRACES wss data k d) as (-> & Hroom & ->);
        [done|lia|done..|]. simpl.
      destruct (decide (length (first_refs data k) ≠ wss)) as [_|?]; [|lia].
      rewrite length_app. simpl. rewrite Nat.add_1_r.
      split_and!; [done..|]. by exists sc.
Qed.

(** C1, as the specification states it, fails: on the trace [1, 2, 3] with
    [wss = 3] there are three distinct pages and each engine returns 0, not
    3. *)
Lemma compulsory_floor_fails :
  ¬ (∀ (TRACES wss : nat) (data : list Z),
       1 ≤ wss → length data = TRACES → length (remove_dups data) ≤ wss →
       LRU TRACES wss data = Some (Z.of_nat (length (remove_dups data))) ∧
       FIFO TRACES wss data = Some (Z.of_nat (length (remove_dups data))) ∧
       Clock TRACES wss data = Some (Z.of_nat (length (remove_dups data)))).
Proof.
  intros H. destruct (H 3 3 [1; 2; 3]%Z) as (H1 & _); [lia | done | simpl; lia |].
  vm_compute in H1. discriminate.
Qed.

(** C1, amended: for every working-set size [wss >= 1] and every trace with
    at most [wss] distinct pages, each of the three engines returns the fault
    count 0.  After any number [k] of references the engine has counted no
    fault, and its frame holds in its first cells the pages other than the
    sentinel referenced so far, each once and in the order of their first
    reference, and the sentinel in the cells behind them; the fill count is
    the number of those pages.  The next reference hits exactly when its page
    was referenced before or is the sentinel (which matches a free slot), and
    then changes neither the frame nor the counts; a reference that misses is
    the first one to its page, finds a free slot, fills it and is not
    counted. *)
Theorem compulsory_references_not_counted (TRACES wss : nat) (data : list Z) :
  1 ≤ wss → TRACES ≤ length data →
  length (remove_dups (take TRACES data)) ≤ wss →
  (LRU TRACES wss data = Some 0%Z ∧
   FIFO TRACES wss data = Some 0%Z ∧
   Clock TRACES wss data = Some 0%Z) ∧
  ∀ k, k ≤ TRACES →
    let pages := first_refs data k in
    let set := pages ++ replicate (wss - length pages) INT_MIN in
    (NoDup pages ∧ length pages ≤ wss ∧
     ∀ p, p ∈ pages ↔ p ∈ take k data ∧ p ≠ INT_MIN) ∧
    LRU_run wss data k = Some (MkLRU set (length pages) 0) ∧
    FIFO_run wss data k = Some (MkFIFO set (length pages) 0 0) ∧
    (∃ secondChance,
       Clock_run wss data k = Some (MkClock set secondChance (length pages) 0 0)) ∧
    ∀ d, k < TRACES → data !! k = Some d →
      if arrayContains set wss d then
        (d = INT_MIN ∨ d ∈ pages) ∧
        LRU_run wss data (S k) = Some (MkLRU set (length pages) 0) ∧
        FIFO_run wss data (S k) = Some (MkFIFO set (length pages) 0 0) ∧
        ∃ secondChance,
          Clock_run wss data (S k)
            = Some (MkClock set secondChance (length pages) 0 0)
      else
        d ≠ INT_MIN ∧ (d ∉ pages) ∧ length pages < wss ∧
        LRU_run wss data (S k)
          = Some (MkLRU (<[length pages:=d]> set) (S (length pages)) 0) ∧
        FIFO_run wss data (S k)
          = Some (MkFIFO (<[length pages:=d]> set) (S (length pages)) 0 0) ∧
        ∃ secondChance,
          Clock_run wss data (S k)
            = Some (MkClock (<[length pages:=d]> set) secondChance
                            (S (length pages)) 0 0).
Proof.
  intros Hwss Hlen Hdistinct. split.
  - destruct (fill_phase_runs TRACES wss data TRACES) as (H1 & H2 & sc & _ & H3);
      [done..|].
    unfold LRU, FIFO, Clock. by rewrite H1, H2, H3.
  - intros k Hk pages set.
    destruct (fill_phase_runs TRACES wss data k) as (H1 & H2 & sc & _ & H3);
      [done..|].
    split_and!; [apply first_refs_NoDup | by eapply first_refs_length
                | apply first_refs_elem | done..| by exists sc |].
    intros d Hlt Hd. subst pages set.
    fold (recency wss (first_refs data k)).
    destruct (fill_phase_runs TRACES wss data (S k)) as (H1' & H2' & sc' & _ & H3');
      [done | done | lia |].
    rewrite (first_refs_S _ _ _ Hd) in H1', H2', H3'.
    destruct (decide (d = INT_MIN ∨ d ∈ first_refs data k)) as [Hdec|Hdec].
    + rewrite (first_refs_hit TRACES) by done.
      split_and!; [done..|by exists sc'].
    + destruct (first_refs_fill TRACES wss data k d) as (-> & Hroom & Hst); [done..|].
      apply store_inv in Hst as [_ <-].
      rewrite length_app, Nat.add_1_r in H1', H2', H3'.
      split_and!; [| |done..|by exists sc'].
      * intros ->. apply Hdec. by left.
      * intros Hin. apply Hdec. by right.
Qed.

Lemma compulsory_references_not_counted_witness :
  LRU 12 5 trace12 = Some 0%Z ∧
  LRU_run 5 trace12 9 = Some (MkLRU [1; 2; 3; 4; 5]%Z 5 0) ∧
  LRU_run 5 trace12 6 = Some (MkLRU [1; 2; 3; 4; INT_MIN]%Z 4 0).
Proof.
  destruct (compulsory_references_not_counted 12 5 trace12) as [(Hlru & _) Hruns];
    [lia | simpl; lia | vm_compute; lia |].
  split_and!.
  - exact Hlru.
  - destruct (Hruns 9) as (_ & Hrun & _); [lia | exact Hrun].
  - destruct (Hruns 6) as (_ & Hrun & _); [lia | exact Hrun].
Defined.

(** ** Eviction order *)

(** C2: a trace is a sequence of page identifiers, and the sentinel
    [INT_MIN] is none (specification, data model); it is enough here that
    no reference before position [i] is the sentinel.  The run then reaches
    position [i], and if the reference [data[i]] misses on the full frame
    (the branch [size == wss]) the least recently used page is evicted: the
    backward scan breaks on the [wss]-th distinct resident page [lru]; [lru]
    is the resident page whose most recent reference in [data[0..i]] lies
    furthest in the past; its slot [c] is overwritten with [data[i]] and the
    fault count is incremented.  On the trace [1,2,3,4,1,2,5,1,2,3,4,5] with
    [wss = 3], LRU returns 7. *)
Theorem LRU_evicts_least_recently_used (wss : nat) (data : list Z) (i : nat) (d : Z) :
  1 ≤ wss →
  data !! i = Some d →
  INT_MIN ∉ take i data →
  (∃ st,
     LRU_run wss data i = Some st ∧
     (arrayContains (lru_set st) wss d = false → lru_size st = wss →
      ∃ lru j c,
        LRU_scan (lru_set st) wss data (S i) (replicate wss INT_MIN) 0
          = ScanBreak lru j ∧
        lru ∈ lru_set st ∧
        last_ref data (S i) lru = Some j ∧
        (∀ p, p ∈ lru_set st → p ≠ lru →
              ∃ j', last_ref data (S i) p = Some j' ∧ j < j') ∧
        getIndex (lru_set st) wss lru = Some c ∧
        lru_set st !! c = Some lru ∧
        LRU_step wss data i st =
          Some (MkLRU (<[c:=d]> (lru_set st)) (lru_size st) (lru_faults st + 1)))) ∧
  LRU 12 3 trace12 = Some 7%Z.
Proof.
  intros Hwss Hd Hreal. split; [|reflexivity].
  pose proof (lookup_lt_Some _ _ _ Hd) as Hi.
  assert (Hreal' : ∀ j, j < i → data !! j ≠ Some INT_MIN).
  { intros j Hj Hs. apply Hreal, elem_of_take. eauto. }
  destruct (LRU_run_total wss data i) as [st Hrun]; [done | lia | done |].
  exists st. split; [done|]. intros Hmiss Hfull.
  pose proof (LRU_run_inv _ _ _ _ Hrun) as Hinv.
  apply LRU_step_evict; [done..| |done|by apply (frame_not_contains _ _ _ _ _ _ Hinv)].
  intros Hs. unfold LRU_inv in Hinv. rewrite Hfull in Hinv.
  destruct (frame_full_seen _ _ _ _ _ Hinv Hs) as (j & ? & ?). by apply (Hreal' j).
Qed.

Lemma LRU_evicts_least_recently_used_witness :
  ∃ lru j c,
    LRU_scan [1; 2; 3]%Z 3 trace12 4 (replicate 3 INT_MIN) 0 = ScanBreak lru j ∧
    last_ref trace12 4 lru = Some j ∧
    getIndex [1; 2; 3]%Z 3 lru = Some c ∧
    LRU_step 3 trace12 3 (MkLRU [1; 2; 3]%Z 3 0)
      = Some (MkLRU (<[c:=4%Z]> [1; 2; 3]%Z) 3 (0 + 1)).
Proof.
  destruct (LRU_evicts_least_recently_used 3 trace12 3 4%Z)
    as [(st & Hrun & Hevict) _].
  - lia.
  - reflexivity.
  - compute_done.
  - injection Hrun as <-.
    destruct (Hevict eq_refl eq_refl)
      as (lru & j & c & Hscan & _ & Hlast & _ & Hc & _ & Hst).
    exists lru, j, c. split_and!; [exact Hscan | exact Hlast | exact Hc | exact Hst].
Defined.

(** C3: on the trace [1,2,3,4,1,2,5,1,2,3,4,5] with [wss = 3], FIFO returns
    6. *)
Theorem FIFO_trace12 : FIFO 12 3 trace12 = Some 6%Z.
Proof. reflexivity. Qed.

(** ** The backward scan always breaks *)

(** C5: a trace is a sequence of page identifiers, and the sentinel
    [INT_MIN] is none (specification, data model).  For [wss >= 1] and such a
    trace, LRU returns, and wherever it takes the branch of a miss on the
    full frame, at a position [i], the backward scan leaves by its [break]
    ([c == wss]) at a position [j] between 0 and [i]: the frame holds [wss]
    pairwise different pages, each of them is referenced in [data[j..i]] and
    the page [lru = data[j]] is not referenced again in [data[j+1..i]], so
    [j] is the first position of the scan at which all [wss] resident pages
    have been met.  [lru] is thus assigned before [getIndex] reads it,
    [getIndex] finds it in a slot [c < wss], and the iteration is defined. *)
Theorem LRU_scan_reaches_break (TRACES wss : nat) (data : list Z) :
  1 ≤ wss → TRACES ≤ length data →
  INT_MIN ∉ take TRACES data →
  is_Some (LRU TRACES wss data) ∧
  ∀ i, i < TRACES →
    ∃ st d,
      LRU_run wss data i = Some st ∧ data !! i = Some d ∧
      is_Some (LRU_step wss data i st) ∧
      (arrayContains (lru_set st) wss d = false → lru_size st = wss →
       ∃ lru j c,
         LRU_scan (lru_set st) wss data (S i) (replicate wss INT_MIN) 0
           = ScanBreak lru j ∧
         j ≤ i ∧ data !! j = Some lru ∧
         length (lru_set st) = wss ∧ NoDup (lru_set st) ∧
         (∀ p, p ∈ lru_set st → ∃ j', j ≤ j' ≤ i ∧ data !! j' = Some p) ∧
         (∀ j', j < j' ≤ i → data !! j' ≠ Some lru) ∧
         getIndex (lru_set st) wss lru = Some c ∧ c < wss).
Proof.
  intros Hwss Hlen Hreal.
  assert (Hreal' : ∀ j, j < TRACES → data !! j ≠ Some INT_MIN).
  { intros j Hj Hs. apply Hreal, elem_of_take. eauto. }
  split.
  - unfold LRU. destruct (LRU_run_total wss data TRACES) as [st ->]; [done..|].
    simpl. eauto.
  - intros i Hi.
    destruct (LRU_run_total wss data i) as [st Hrun];
      [done | lia | intros; apply Hreal'; lia |].
    destruct (lookup_lt_is_Some_2 data i) as [d Hd]; [lia|].
    pose proof (LRU_run_inv _ _ _ _ Hrun) as Hinv.
    exists st, d. split_and!; [done..| |].
    { apply LRU_step_total; [done..|lia|intros; apply Hreal'; lia]. }
    intros Hmiss Hfull. unfold LRU_inv in Hinv. rewrite Hfull in Hinv.
    pose proof (fi_length _ _ _ _ _ Hinv) as Hl.
    pose proof (frame_full_NoDup _ _ _ _ Hinv) as Hnd.
    assert (Hsent : INT_MIN ∉ lru_set st).
    { intros Hs. destruct (frame_full_seen _ _ _ _ _ Hinv Hs) as (j & ? & ?).
      apply (Hreal' j); [lia|done]. }
    destruct (LRU_scan_break (lru_set st) wss data Hl Hnd Hsent (S i) [])
      as (lru & j & Hscan & Hj & Hlru & Hls & _ & Hothers & Hlast).
    { simpl; lia. }
    { constructor. }
    { by intros p ?%elem_of_nil. }
    { lia. }
    { intros p Hp _. destruct (frame_full_seen _ _ _ _ _ Hinv Hp) as (j & ? & ?).
      exists j. split; [lia|done]. }
    unfold recency in Hscan. simpl in Hscan. rewrite Nat.sub_0_r in Hscan.
    destruct (getIndex_is_Some (lru_set st) wss lru) as [c Hg].
    { by rewrite <-Hl, firstn_all. }
    pose proof (getIndex_Some _ _ _ _ Hg) as (Hc & _ & _).
    exists lru, j, c. split_and!; [done | lia | done..| | | done | done].
    + intros p Hp. destruct (decide (p = lru)) as [->|Hne].
      * exists j. split; [lia|done].
      * destruct (Hothers p Hp Hne) as [?%elem_of_nil|(j' & ? & ? & ?)]; [done|].
        exists j'. split; [lia|done].
    + intros j' [? ?]. apply Hlast; lia.
Qed.

Lemma LRU_scan_reaches_break_witness :
  is_Some (LRU 12 3 trace12) ∧
  ∃ lru j c,
    LRU_scan [3; 4; 2]%Z 3 trace12 12 (replicate 3 INT_MIN) 0 = ScanBreak lru j ∧
    j ≤ 11 ∧ getIndex [3; 4; 2]%Z 3 lru = Some c ∧ c < 3.
Proof.
  destruct (LRU_scan_reaches_break 12 3 trace12) as [Hret Hscan].
  - lia.
  - simpl; lia.
  - compute_done.
  - split; [exact Hret|].
    destruct (Hscan 11) as (st & d & Hrun & Hd & _ & Hbreak); [lia|].
    injection Hrun as <-. injection Hd as <-.
    destruct (Hbreak eq_refl eq_refl)
      as (lru & j & c & Hs & Hj & _ & _ & _ & _ & _ & Hc & Hlt).
    exists lru, j, c. split_and!; [exact Hs | exact Hj | exact Hc | exact Hlt].
Defined.

(** The hypothesis on the trace is needed.  With [wss = 4], a reference to
    [INT_MIN] at position 4 misses on the full frame and is stored like a
    page; at the miss of position 5 the scan finds [INT_MIN] resident but
    already "recorded" (the fresh recency array is filled with it), counts
    only the three other pages and runs below position 0 without a break. *)
Lemma LRU_scan_falls_through_on_sentinel :
  LRU_run 4 sentinel_trace 5 = Some (MkLRU [INT_MIN; 2; 3; 4]%Z 4 1) ∧
  LRU_scan [INT_MIN; 2; 3; 4]%Z 4 sentinel_trace 6 (replicate 4 INT_MIN) 0
    = ScanFellThrough ∧
  LRU 6 4 sentinel_trace = None ∧
  LRU TRACES_default 4 (sentinel_trace ++ replicate 994 5%Z) = None.
Proof. split_and!; by vm_compute. Qed.

(** ** The Clock sweep *)

(** C4: at every miss of Clock on a full frame that a run reaches, the sweep
    performs a number [n <= wss] of iterations (it is out of fuel with less
    than [n] and stops with [n] or more), and stops on a slot whose use bit
    is 0; that slot receives the reference.  If the bit under the hand is 0
    when the sweep starts, [n = 0]: the hand does not move, no bit changes and
    the slot under the hand is the one evicted. *)
Theorem Clock_sweep_within_wss (wss : nat) (data : list Z) (i : nat)
    (st : Clock_state) (d : Z) :
  1 ≤ wss →
  Clock_run wss data i = Some st →
  data !! i = Some d →
  arrayContains (clock_set st) wss d = false →
  clock_size st = wss →
  ∃ n sc' fi',
    n ≤ wss ∧
    (∀ fuel, Clock_sweep fuel wss (clock_secondChance st) (clock_fifoIndex st) =
             if decide (n ≤ fuel) then SweepStopped sc' fi' else SweepOutOfFuel) ∧
    sc' !! fi' = Some 0%Z ∧
    (clock_secondChance st !! clock_fifoIndex st = Some 0%Z →
     n = 0 ∧ sc' = clock_secondChance st ∧ fi' = clock_fifoIndex st) ∧
    Clock_step wss data i st =
      Some (MkClock (<[fi':=d]> (clock_set st)) sc' (clock_size st)
                    (advance wss fi') (clock_faults st + 1)).
Proof.
  intros Hwss Hrun Hd Hmiss Hfull.
  destruct (Clock_run_inv _ _ _ _ Hwss Hrun) as [Hf Hok].
  destruct (Clock_sweep_exact _ _ _ Hok) as (n & sc' & fi' & Hn & [Hlen' Hfi'] & Hbit & Hsweep & Himm).
  assert (Hnw : n ≤ wss).
  { pose proof (use_bits_le (clock_secondChance st)). destruct Hok. lia. }
  exists n, sc', fi'. split_and!; [done..|].
  unfold Clock_step. rewrite Hd; simpl. rewrite Hmiss; simpl.
  rewrite decide_False by (intros H; by apply H).
  rewrite Hsweep, decide_True by done.
  pose proof (fi_length _ _ _ _ _ Hf).
  by rewrite store_Some by lia.
Qed.

Lemma Clock_sweep_within_wss_witness :
  ∃ n sc' fi',
    n ≤ 3 ∧
    (∀ fuel, Clock_sweep fuel 3 [1; 1; 1]%Z 0 =
             if decide (n ≤ fuel) then SweepStopped sc' fi' else SweepOutOfFuel) ∧
    sc' !! fi' = Some 0%Z ∧
    ([1; 1; 1]%Z !! 0 = Some 0%Z → n = 0 ∧ sc' = [1; 1; 1]%Z ∧ fi' = 0) ∧
    Clock_step 3 trace_all_used 6 (MkClock [1; 2; 3]%Z [1; 1; 1]%Z 3 0 0) =
      Some (MkClock (<[fi':=4%Z]> [1; 2; 3]%Z) sc' 3 (advance 3 fi') (0 + 1)).
Proof.
  apply (Clock_sweep_within_wss 3 trace_all_used 6
           (MkClock [1; 2; 3]%Z [1; 1; 1]%Z 3 0 0) 4%Z);
    [lia | reflexivity..].
Defined.

(** ** The working-set-frame invariant *)

Lemma frame_inv_ok (wss : nat) (data : list Z) (k : nat) (set : list Z) (size : nat) :
  frame_inv wss data k set size → frame_ok wss set.
Proof.
  intros [Hlen Hsz Hfree Hnd _ _]. unfold frame_ok, occupied. split.
  - rewrite <-Hlen. apply length_filter.
  - rewrite <-(take_drop size set), filter_app.
    assert (Hnil : filter (λ p, p ≠ INT_MIN) (drop size set) = []).
    { destruct (filter _ (drop size set)) as [|x l] eqn:E; [done|].
      assert (Hx : x ∈ filter (λ p, p ≠ INT_MIN) (drop size set))
        by (rewrite E; left).
      apply list_elem_of_filter in Hx as [Hx (j & Hj)%list_elem_of_lookup].
      rewrite lookup_drop in Hj.
      pose proof (lookup_lt_Some _ _ _ Hj).
      rewrite Hfree in Hj by lia. congruence. }
    rewrite Hnil, app_nil_r. by apply NoDup_filter.
Qed.

(** C6: for every [wss >= 1] and every trace, after any number [k] of
    references each engine's frame has at most [wss] occupied (non-sentinel)
    slots and no page in two of them; moreover [size <= wss] and the [size]
    cells filled so far hold pairwise different pages.  FIFO and Clock reach
    every [k] up to the length of the trace, and so does LRU on a trace that
    does not reference the sentinel. *)
Theorem frame_invariant_preserved (wss : nat) (data : list Z) (k : nat) :
  1 ≤ wss →
  (∀ st, LRU_run wss data k = Some st →
     frame_ok wss (lru_set st) ∧ lru_size st ≤ wss ∧
     NoDup (take (lru_size st) (lru_set st))) ∧
  (∀ st, FIFO_run wss data k = Some st →
     frame_ok wss (fifo_set st) ∧ fifo_size st ≤ wss ∧
     NoDup (take (fifo_size st) (fifo_set st))) ∧
  (∀ st, Clock_run wss data k = Some st →
     frame_ok wss (clock_set st) ∧ clock_size st ≤ wss ∧
     NoDup (take (clock_size st) (clock_set st))) ∧
  (k ≤ length data →
     is_Some (FIFO_run wss data k) ∧ is_Some (Clock_run wss data k) ∧
     ((∀ j, j < k → data !! j ≠ Some INT_MIN) → is_Some (LRU_run wss data k))).
Proof.
  intros Hwss. split_and!.
  - intros st Hf%LRU_run_inv.
    split_and!; [by eapply frame_inv_ok | apply Hf | apply Hf].
  - intros st [Hf _]%FIFO_run_inv; [|done].
    split_and!; [by eapply frame_inv_ok | apply Hf | apply Hf].
  - intros st [Hf _]%Clock_run_inv; [|done].
    split_and!; [by eapply frame_inv_ok | apply Hf | apply Hf].
  - intros Hk. split_and!.
    + by apply FIFO_run_total.
    + by apply Clock_run_total.
    + intros Hreal. by apply LRU_run_total.
Qed.

Lemma frame_invariant_preserved_witness :
  frame_ok 3 [5; 3; 4]%Z ∧ is_Some (Clock_run 3 trace12 12).
Proof.
  destruct (frame_invariant_preserved 3 trace12 12) as (_ & Hfifo & _ & Htotal); [lia|].
  split.
  - apply (Hfifo (MkFIFO [5; 3; 4]%Z 3 0 6)). reflexivity.
  - apply Htotal. simpl; lia.
Defined.

(** ** References to the sentinel *)

Lemma getIndex_first (array : list Z) (size : nat) (value : Z) (i : nat) :
  i < size → array !! i = Some value →
  (∀ k, k < i → array !! k ≠ Some value) →
  getIndex array size value = Some i.
Proof.
  intros Hi Hv Hfirst.
  destruct (getIndex_is_Some array size value) as [c Hc].
  { apply elem_of_take. eauto. }
  rewrite Hc. f_equal.
  apply getIndex_Some in Hc as (_ & Hcv & Hcf).
  destruct (Nat.lt_trichotomy c i) as [?|[?|?]]; [|done|].
  - by destruct (Hfirst c).
  - by destruct (Hcf i).
Qed.

(** While the frame has room, the cell [size] is the first that holds the
    sentinel. *)
Lemma frame_first_free (wss : nat) (data : list Z) (k : nat) (set : list Z) (size : nat) :
  frame_inv wss data k set size → size < wss →
  set !! size = Some INT_MIN ∧ ∀ j, j < size → set !! j ≠ Some INT_MIN.
Proof.
  intros [Hlen Hsz Hfree _ Hreal _] Hroom. split; [by apply Hfree|].
  intros j Hj Hs. apply (Hreal Hroom), elem_of_take. eauto.
Qed.

(** C10: a reference to [INT_MIN] while the frame has an unoccupied slot is a
    hit in the three engines: the state of LRU and of FIFO is unchanged (no
    fault, no slot occupied), and Clock changes nothing but the use bit of
    the first unoccupied slot, the cell [size], which becomes 1. *)
Theorem sentinel_reference_is_a_hit (wss : nat) (data : list Z) (i : nat) :
  data !! i = Some INT_MIN →
  (∀ st, LRU_run wss data i = Some st → lru_size st < wss →
     LRU_step wss data i st = Some st) ∧
  (∀ st, FIFO_run wss data i = Some st → fifo_size st < wss →
     FIFO_step wss data i st = Some st) ∧
  (∀ st, Clock_run wss data i = Some st → clock_size st < wss →
     clock_set st !! clock_size st = Some INT_MIN ∧
     (∀ j, j < clock_size st → clock_set st !! j ≠ Some INT_MIN) ∧
     clock_size st < length (clock_secondChance st) ∧
     Clock_step wss data i st =
       Some (MkClock (clock_set st)
                     (<[clock_size st:=1%Z]> (clock_secondChance st))
                     (clock_size st) (clock_fifoIndex st) (clock_faults st))).
Proof.
  intros Hd. split_and!.
  - intros st Hf%LRU_run_inv Hroom.
    destruct (frame_first_free _ _ _ _ _ Hf Hroom) as [Hfree _].
    unfold LRU_step. rewrite Hd; simpl.
    replace (arrayContains (lru_set st) wss INT_MIN) with true; [done|].
    symmetry. apply (frame_contains _ _ _ _ _ _ Hf).
    by eapply list_elem_of_lookup_2.
  - intros st Hrun Hroom.
    apply FIFO_run_inv in Hrun as [Hf _]; [|lia].
    destruct (frame_first_free _ _ _ _ _ Hf Hroom) as [Hfree _].
    unfold FIFO_step. rewrite Hd; simpl.
    replace (arrayContains (fifo_set st) wss INT_MIN) with true; [done|].
    symmetry. apply (frame_contains _ _ _ _ _ _ Hf).
    by eapply list_elem_of_lookup_2.
  - intros st Hrun Hroom.
    apply Clock_run_inv in Hrun as [Hf [Hlen _]]; [|lia].
    destruct (frame_first_free _ _ _ _ _ Hf Hroom) as [Hfree Hfirst].
    split_and!; [done | done | lia |].
    unfold Clock_step. rewrite Hd; simpl.
    replace (arrayContains (clock_set st) wss INT_MIN) with true.
    + simpl. rewrite (getIndex_first _ _ _ (clock_size st)) by done. simpl.
      by rewrite store_Some by lia.
    + symmetry. apply (frame_contains _ _ _ _ _ _ Hf).
      by eapply list_elem_of_lookup_2.
Qed.

Lemma sentinel_reference_is_a_hit_witness :
  FIFO_step 3 [1; INT_MIN]%Z 1 (MkFIFO [1; INT_MIN; INT_MIN]%Z 1 0 0)
    = Some (MkFIFO [1; INT_MIN; INT_MIN]%Z 1 0 0) ∧
  Clock_step 3 [1; INT_MIN]%Z 1 (MkClock [1; INT_MIN; INT_MIN]%Z [0; 0; 0]%Z 1 0 0)
    = Some (MkClock [1; INT_MIN; INT_MIN]%Z [0; 1; 0]%Z 1 0 0).
Proof.
  destruct (sentinel_reference_is_a_hit 3 [1; INT_MIN]%Z 1) as (_ & Hfifo & Hclock);
    [reflexivity|].
  split.
  - apply Hfifo; [reflexivity | simpl; lia].
  - apply (Hclock (MkClock [1; INT_MIN; INT_MIN]%Z [0; 0; 0]%Z 1 0 0));
      [reflexivity | simpl; lia].
Defined.

(** ** Determinism *)

Lemma LRU_step_ext (wss : nat) (data data' : list Z) (i : nat) (st : LRU_state) :
  (∀ j, j < S i → data !! j = data' !! j) →
  LRU_step wss data i st = LRU_step wss data' i st.
Proof.
  intros Heq. unfold LRU_step. rewrite <-(Heq i) by lia.
  by rewrite (LRU_scan_ext _ _ data data' (S i)).
Qed.

Lemma LRU_run_ext (wss : nat) (data data' : list Z) (k : nat) :
  (∀ j, j < k → data !! j = data' !! j) →
  LRU_run wss data k = LRU_run wss data' k.
Proof.
  induction k as [|k IH]; intros Heq; simpl; [done|].
  rewrite IH by (intros; apply Heq; lia).
  destruct (LRU_run wss data' k); simpl; [|done]. by apply LRU_step_ext.
Qed.

Lemma FIFO_run_ext (wss : nat) (data data' : list Z) (k : nat) :
  (∀ j, j < k → data !! j = data' !! j) →
  FIFO_run wss data k = FIFO_run wss data' k.
Proof.
  induction k as [|k IH]; intros Heq; simpl; [done|].
  rewrite IH by (intros; apply Heq; lia).
  destruct (FIFO_run wss data' k); simpl; [|done].
  unfold FIFO_step. by rewrite <-(Heq k) by lia.
Qed.

Lemma Clock_run_ext (wss : nat) (data data' : list Z) (k : nat) :
  (∀ j, j < k → data !! j = data' !! j) →
  Clock_run wss data k = Clock_run wss data' k.
Proof.
  induction k as [|k IH]; intros Heq; simpl; [done|].
  rewrite IH by (intros; apply Heq; lia).
  destruct (Clock_run wss data' k); simpl; [|done].
  unfold Clock_step. by rewrite <-(Heq k) by lia.
Qed.

(** The loops that follow the declarations overwrite every cell. *)
Lemma length_declare (content : nat → Z) (wss : nat) :
  length (declare content wss) = wss.
Proof. unfold declare. by rewrite length_fmap, length_seq. Qed.

Lemma fill_cells (array : list Z) (i n : nat) (v : Z) :
  length array = i + n →
  fill array i n v = Some (take i array ++ replicate n v).
Proof.
  revert array i; induction n as [|n IH]; intros array i Hlen; simpl.
  - by rewrite app_nil_r, take_ge by lia.
  - rewrite store_Some by lia. simpl.
    rewrite IH by (rewrite length_insert; lia). f_equal.
    erewrite take_S_r by (apply list_lookup_insert_eq; lia).
    rewrite take_insert_ge by lia. by rewrite <-app_assoc.
Qed.

Lemma fill_declare (content : nat → Z) (wss : nat) (v : Z) :
  fill (declare content wss) 0 wss v = Some (replicate wss v).
Proof. rewrite fill_cells by (by rewrite length_declare). by rewrite take_0. Qed.

Lemma Clock_fill_cells (set secondChance : list Z) (i n : nat) :
  length set = i + n → length secondChance = i + n →
  Clock_fill set secondChance i n
    = Some (take i set ++ replicate n INT_MIN, take i secondChance ++ replicate n 0%Z).
Proof.
  revert set secondChance i; induction n as [|n IH]; intros set sc i Hl1 Hl2; simpl.
  - by rewrite !app_nil_r, !take_ge by lia.
  - rewrite !store_Some by lia. simpl.
    rewrite IH by (rewrite length_insert; lia). do 2 f_equal.
    + erewrite take_S_r by (apply list_lookup_insert_eq; lia).
      rewrite take_insert_ge by lia. by rewrite <-app_assoc.
    + erewrite take_S_r by (apply list_lookup_insert_eq; lia).
      rewrite take_insert_ge by lia. by rewrite <-app_assoc.
Qed.

Lemma LRU_run_on_eq (m : stack) (wss : nat) (data : list Z) (k : nat) :
  LRU_run_on m wss data k = LRU_run wss data k.
Proof.
  induction k as [|k IH]; simpl.
  - unfold LRU_init_on. by rewrite fill_declare.
  - rewrite IH. destruct (LRU_run wss data k) as [st|]; [|done]. simpl.
    unfold LRU_step_on, LRU_step. by rewrite fill_declare.
Qed.

Lemma FIFO_run_on_eq (m : stack) (wss : nat) (data : list Z) (k : nat) :
  FIFO_run_on m wss data k = FIFO_run wss data k.
Proof.
  induction k as [|k IH]; simpl; [|by rewrite IH].
  unfold FIFO_init_on. by rewrite fill_declare.
Qed.

Lemma Clock_run_on_eq (m : stack) (wss : nat) (data : list Z) (k : nat) :
  Clock_run_on m wss data k = Clock_run wss data k.
Proof.
  induction k as [|k IH]; simpl; [|by rewrite IH].
  unfold Clock_init_on. rewrite Clock_fill_cells by (by rewrite length_declare).
  by rewrite !take_0.
Qed.

(** C9: each engine is deterministic.  A run of one of the three C
    functions reads its two arguments, the cells of the trace, and the
    arrays it declares on the stack; the functions call nothing but
    [arrayContains] and [getIndex] and there is no global variable.  For
    every [wss >= 1] and every trace, every run of FIFO and every run of
    Clock returns one and the same fault count, whatever the stack holds
    where the arrays are declared and whatever lies behind the [TRACES]
    cells of the trace, and so does every run of LRU on a trace of page
    identifiers (none of them the sentinel).  That count is the one the
    engines of the other sections return, which start from initialised
    arrays. *)
Theorem policies_deterministic (TRACES wss : nat) (data : list Z) :
  1 ≤ wss → TRACES ≤ length data →
  (∃ faults, ∀ m data',
     take TRACES data' = take TRACES data →
     FIFO_on m TRACES wss data' = Some faults) ∧
  (∃ faults, ∀ m data',
     take TRACES data' = take TRACES data →
     Clock_on m TRACES wss data' = Some faults) ∧
  (INT_MIN ∉ take TRACES data →
   ∃ faults, ∀ m data',
     take TRACES data' = take TRACES data →
     LRU_on m TRACES wss data' = Some faults) ∧
  ∀ m, LRU_on m TRACES wss data = LRU TRACES wss data ∧
       FIFO_on m TRACES wss data = FIFO TRACES wss data ∧
       Clock_on m TRACES wss data = Clock TRACES wss data.
Proof.
  intros Hwss Hlen.
  assert (Heq : ∀ data', take TRACES data' = take TRACES data →
                ∀ j, j < TRACES → data' !! j = data !! j).
  { intros data' Htake j Hj.
    by rewrite <-(lookup_take_lt data' TRACES j), Htake, lookup_take_lt. }
  split_and!.
  - destruct (FIFO_run_total wss data TRACES) as [st Hrun]; [done..|].
    exists (fifo_faults st). intros m data' Htake. unfold FIFO_on.
    by rewrite FIFO_run_on_eq, (FIFO_run_ext _ _ _ _ (Heq _ Htake)), Hrun.
  - destruct (Clock_run_total wss data TRACES) as [st Hrun]; [done..|].
    exists (clock_faults st). intros m data' Htake. unfold Clock_on.
    by rewrite Clock_run_on_eq, (Clock_run_ext _ _ _ _ (Heq _ Htake)), Hrun.
  - intros Hreal.
    destruct (LRU_run_total wss data TRACES) as [st Hrun]; [done..| |].
    { intros j Hj Hs. apply Hreal, elem_of_take. eauto. }
    exists (lru_faults st). intros m data' Htake. unfold LRU_on.
    by rewrite LRU_run_on_eq, (LRU_run_ext _ _ _ _ (Heq _ Htake)), Hrun.
  - intros m. unfold LRU_on, FIFO_on, Clock_on, LRU, FIFO, Clock.
    by rewrite LRU_run_on_eq, FIFO_run_on_eq, Clock_run_on_eq.
Qed.

Lemma policies_deterministic_witness :
  LRU_on (MkStack (λ _, 5%Z) (λ _, 1%Z) (λ _ _, 3%Z)) 12 3 trace12
    = LRU_on (MkStack Z.of_nat (λ _, 0%Z) (λ _ _, 4%Z)) 12 3 (trace12 ++ [9]%Z) ∧
  Clock_on (MkStack (λ _, 5%Z) (λ _, 1%Z) (λ _ _, 3%Z)) 12 3 trace12
    = Clock_on (MkStack Z.of_nat (λ _, 0%Z) (λ _ _, 4%Z)) 12 3 (trace12 ++ [9]%Z).
Proof.
  destruct (policies_deterministic 12 3 trace12) as (_ & [c Hclock] & Hlru & _).
  - lia.
  - simpl; lia.
  - destruct Hlru as [l Hlru]; [compute_done|]. split.
    + rewrite (Hlru _ trace12), (Hlru _ (trace12 ++ [9]%Z)); reflexivity.
    + rewrite (Hclock _ trace12), (Hclock _ (trace12 ++ [9]%Z)); reflexivity.
Defined.

(** ** Bounded faults *)

Lemma LRU_run_faults (wss : nat) (data : list Z) (k : nat) (st : LRU_state) :
  LRU_run wss data k = Some st → (0 ≤ lru_faults st ≤ Z.of_nat k)%Z.
Proof.
  revert st; induction k as [|k IH]; simpl; intros st.
  - intros [= <-]; simpl; lia.
  - destruct (LRU_run wss data k) as [st0|]; simpl; [|done].
    specialize (IH st0 eq_refl). unfold LRU_step.
    destruct (data !! k) as [d|]; simpl; [|done].
    destruct (arrayContains _ _ _); simpl; [intros [= <-]; lia|].
    case_decide.
    + destruct (store _ _ _); simpl; [|done]. intros [= <-]; simpl; lia.
    + destruct (LRU_scan _ _ _ _ _ _); [|done..].
      destruct (getIndex _ _ _); simpl; [|done].
      destruct (store _ _ _); simpl; [|done]. intros [= <-]; simpl; lia.
Qed.

Lemma FIFO_run_faults (wss : nat) (data : list Z) (k : nat) (st : FIFO_state) :
  FIFO_run wss data k = Some st → (0 ≤ fifo_faults st ≤ Z.of_nat k)%Z.
Proof.
  revert st; induction k as [|k IH]; simpl; intros st.
  - intros [= <-]; simpl; lia.
  - destruct (FIFO_run wss data k) as [st0|]; simpl; [|done].
    specialize (IH st0 eq_refl). unfold FIFO_step.
    destruct (data !! k) as [d|]; simpl; [|done].
    destruct (arrayContains _ _ _); simpl; [intros [= <-]; lia|].
    case_decide; (destruct (store _ _ _); simpl; [|done]); intros [= <-]; simpl; lia.
Qed.

Lemma Clock_run_faults (wss : nat) (data : list Z) (k : nat) (st : Clock_state) :
  Clock_run wss data k = Some st → (0 ≤ clock_faults st ≤ Z.of_nat k)%Z.
Proof.
  revert st; induction k as [|k IH]; simpl; intros st.
  - intros [= <-]; simpl; lia.
  - destruct (Clock_run wss data k) as [st0|]; simpl; [|done].
    specialize (IH st0 eq_refl). unfold Clock_step.
    destruct (data !! k) as [d|]; simpl; [|done].
    destruct (arrayContains _ _ _); simpl.
    + destruct (getIndex _ _ _); simpl; [|done].
      destruct (store _ _ _); simpl; [|done]. intros [= <-]; simpl; lia.
    + case_decide.
      * destruct (store _ _ _); simpl; [|done]. intros [= <-]; simpl; lia.
      * destruct (Clock_sweep _ _ _ _); [|done..].
        destruct (store _ _ _); simpl; [|done]. intros [= <-]; simpl; lia.
Qed.

(** Every fault count is between 0 and the length of the trace. *)
Lemma faults_bounded (TRACES wss : nat) (data : list Z) (f : Z) :
  LRU TRACES wss data = Some f ∨ FIFO TRACES wss data = Some f ∨
  Clock TRACES wss data = Some f →
  (0 ≤ f ≤ Z.of_nat TRACES)%Z.
Proof.
  unfold LRU, FIFO, Clock. intros [H|[H|H]].
  - destruct (LRU_run _ _ _) as [st|] eqn:E; simpl in H; [|done].
    injection H as <-. by eapply LRU_run_faults.
  - destruct (FIFO_run _ _ _) as [st|] eqn:E; simpl in H; [|done].
    injection H as <-. by eapply FIFO_run_faults.
  - destruct (Clock_run _ _ _) as [st|] eqn:E; simpl in H; [|done].
    injection H as <-. by eapply Clock_run_faults.
Qed.

(** ** Averaging *)

Lemma accumulate_nonneg (policy : nat → list Z → option Z) (wss : nat)
    (gen : nat → list Z) (trials : nat) (sum : Z) :
  (∀ data f, policy wss data = Some f → (0 ≤ f)%Z) →
  accumulate policy wss gen trials = Some sum → (0 ≤ sum)%Z.
Proof.
  intros Hpol. revert sum; induction trials as [|n IH]; simpl; intros sum.
  - intros [= <-]. lia.
  - destruct (accumulate policy wss gen n) as [acc|]; simpl; [|done].
    destruct (policy wss (gen n)) as [f|] eqn:Hf; simpl; [|done].
    intros [= <-]. specialize (IH acc eq_refl). apply Hpol in Hf. lia.
Qed.

Lemma accumulate_bounded (TRACES : nat) (policy : nat → list Z → option Z)
    (wss : nat) (gen : nat → list Z) (trials : nat) (sum : Z) :
  (∀ data f, policy wss data = Some f → (0 ≤ f ≤ Z.of_nat TRACES)%Z) →
  accumulate policy wss gen trials = Some sum →
  (0 ≤ sum ≤ Z.of_nat TRACES * Z.of_nat trials)%Z.
Proof.
  intros Hpol. revert sum; induction trials as [|n IH]; simpl; intros sum.
  - intros [= <-]. lia.
  - destruct (accumulate policy wss gen n) as [acc|]; simpl; [|done].
    destruct (policy wss (gen n)) as [f|] eqn:Hf; simpl; [|done].
    intros [= <-]. specialize (IH acc eq_refl). apply Hpol in Hf. lia.
Qed.

(** Truncation and floor differ on a negative dividend, which no accumulator
    holds. *)
Lemma average_negative :
  average 1000 (-1) = Some 0%Z ∧ ((-1) `div` 1000 = -1)%Z.
Proof. split; reflexivity. Qed.

Lemma fault_sum_nonneg (TRACES : nat) (sum : Z) :
  fault_sum TRACES sum → (0 ≤ sum)%Z.
Proof.
  intros (wss & gen & n & [H|[H|H]]);
    (eapply accumulate_nonneg; [|exact H]);
    intros data f Hf; eapply (faults_bounded TRACES wss data f); eauto.
Qed.

Lemma average_nonneg (TRACES : nat) (sum : Z) :
  0 < TRACES → (0 ≤ sum)%Z →
  average TRACES sum = Some (sum `div` Z.of_nat TRACES)%Z.
Proof.
  intros HT Hs. unfold average. rewrite decide_False by lia.
  f_equal. apply Z.quot_div_nonneg; lia.
Qed.

(** C8: for every sum of fault counts that an accumulator can hold and every
    trial count [TRACES > 0], the average that [main] computes with C's
    truncating division is the floor of the quotient: it is [sum / TRACES]
    rounded down, the integer [q] with [q * TRACES <= sum < (q + 1) * TRACES]. *)
Theorem average_is_floor (TRACES : nat) (sum : Z) :
  0 < TRACES →
  fault_sum TRACES sum →
  ∃ q, average TRACES sum = Some q ∧
       q = (sum `div` Z.of_nat TRACES)%Z ∧
       (q * Z.of_nat TRACES ≤ sum < (q + 1) * Z.of_nat TRACES)%Z.
Proof.
  intros HT Hsum%fault_sum_nonneg.
  exists (sum `div` Z.of_nat TRACES)%Z. split_and!.
  - by apply average_nonneg.
  - done.
  - rewrite Z.mul_comm. apply Z.mul_div_le. lia.
  - rewrite Z.mul_comm. apply Z.mul_succ_div_gt. lia.
Qed.

Lemma average_is_floor_witness :
  ∃ q, average 12 21 = Some q ∧ q = (21 `div` 12)%Z ∧
       (q * 12 ≤ 21 < (q + 1) * 12)%Z.
Proof.
  apply (average_is_floor 12 21); [lia|].
  exists 3, (λ _, trace12), 3. left. reflexivity.
Defined.

Lemma main_cell_floor (TRACES : nat) (policy : nat → nat → list Z → option Z)
    (wss : nat) (gen : nat → list Z) (sum : Z) :
  0 < TRACES →
  (∀ data f, policy TRACES wss data = Some f → (0 ≤ f)%Z) →
  accumulate (policy TRACES) wss gen TRACES = Some sum →
  main_cell TRACES policy wss gen = Some (sum `div` Z.of_nat TRACES)%Z.
Proof.
  intros HT Hpol Hacc. unfold main_cell. rewrite Hacc; simpl.
  apply average_nonneg; [done|]. by eapply accumulate_nonneg.
Qed.

(** ** The sampler *)

Lemma uniform_range (RAND_MAX x : Z) :
  (0 < RAND_MAX)%Z → rand_value RAND_MAX x →
  (0 <= uniform RAND_MAX x <= 1)%R.
Proof.
  intros HM [Hx0 Hx1]. unfold uniform.
  apply IZR_lt in HM. apply IZR_le in Hx0, Hx1.
  split.
  - apply Rmult_le_pos; [lra|]. left. apply Rinv_0_lt_compat. lra.
  - apply (Rmult_le_reg_r (IZR RAND_MAX)); [lra|].
    unfold Rdiv. rewrite Rmult_assoc, Rinv_l by lra. lra.
Qed.

Lemma uniform_zero (RAND_MAX x : Z) :
  (0 < RAND_MAX)%Z → uniform RAND_MAX x = 0%R ↔ x = 0%Z.
Proof.
  intros HM. unfold uniform. apply IZR_lt in HM. split.
  - intros H. apply eq_IZR.
    apply (Rmult_eq_compat_r (IZR RAND_MAX)) in H.
    unfold Rdiv in H. rewrite Rmult_assoc, Rinv_l in H by lra. lra.
  - intros ->. unfold Rdiv. lra.
Qed.

Lemma uniform_pos (RAND_MAX x : Z) :
  (0 < RAND_MAX)%Z → rand_value RAND_MAX x → x ≠ 0%Z →
  (0 < uniform RAND_MAX x <= 1)%R.
Proof.
  intros HM Hx Hne. destruct (uniform_range _ _ HM Hx) as [[?|Heq] ?]; [lra|].
  symmetry in Heq. by apply uniform_zero in Heq.
Qed.

(** The loop skips the draws equal to 0 and keeps the first other one. *)
Lemma draw_r1_skip (RAND_MAX : Z) (n : nat) (x1 : Z) (rest : list Z) :
  (0 < RAND_MAX)%Z → x1 ≠ 0%Z →
  draw_r1 RAND_MAX (replicate n 0%Z ++ x1 :: rest) = Some (uniform RAND_MAX x1, rest).
Proof.
  intros HM Hne. induction n as [|n IH]; simpl.
  - destruct (Req_dec_T _ _) as [Heq|]; [|done]. by apply uniform_zero in Heq.
  - destruct (Req_dec_T _ _) as [|Hn]; [done|].
    destruct Hn. by apply uniform_zero.
Qed.

Lemma draw_r1_inv (RAND_MAX : Z) (rand : list Z) (r1 : R) (rest : list Z) :
  (0 < RAND_MAX)%Z →
  draw_r1 RAND_MAX rand = Some (r1, rest) →
  ∃ n x1, rand = replicate n 0%Z ++ x1 :: rest ∧ x1 ≠ 0%Z ∧ r1 = uniform RAND_MAX x1.
Proof.
  intros HM. induction rand as [|x rand IH]; simpl; [done|].
  destruct (Req_dec_T _ _) as [Heq|Hne].
  - apply uniform_zero in Heq as ->; [|done].
    intros (n & x1 & -> & ? & ?)%IH. by exists (S n), x1.
  - intros [= <- <-]. exists 0, x. split_and!; [done| |done].
    intros ->. apply Hne. by apply uniform_zero.
Qed.

Lemma trunc_toward_zero (x : R) :
  (0 <= x → IZR (trunc x) <= x < IZR (trunc x) + 1)%R ∧
  (x < 0 → IZR (trunc x) - 1 < x <= IZR (trunc x))%R.
Proof.
  unfold trunc. destruct (Rle_dec 0 x) as [Hx|Hx].
  - split; [|lra]. intros _. destruct (base_Int_part x). lra.
  - split; [lra|]. intros _. rewrite opp_IZR.
    destruct (base_Int_part (- x)). lra.
Qed.

Lemma draws_skip (RAND_MAX : Z) (n : nat) (x1 x2 : Z) (rest : list Z) :
  (0 < RAND_MAX)%Z → x1 ≠ 0%Z →
  draws RAND_MAX (replicate n 0%Z ++ x1 :: x2 :: rest)
    = Some (uniform RAND_MAX x1, uniform RAND_MAX x2, rest).
Proof. intros HM Hne. unfold draws. by rewrite draw_r1_skip. Qed.

Lemma draws_inv (RAND_MAX : Z) (rand : list Z) (r1 r2 : R) (rest : list Z) :
  (0 < RAND_MAX)%Z →
  draws RAND_MAX rand = Some (r1, r2, rest) →
  ∃ n x1 x2,
    rand = replicate n 0%Z ++ x1 :: x2 :: rest ∧ x1 ≠ 0%Z ∧
    r1 = uniform RAND_MAX x1 ∧ r2 = uniform RAND_MAX x2.
Proof.
  intros HM Hdraws. unfold draws in Hdraws.
  destruct (draw_r1 RAND_MAX rand) as [[r1' [|x2 rest']]|] eqn:E; [done| |done].
  injection Hdraws as -> <- ->.
  apply draw_r1_inv in E as (n & x1 & -> & ? & ->); [|done].
  by exists n, x1, x2.
Qed.

Lemma exp_INR_ge (n : nat) : (2 ^ n <= exp (INR n))%R.
Proof.
  induction n as [|n IH].
  - simpl. rewrite exp_0. lra.
  - rewrite S_INR, exp_plus. simpl.
    assert (2 < exp 1)%R by (pose proof (exp_ineq1 1); lra).
    assert (0 < 2 ^ n)%R by (apply pow_lt; lra).
    nra.
Qed.

Lemma ln_uniform_bounds (RAND_MAX x : Z) :
  (0 < RAND_MAX ≤ 2147483647)%Z → rand_value RAND_MAX x → x ≠ 0%Z →
  (-31 <= ln (uniform RAND_MAX x) <= 0)%R.
Proof.
  intros [HM0 HM1] Hx Hne.
  destruct (uniform_pos RAND_MAX x HM0 Hx Hne) as [Hpos Hle1].
  assert (Hlow : (/ 2147483648 < uniform RAND_MAX x)%R).
  { unfold uniform. destruct Hx as [Hx0 _].
    assert (1 <= IZR x)%R by (apply IZR_le; lia).
    assert (0 < IZR RAND_MAX)%R by (apply IZR_lt; lia).
    assert (IZR RAND_MAX <= 2147483647)%R by (apply IZR_le; lia).
    assert (/ 2147483647 <= / IZR RAND_MAX)%R by (apply Rinv_le_contravar; lra).
    assert (0 < / IZR RAND_MAX)%R by (apply Rinv_0_lt_compat; lra).
    assert (/ 2147483648 < / 2147483647)%R by (apply Rinv_lt_contravar; lra).
    unfold Rdiv. nra. }
  split.
  - destruct (Rle_lt_dec (-31) (ln (uniform RAND_MAX x))) as [|Hlt]; [done|].
    apply exp_increasing in Hlt. change (-31)%R with (Ropp 31) in Hlt.
    rewrite exp_ln, exp_Ropp in Hlt by done.
    pose proof (exp_INR_ge 31) as Hexp.
    replace (INR 31) with 31%R in Hexp by (simpl; lra).
    replace (2 ^ 31)%R with 2147483648%R in Hexp by (simpl; lra).
    assert (/ exp 31 <= / 2147483648)%R by (apply Rinv_le_contravar; lra).
    lra.
  - destruct (Rle_lt_dec (ln (uniform RAND_MAX x)) 0) as [|Hlt]; [done|].
    apply exp_increasing in Hlt. rewrite exp_ln, exp_0 in Hlt by done. lra.
Qed.

Lemma box_muller_bound (r1 r2 : R) (mean sd : Z) :
  (-31 <= ln r1 <= 0)%R →
  (IZR mean - 8 * Rabs (IZR sd) <= box_muller r1 r2 mean sd
     <= IZR mean + 8 * Rabs (IZR sd))%R.
Proof.
  intros [Hl0 Hl1]. unfold box_muller.
  assert (Hs : (0 <= sqrt (-2 * ln r1) <= 8)%R).
  { split; [apply sqrt_pos|].
    replace 8%R with (sqrt (8 * 8)) by (apply sqrt_square; lra).
    apply sqrt_le_1_alt. lra. }
  pose proof (COS_bound (2 * PI * r2)) as Hc.
  assert (Hp : (-8 <= sqrt (-2 * ln r1) * cos (2 * PI * r2) <= 8)%R) by nra.
  set (m := (sqrt (-2 * ln r1) * cos (2 * PI * r2))%R) in *.
  unfold Rabs. destruct (Rcase_abs (IZR sd)); nra.
Qed.

(** The cast of a real between two integers lies between them. *)
Lemma trunc_between (a b : Z) (x : R) :
  (IZR a <= x <= IZR b)%R → (a ≤ trunc x ≤ b)%Z.
Proof.
  intros [Ha Hb]. destruct (trunc_toward_zero x) as [Hpos Hneg].
  destruct (Rle_lt_dec 0 x) as [H0|H0].
  - destruct (Hpos H0) as [H1 H2]. split.
    + assert (IZR a < IZR (trunc x + 1))%R by (rewrite plus_IZR; lra).
      apply lt_IZR in H. lia.
    + apply le_IZR. lra.
  - destruct (Hneg H0) as [H1 H2]. split.
    + apply le_IZR. lra.
    + assert (IZR (trunc x - 1) < IZR b)%R by (rewrite minus_IZR; lra).
      apply lt_IZR in H. lia.
Qed.

Lemma normal_range (RAND_MAX mean sd : Z) (rand : list Z) (v : Z)
    (rest : list Z) :
  (0 < RAND_MAX ≤ 2147483647)%Z →
  Forall (rand_value RAND_MAX) rand →
  normal RAND_MAX mean sd rand = Some (v, rest) →
  (mean - 8 * Z.abs sd ≤ v ≤ mean + 8 * Z.abs sd)%Z ∧
  ∃ n, rand = take n rand ++ rest ∧ 2 ≤ n.
Proof.
  intros HM Hrand Hnormal. unfold normal in Hnormal.
  destruct (draws RAND_MAX rand) as [[[r1 r2] rest']|] eqn:Hdraws; [|done].
  injection Hnormal as <- ->.
  destruct (draws_inv _ _ _ _ _ (proj1 HM) Hdraws) as (n & x1 & x2 & -> & Hne & -> & ->).
  apply Forall_app in Hrand as [_ Hrand].
  apply Forall_cons in Hrand as [Hx1 _].
  split.
  - apply trunc_between.
    rewrite minus_IZR, plus_IZR, mult_IZR, abs_IZR.
    apply box_muller_bound. by apply ln_uniform_bounds.
  - exists (n + 2). split; [|lia].
    rewrite take_app_ge by (rewrite length_replicate; lia).
    rewrite length_replicate.
    replace (n + 2 - n) with 2 by lia. simpl.
    by rewrite <-app_assoc.
Qed.




(** * Further properties of the code *)

(** ** The two array helpers *)

(** X1: [arrayContains(array, size, value)] returns 1 exactly when [value]
    is in one of the cells [0 .. size-1] of the array. *)
Theorem arrayContains_iff (array : list Z) (size : nat) (value : Z) :
  arrayContains array size value = true ↔
  ∃ i, i < size ∧ array !! i = Some value.
Proof.
  rewrite arrayContains_take, elem_of_take. split; intros (i & ? & ?); eauto.
Qed.

(** X2: [getIndex(array, size, value)] returns [i] exactly when [i] is the
    first of the cells [0 .. size-1] that holds [value]. *)
Theorem getIndex_iff (array : list Z) (size : nat) (value : Z) (i : nat) :
  getIndex array size value = Some i ↔
  i < size ∧ array !! i = Some value ∧ ∀ k, k < i → array !! k ≠ Some value.
Proof.
  split; [apply getIndex_Some|]. intros (? & ? & ?). by apply getIndex_first.
Qed.

(** X3: the two helpers agree: [getIndex] returns -1 exactly when
    [arrayContains] returns 0, and the cell it returns otherwise holds the
    value. *)
Theorem getIndex_arrayContains (array : list Z) (size : nat) (value : Z) :
  (getIndex array size value = None ↔ arrayContains array size value = false) ∧
  (∀ i, getIndex array size value = Some i →
        arrayContains array size value = true ∧ array !! i = Some value).
Proof.
  split.
  - destruct (arrayContains array size value) eqn:Hc.
    + apply arrayContains_take, getIndex_is_Some in Hc as [i ->]. by split.
    + split; [done|]. intros _.
      destruct (getIndex array size value) as [i|] eqn:Hg; [|done].
      apply getIndex_Some in Hg as (? & ? & _).
      assert (arrayContains array size value = true)
        by (apply arrayContains_take, elem_of_take; eauto).
      congruence.
  - intros i (? & ? & _)%getIndex_Some. split; [|done].
    apply arrayContains_take, elem_of_take; eauto.
Qed.

(** ** What one reference does to an engine *)

Lemma LRU_step_cases (wss : nat) (data : list Z) (k : nat) (st st' : LRU_state) (d : Z) :
  LRU_inv wss data k st → data !! k = Some d →
  LRU_step wss data k st = Some st' →
  (d ∈ lru_set st ∧ st' = st) ∨
  ((d ∉ lru_set st) ∧ lru_size st < wss ∧
   st' = MkLRU (<[lru_size st:=d]> (lru_set st)) (S (lru_size st)) (lru_faults st)) ∨
  ((d ∉ lru_set st) ∧ lru_size st = wss ∧
   ∃ c, c < wss ∧
        st' = MkLRU (<[c:=d]> (lru_set st)) (lru_size st) (lru_faults st + 1)).
Proof.
  intros Hf Hd. unfold LRU_step. rewrite Hd; simpl.
  destruct (arrayContains _ _ _) eqn:Hc; simpl.
  - intros [= <-]. left. split; [|done]. by apply (frame_contains _ _ _ _ _ _ Hf).
  - apply (frame_not_contains _ _ _ _ _ _ Hf) in Hc.
    pose proof (fi_size _ _ _ _ _ Hf). case_decide as Hsz.
    + destruct (store _ _ _) as [set'|] eqn:Hst; simpl; [|done].
      intros [= <-]. apply store_inv in Hst as [_ ->]. right; left. split_and!; [done|lia|done].
    + destruct (LRU_scan _ _ _ _ _ _) as [lru j| |]; [|done..].
      destruct (getIndex _ _ _) as [c|] eqn:Hg; simpl; [|done].
      destruct (store _ _ _) as [set'|] eqn:Hst; simpl; [|done].
      intros [= <-]. apply store_inv in Hst as [_ ->].
      apply getIndex_Some in Hg as (? & _ & _).
      right; right. split_and!; [done|by destruct (decide (lru_size st = wss))|eauto].
Qed.

Lemma FIFO_step_cases (wss : nat) (data : list Z) (k : nat) (st st' : FIFO_state) (d : Z) :
  FIFO_inv wss data k st → data !! k = Some d →
  FIFO_step wss data k st = Some st' →
  (d ∈ fifo_set st ∧ st' = st) ∨
  ((d ∉ fifo_set st) ∧ fifo_size st < wss ∧
   st' = MkFIFO (<[fifo_size st:=d]> (fifo_set st)) (S (fifo_size st))
                (fifo_fifoIndex st) (fifo_faults st)) ∨
  ((d ∉ fifo_set st) ∧ fifo_size st = wss ∧
   st' = MkFIFO (<[fifo_fifoIndex st:=d]> (fifo_set st)) (fifo_size st)
                (advance wss (fifo_fifoIndex st)) (fifo_faults st + 1)).
Proof.
  intros [Hf Hi] Hd. unfold FIFO_step. rewrite Hd; simpl.
  destruct (arrayContains _ _ _) eqn:Hc; simpl.
  - intros [= <-]. left. split; [|done]. by apply (frame_contains _ _ _ _ _ _ Hf).
  - apply (frame_not_contains _ _ _ _ _ _ Hf) in Hc.
    pose proof (fi_size _ _ _ _ _ Hf). case_decide as Hsz.
    + destruct (store _ _ _) as [set'|] eqn:Hst; simpl; [|done].
      intros [= <-]. apply store_inv in Hst as [_ ->]. right; left. split_and!; [done|lia|done].
    + destruct (store _ _ _) as [set'|] eqn:Hst; simpl; [|done].
      intros [= <-]. apply store_inv in Hst as [_ ->].
      right; right. split_and!; [done|by destruct (decide (fifo_size st = wss))|done].
Qed.

Lemma Clock_step_cases (wss : nat) (data : list Z) (k : nat) (st st' : Clock_state) (d : Z) :
  Clock_inv wss data k st → data !! k = Some d →
  Clock_step wss data k st = Some st' →
  (d ∈ clock_set st ∧
   ∃ c, getIndex (clock_set st) wss d = Some c ∧
        st' = MkClock (clock_set st) (<[c:=1%Z]> (clock_secondChance st))
                      (clock_size st) (clock_fifoIndex st) (clock_faults st)) ∨
  ((d ∉ clock_set st) ∧ clock_size st < wss ∧
   st' = MkClock (<[clock_size st:=d]> (clock_set st)) (clock_secondChance st)
                 (S (clock_size st)) (clock_fifoIndex st) (clock_faults st)) ∨
  ((d ∉ clock_set st) ∧ clock_size st = wss ∧
   ∃ sc' fi,
     Clock_sweep wss wss (clock_secondChance st) (clock_fifoIndex st)
       = SweepStopped sc' fi ∧ fi < wss ∧
     st' = MkClock (<[fi:=d]> (clock_set st)) sc' (clock_size st)
                   (advance wss fi) (clock_faults st + 1)).
Proof.
  intros [Hf Hok] Hd. unfold Clock_step. rewrite Hd; simpl.
  destruct (arrayContains _ _ _) eqn:Hc; simpl.
  - destruct (getIndex _ _ _) as [c|] eqn:Hg; simpl; [|done].
    destruct (store _ _ _) as [sc'|] eqn:Hst; simpl; [|done].
    intros [= <-]. apply store_inv in Hst as [_ ->].
    left. split; [by apply (frame_contains _ _ _ _ _ _ Hf)|eauto].
  - apply (frame_not_contains _ _ _ _ _ _ Hf) in Hc.
    pose proof (fi_size _ _ _ _ _ Hf). case_decide as Hsz.
    + destruct (store _ _ _) as [set'|] eqn:Hst; simpl; [|done].
      intros [= <-]. apply store_inv in Hst as [_ ->]. right; left. split_and!; [done|lia|done].
    + destruct (Clock_sweep_wss _ _ _ Hok) as (sc' & fi & Hsw & [_ Hfi] & _).
      rewrite Hsw.
      destruct (store _ _ _) as [set'|] eqn:Hst; simpl; [|done].
      intros [= <-]. apply store_inv in Hst as [_ ->].
      right; right. split_and!; [done|by destruct (decide (clock_size st = wss))|].
      by exists sc', fi.
Qed.

(** ** The common core of the three engines *)

Lemma LRU_run_reach (wss : nat) (data : list Z) (k : nat) (st : LRU_state) :
  LRU_run wss data k = Some st →
  core_reach wss data k (lru_set st) (lru_size st) (lru_faults st).
Proof.
  revert st; induction k as [|k IH]; simpl; intros st.
  - intros [= <-]. constructor.
  - destruct (LRU_run wss data k) as [st0|] eqn:Hrun; simpl; [|done]. intros Hstep.
    pose proof (LRU_run_inv _ _ _ _ Hrun) as Hinv.
    destruct (LRU_step_inv _ _ _ _ _ Hinv Hstep) as (_ & d & Hd & _).
    eapply reach_step; [by apply IH | done |].
    destruct (LRU_step_cases _ _ _ _ _ _ Hinv Hd Hstep)
      as [[? ->]|[(? & ? & ->)|(? & ? & c & ? & ->)]]; simpl; by constructor.
Qed.

Lemma FIFO_run_reach (wss : nat) (data : list Z) (k : nat) (st : FIFO_state) :
  1 ≤ wss →
  FIFO_run wss data k = Some st →
  core_reach wss data k (fifo_set st) (fifo_size st) (fifo_faults st).
Proof.
  intros Hwss. revert st; induction k as [|k IH]; simpl; intros st.
  - intros [= <-]. constructor.
  - destruct (FIFO_run wss data k) as [st0|] eqn:Hrun; simpl; [|done]. intros Hstep.
    pose proof (FIFO_run_inv _ _ _ _ Hwss Hrun) as Hinv.
    destruct (FIFO_step_inv _ _ _ _ _ Hinv Hstep) as (_ & d & Hd & _).
    eapply reach_step; [by apply IH | done |].
    destruct (FIFO_step_cases _ _ _ _ _ _ Hinv Hd Hstep)
      as [[? ->]|[(? & ? & ->)|(? & ? & ->)]]; simpl; constructor; try done.
    by destruct Hinv.
Qed.

Lemma Clock_run_reach (wss : nat) (data : list Z) (k : nat) (st : Clock_state) :
  1 ≤ wss →
  Clock_run wss data k = Some st →
  core_reach wss data k (clock_set st) (clock_size st) (clock_faults st).
Proof.
  intros Hwss. revert st; induction k as [|k IH]; simpl; intros st.
  - intros [= <-]. constructor.
  - destruct (Clock_run wss data k) as [st0|] eqn:Hrun; simpl; [|done]. intros Hstep.
    pose proof (Clock_run_inv _ _ _ _ Hwss Hrun) as Hinv.
    destruct (Clock_step_inv _ _ _ _ _ Hinv Hstep) as (_ & d & Hd & _).
    eapply reach_step; [by apply IH | done |].
    destruct (Clock_step_cases _ _ _ _ _ _ Hinv Hd Hstep)
      as [[? (c & ? & ->)]|[(? & ? & ->)|(? & ? & sc' & fi & ? & ? & ->)]];
      simpl; by constructor.
Qed.

Lemma core_reach_inv (wss : nat) (data : list Z) (k : nat) (set : list Z)
    (size : nat) (faults : Z) :
  core_reach wss data k set size faults → frame_inv wss data k set size.
Proof.
  induction 1 as [|k d set size f set' size' f' _ IH Hd Hstep];
    [apply frame_inv_init|].
  eapply frame_inv_step; [done..|].
  pose proof (fi_length _ _ _ _ _ IH).
  destruct Hstep; constructor; try done; lia.
Qed.

(** Every fault comes after [wss] fills, and every fill and every fault uses
    up a reference. *)
Lemma core_reach_account (wss : nat) (data : list Z) (k : nat) (set : list Z)
    (size : nat) (faults : Z) :
  core_reach wss data k set size faults →
  (0 ≤ faults)%Z ∧ (faults + Z.of_nat size ≤ Z.of_nat k)%Z ∧
  ((0 < faults)%Z → size = wss).
Proof.
  induction 1 as [|k d set size f set' size' f' _ IH Hd Hstep]; [lia|].
  destruct Hstep; lia.
Qed.

(** The page just referenced is in the frame. *)
Lemma core_reach_resident (wss : nat) (data : list Z) (k : nat) (set : list Z)
    (size : nat) (faults : Z) (d : Z) :
  core_reach wss data (S k) set size faults → data !! k = Some d → d ∈ set.
Proof.
  inversion 1 as [|k' d' set0 size0 f0 ? ? ? Hreach Hd' Hstep]; subst.
  intros Hd. assert (d' = d) as -> by congruence.
  pose proof (fi_length _ _ _ _ _ (core_reach_inv _ _ _ _ _ _ Hreach)).
  destruct Hstep; [done|apply list_elem_of_insert; lia..].
Qed.

(** Up to its first fault an engine's frame does not depend on the engine. *)
Lemma core_reach_fill_phase (wss : nat) (data : list Z) (k : nat)
    (set1 set2 : list Z) (size1 size2 : nat) (faults1 faults2 : Z) :
  core_reach wss data k set1 size1 faults1 →
  core_reach wss data k set2 size2 faults2 →
  faults1 = 0%Z →
  set2 = set1 ∧ size2 = size1 ∧ faults2 = 0%Z.
Proof.
  intros H1. revert set2 size2 faults2.
  induction H1 as [|k d set size f set' size' f' H1 IH Hd Hstep];
    intros set2 size2 faults2 H2 Hz.
  - by inversion H2.
  - inversion H2 as [|k' d' set0 size0 f0 ? ? ? H2' Hd' Hstep']; subst.
    assert (d' = d) as -> by congruence.
    pose proof (core_reach_account _ _ _ _ _ _ H1) as (? & _ & _).
    assert (f = 0%Z) as -> by (destruct Hstep; lia).
    destruct (IH _ _ _ H2' eq_refl) as (-> & -> & ->).
    inversion Hstep; subst; inversion Hstep'; subst; try done; lia.
Qed.

Lemma fault_count_le (TRACES wss : nat) (data : list Z) (f : Z) :
  1 ≤ wss →
  LRU TRACES wss data = Some f ∨ FIFO TRACES wss data = Some f ∨
  Clock TRACES wss data = Some f →
  (0 ≤ f ≤ Z.of_nat (TRACES - wss))%Z.
Proof.
  intros Hwss Hf.
  assert (Hreach : ∃ set size, core_reach wss data TRACES set size f).
  { unfold LRU, FIFO, Clock in Hf. destruct Hf as [H|[H|H]].
    - destruct (LRU_run _ _ _) as [st|] eqn:E; simpl in H; [|done].
      injection H as <-. eauto using LRU_run_reach.
    - destruct (FIFO_run _ _ _) as [st|] eqn:E; simpl in H; [|done].
      injection H as <-. eauto using FIFO_run_reach.
    - destruct (Clock_run _ _ _) as [st|] eqn:E; simpl in H; [|done].
      injection H as <-. eauto using Clock_run_reach. }
  destruct Hreach as (set & size & Hreach).
  destruct (core_reach_account _ _ _ _ _ _ Hreach) as (? & ? & Hfull).
  destruct (decide (f = 0%Z)) as [->|]; [lia|].
  rewrite Hfull in * by lia. lia.
Qed.

(** X4: with [wss >= 1], a fault count that an engine returns is at most
    [TRACES - wss] (0 when [wss >= TRACES]): the [wss] references that fill
    the frame are never counted. *)
Theorem faults_after_fills (TRACES wss : nat) (data : list Z) (f : Z) :
  1 ≤ wss →
  LRU TRACES wss data = Some f ∨ FIFO TRACES wss data = Some f ∨
  Clock TRACES wss data = Some f →
  (0 ≤ f ≤ Z.of_nat (TRACES - wss))%Z.
Proof. apply fault_count_le. Qed.

Lemma faults_after_fills_witness : (0 ≤ 7 ≤ Z.of_nat (12 - 3))%Z.
Proof.
  apply (faults_after_fills 12 3 trace12 7); [lia | left; reflexivity].
Defined.

(** X5: a reference that repeats the one before it is a hit in the three
    engines: LRU and FIFO keep their state, Clock keeps its frame, its fill
    count, its hand and its fault count. *)
Theorem repeated_reference_hits (wss : nat) (data : list Z) (i : nat) :
  1 ≤ wss →
  data !! S i = data !! i →
  (∀ st, LRU_run wss data (S i) = Some st → LRU_run wss data (S (S i)) = Some st) ∧
  (∀ st, FIFO_run wss data (S i) = Some st → FIFO_run wss data (S (S i)) = Some st) ∧
  (∀ st, Clock_run wss data (S i) = Some st →
     ∃ st', Clock_run wss data (S (S i)) = Some st' ∧
            clock_set st' = clock_set st ∧ clock_size st' = clock_size st ∧
            clock_fifoIndex st' = clock_fifoIndex st ∧
            clock_faults st' = clock_faults st).
Proof.
  intros Hwss Hrep. split_and!; intros st Hrun.
  - assert (∃ d, data !! i = Some d) as [d Hd].
    { simpl in Hrun. destruct (LRU_run wss data i); simpl in Hrun; [|done].
      unfold LRU_step in Hrun. destruct (data !! i); eauto. done. }
    pose proof (core_reach_resident _ _ _ _ _ _ _ (LRU_run_reach _ _ _ _ Hrun) Hd) as Hin.
    apply (frame_contains _ _ _ _ _ _ (LRU_run_inv _ _ _ _ Hrun)) in Hin.
    change (LRU_run wss data (S (S i))) with
      (LRU_run wss data (S i) ≫= LRU_step wss data (S i)).
    rewrite Hrun; simpl. unfold LRU_step. rewrite Hrep, Hd; simpl. by rewrite Hin.
  - assert (∃ d, data !! i = Some d) as [d Hd].
    { simpl in Hrun. destruct (FIFO_run wss data i); simpl in Hrun; [|done].
      unfold FIFO_step in Hrun. destruct (data !! i); eauto. done. }
    pose proof (core_reach_resident _ _ _ _ _ _ _ (FIFO_run_reach _ _ _ _ Hwss Hrun) Hd) as Hin.
    destruct (FIFO_run_inv _ _ _ _ Hwss Hrun) as [Hf _].
    apply (frame_contains _ _ _ _ _ _ Hf) in Hin.
    change (FIFO_run wss data (S (S i))) with
      (FIFO_run wss data (S i) ≫= FIFO_step wss data (S i)).
    rewrite Hrun; simpl. unfold FIFO_step. rewrite Hrep, Hd; simpl. by rewrite Hin.
  - assert (∃ d, data !! i = Some d) as [d Hd].
    { simpl in Hrun. destruct (Clock_run wss data i); simpl in Hrun; [|done].
      unfold Clock_step in Hrun. destruct (data !! i); eauto. done. }
    pose proof (core_reach_resident _ _ _ _ _ _ _ (Clock_run_reach _ _ _ _ Hwss Hrun) Hd) as Hin.
    pose proof (Clock_run_inv _ _ _ _ Hwss Hrun) as Hinv.
    assert (Hd' : data !! S i = Some d) by congruence.
    destruct (Clock_step_total wss data (S i) st Hinv) as [st' Hstep].
    { by apply lookup_lt_Some in Hd'. }
    exists st'. split.
    + change (Clock_run wss data (S (S i))) with
        (Clock_run wss data (S i) ≫= Clock_step wss data (S i)).
      by rewrite Hrun.
    + destruct (Clock_step_cases _ _ _ _ _ _ Hinv Hd' Hstep)
        as [[_ (c & _ & ->)]|[(? & _)|(? & _)]]; done.
Qed.

Lemma repeated_reference_hits_witness :
  FIFO_run 2 [7; 7]%Z 2 = Some (MkFIFO [7; INT_MIN]%Z 1 0 0).
Proof.
  destruct (repeated_reference_hits 2 [7; 7]%Z 0) as (_ & Hfifo & _);
    [lia | reflexivity |].
  apply Hfifo. reflexivity.
Defined.

(** X6: up to its first fault an engine's frame does not depend on the
    engine: after the same number of references of the same trace, LRU, FIFO
    and Clock have either all counted a fault or none has, and in the
    latter case they hold the same frame and the same fill count. *)
Theorem first_fault_together (wss : nat) (data : list Z) (k : nat)
    (s1 : LRU_state) (s2 : FIFO_state) (s3 : Clock_state) :
  1 ≤ wss →
  LRU_run wss data k = Some s1 →
  FIFO_run wss data k = Some s2 →
  Clock_run wss data k = Some s3 →
  (lru_faults s1 = 0%Z ↔ fifo_faults s2 = 0%Z) ∧
  (lru_faults s1 = 0%Z ↔ clock_faults s3 = 0%Z) ∧
  (lru_faults s1 = 0%Z →
   fifo_set s2 = lru_set s1 ∧ clock_set s3 = lru_set s1 ∧
   fifo_size s2 = lru_size s1 ∧ clock_size s3 = lru_size s1).
Proof.
  intros Hwss H1%LRU_run_reach H2 H3.
  apply FIFO_run_reach in H2; [|done]. apply Clock_run_reach in H3; [|done].
  split_and!.
  - split; intros Hz.
    + by destruct (core_reach_fill_phase _ _ _ _ _ _ _ _ _ H1 H2 Hz) as (_ & _ & ?).
    + by destruct (core_reach_fill_phase _ _ _ _ _ _ _ _ _ H2 H1 Hz) as (_ & _ & ?).
  - split; intros Hz.
    + by destruct (core_reach_fill_phase _ _ _ _ _ _ _ _ _ H1 H3 Hz) as (_ & _ & ?).
    + by destruct (core_reach_fill_phase _ _ _ _ _ _ _ _ _ H3 H1 Hz) as (_ & _ & ?).
  - intros Hz.
    destruct (core_reach_fill_phase _ _ _ _ _ _ _ _ _ H1 H2 Hz) as (? & ? & _).
    destruct (core_reach_fill_phase _ _ _ _ _ _ _ _ _ H1 H3 Hz) as (? & ? & _).
    done.
Qed.

Lemma first_fault_together_witness :
  fifo_set (MkFIFO [1; 2; 3]%Z 3 0 0) = lru_set (MkLRU [1; 2; 3]%Z 3 0) ∧
  clock_set (MkClock [1; 2; 3]%Z [0; 0; 0]%Z 3 0 0) = lru_set (MkLRU [1; 2; 3]%Z 3 0).
Proof.
  destruct (first_fault_together 3 trace12 3 (MkLRU [1; 2; 3]%Z 3 0)
              (MkFIFO [1; 2; 3]%Z 3 0 0) (MkClock [1; 2; 3]%Z [0; 0; 0]%Z 3 0 0))
    as (_ & _ & Hsame); [lia | reflexivity..|].
  destruct Hsame as (? & ? & _); [reflexivity|]. by split.
Defined.

(** X7: the cursor of FIFO is the fault count modulo [wss]: FIFO overwrites
    the cells [0, 1, ..., wss-1, 0, ...] in turn, one per fault. *)
Theorem FIFO_cursor_counts_faults (wss : nat) (data : list Z) (k : nat) (st : FIFO_state) :
  1 ≤ wss →
  FIFO_run wss data k = Some st →
  Z.of_nat (fifo_fifoIndex st) = (fifo_faults st `mod` Z.of_nat wss)%Z.
Proof.
  intros Hwss. revert st; induction k as [|k IH]; simpl; intros st.
  - intros [= <-]; simpl. by rewrite Z.mod_0_l by lia.
  - destruct (FIFO_run wss data k) as [st0|] eqn:Hrun; simpl; [|done]. intros Hstep.
    specialize (IH st0 eq_refl).
    pose proof (FIFO_run_inv _ _ _ _ Hwss Hrun) as Hinv.
    destruct (FIFO_step_inv _ _ _ _ _ Hinv Hstep) as (_ & d & Hd & _).
    destruct (FIFO_step_cases _ _ _ _ _ _ Hinv Hd Hstep)
      as [[? ->]|[(? & ? & ->)|(? & ? & ->)]]; simpl; [done..|].
    destruct Hinv as [_ Hi].
    rewrite <-Zplus_mod_idemp_l, <-IH. unfold advance. case_decide as Hw.
    + rewrite <-Hw. replace (Z.of_nat (fifo_fifoIndex st0) + 1)%Z
        with (Z.of_nat (S (fifo_fifoIndex st0))) by lia.
      by rewrite Z_mod_same_full.
    + rewrite Z.mod_small by lia. lia.
Qed.

Lemma FIFO_cursor_counts_faults_witness :
  Z.of_nat (fifo_fifoIndex (MkFIFO [5; 1; 2]%Z 3 1 4)) = (4 `mod` 3)%Z.
Proof.
  apply (FIFO_cursor_counts_faults 3 trace12 7 (MkFIFO [5; 1; 2]%Z 3 1 4));
    [lia | reflexivity].
Defined.

(** ** Traces of pairwise different pages *)

Lemma frame_elem (wss : nat) (data : list Z) (k : nat) (set : list Z) (size : nat) (p : Z) :
  frame_inv wss data k set size → p ∈ set →
  p = INT_MIN ∨ ∃ j, j < k ∧ data !! j = Some p.
Proof.
  intros [Hlen Hsz Hfree _ _ Hseen] (j & Hj)%list_elem_of_lookup.
  pose proof (lookup_lt_Some _ _ _ Hj).
  destruct (decide (j < size)).
  - right. apply Hseen, elem_of_take. eauto.
  - left. rewrite Hfree in Hj by lia. congruence.
Qed.

Lemma core_reach_distinct (wss : nat) (data : list Z) (n k : nat) (set : list Z)
    (size : nat) (faults : Z) :
  NoDup (take n data) → INT_MIN ∉ take n data → k ≤ n →
  core_reach wss data k set size faults →
  size = k `min` wss ∧ faults = Z.of_nat (k - wss).
Proof.
  intros Hnd Hsent Hk Hreach. revert Hk.
  induction Hreach as [|k d set size f set' size' f' Hreach IH Hd Hstep]; intros Hk.
  - split; [lia|done].
  - destruct IH as [-> ->]; [lia|].
    assert (Hmiss : d ∉ set).
    { intros Hin.
      destruct (frame_elem _ _ _ _ _ _ (core_reach_inv _ _ _ _ _ _ Hreach) Hin)
        as [->|(j & Hj & Hdj)].
      - apply Hsent, elem_of_take. exists k. split; [done|lia].
      - assert (j = k); [|lia].
        eapply (NoDup_lookup (take n data)); [done| |];
          by rewrite lookup_take_lt by lia. }
    inversion Hstep; subst; [done|split; lia..].
Qed.

(** X8: on a trace whose [TRACES] pages are pairwise different, none of them
    the sentinel, every reference misses, and each of the three engines
    returns exactly [TRACES - wss] faults (0 when [wss >= TRACES]). *)
Theorem distinct_pages_all_miss (TRACES wss : nat) (data : list Z) :
  1 ≤ wss → TRACES ≤ length data →
  NoDup (take TRACES data) → INT_MIN ∉ take TRACES data →
  LRU TRACES wss data = Some (Z.of_nat (TRACES - wss)) ∧
  FIFO TRACES wss data = Some (Z.of_nat (TRACES - wss)) ∧
  Clock TRACES wss data = Some (Z.of_nat (TRACES - wss)).
Proof.
  intros Hwss Hlen Hnd Hsent. unfold LRU, FIFO, Clock. split_and!.
  - destruct (LRU_run_total wss data TRACES) as [st Hrun]; [done..| |].
    { intros j Hj Hs. apply Hsent, elem_of_take. eauto. }
    rewrite Hrun; simpl. f_equal.
    by destruct (core_reach_distinct wss data TRACES TRACES _ _ _ Hnd Hsent
                   (le_n _) (LRU_run_reach _ _ _ _ Hrun)).
  - destruct (FIFO_run_total wss data TRACES) as [st Hrun]; [done..|].
    rewrite Hrun; simpl. f_equal.
    by destruct (core_reach_distinct wss data TRACES TRACES _ _ _ Hnd Hsent
                   (le_n _) (FIFO_run_reach _ _ _ _ Hwss Hrun)).
  - destruct (Clock_run_total wss data TRACES) as [st Hrun]; [done..|].
    rewrite Hrun; simpl. f_equal.
    by destruct (core_reach_distinct wss data TRACES TRACES _ _ _ Hnd Hsent
                   (le_n _) (Clock_run_reach _ _ _ _ Hwss Hrun)).
Qed.

Lemma distinct_pages_all_miss_witness :
  LRU 5 2 [1; 2; 3; 4; 5]%Z = Some 3%Z ∧ FIFO 5 2 [1; 2; 3; 4; 5]%Z = Some 3%Z ∧
  Clock 5 2 [1; 2; 3; 4; 5]%Z = Some 3%Z.
Proof.
  apply (distinct_pages_all_miss 5 2 [1; 2; 3; 4; 5]%Z); [lia | simpl; lia | |].
  - compute_done.
  - compute_done.
Defined.

(** ** A frame of no slot *)

(** X9: with [wss = 0] every run over at least one reference is undefined in
    the three engines: the first reference misses on a frame that counts as
    full, and the engine reads [lru] unassigned (LRU) or accesses cell 0 of an
    array of no cell (FIFO, Clock). *)
Theorem no_slot_no_run (TRACES : nat) (data : list Z) :
  1 ≤ TRACES →
  LRU TRACES 0 data = None ∧ FIFO TRACES 0 data = None ∧ Clock TRACES 0 data = None.
Proof.
  intros HT. destruct TRACES as [|n]; [lia|]. clear HT.
  unfold LRU, FIFO, Clock. split_and!.
  - replace (LRU_run 0 data (S n)) with (@None LRU_state); [done|].
    induction n as [|n IH]; [|simpl in *; by rewrite <-IH].
    simpl. unfold LRU_step. destruct (data !! 0) as [d|] eqn:E; simpl; [|done].
    cbv beta iota fix delta [LRU_scan]. by rewrite E.
  - replace (FIFO_run 0 data (S n)) with (@None FIFO_state); [done|].
    induction n as [|n IH]; [|simpl in *; by rewrite <-IH].
    simpl. unfold FIFO_step. by destruct (data !! 0).
  - replace (Clock_run 0 data (S n)) with (@None Clock_state); [done|].
    induction n as [|n IH]; [|simpl in *; by rewrite <-IH].
    simpl. unfold Clock_step. by destruct (data !! 0).
Qed.

Lemma no_slot_no_run_witness :
  LRU 12 0 trace12 = None ∧ FIFO 12 0 trace12 = None ∧ Clock 12 0 trace12 = None.
Proof. apply (no_slot_no_run 12 trace12). lia. Defined.

(** ** The use bits of Clock *)

Lemma advance_mod (wss fifoIndex : nat) :
  fifoIndex < wss → advance wss fifoIndex = (fifoIndex + 1) `mod` wss.
Proof.
  intros Hlt. unfold advance. case_decide as Hw.
  - replace (fifoIndex + 1) with wss by lia. by rewrite Nat.Div0.mod_same.
  - rewrite Nat.mod_small; lia.
Qed.

Lemma Clock_sweep_effect (fuel wss : nat) (secondChance : list Z)
    (fifoIndex : nat) (sc' : list Z) (fi' : nat) :
  fifo_ok wss secondChance fifoIndex →
  Clock_sweep fuel wss secondChance fifoIndex = SweepStopped sc' fi' →
  ∃ n,
    n ≤ wss ∧ n ≤ fuel ∧
    fi' = (fifoIndex + n) `mod` wss ∧
    sc' !! fi' = Some 0%Z ∧
    (∀ t, t < n →
       sc' !! ((fifoIndex + t) `mod` wss) = Some 0%Z ∧
       secondChance !! ((fifoIndex + t) `mod` wss) ≠ Some 0%Z) ∧
    (∀ j, (∀ t, t < n → j ≠ (fifoIndex + t) `mod` wss) →
       sc' !! j = secondChance !! j).
Proof.
  intros Hok Hsweep.
  cut (∃ n, n ≤ use_bits secondChance ∧ n ≤ fuel ∧
        fi' = (fifoIndex + n) `mod` wss ∧ sc' !! fi' = Some 0%Z ∧
        (∀ t, t < n →
           sc' !! ((fifoIndex + t) `mod` wss) = Some 0%Z ∧
           secondChance !! ((fifoIndex + t) `mod` wss) ≠ Some 0%Z) ∧
        (∀ j, (∀ t, t < n → j ≠ (fifoIndex + t) `mod` wss) →
           sc' !! j = secondChance !! j)).
  { intros (n & Hn & ?). exists n. split; [|done].
    pose proof (use_bits_le secondChance). destruct Hok. lia. }
  revert secondChance fifoIndex Hok Hsweep.
  induction fuel as [|fuel IH]; intros sc fi [Hlen Hfi];
    rewrite Clock_sweep_unfold;
    (destruct (lookup_lt_is_Some_2 sc fi) as [b Hb]; [lia|]); rewrite Hb;
    (destruct (decide (b = 0%Z)) as [->|Hne];
      [rewrite decide_False by (intros H; by apply H)|rewrite decide_True by done]).
  - intros [= <- <-]. exists 0.
    rewrite Nat.add_0_r, Nat.mod_small by lia.
    split_and!; [lia | lia | done | done | intros; lia | done].
  - done.
  - intros [= <- <-]. exists 0.
    rewrite Nat.add_0_r, Nat.mod_small by lia.
    split_and!; [lia | lia | done | done | intros; lia | done].
  - rewrite store_Some by lia. intros Hsweep.
    destruct (IH (<[fi:=0%Z]> sc) (advance wss fi)) as (n & Hn & Hf & Hfi' & Hbit & Hpassed & Hframe).
    { split; [by rewrite length_insert | by apply advance_lt]. }
    { done. }
    assert (Hpos : ∀ t, (advance wss fi + t) `mod` wss = (fi + S t) `mod` wss).
    { intros t. rewrite advance_mod, Nat.Div0.add_mod_idemp_l by done. f_equal. lia. }
    assert (Hfresh : ∀ t, t < n → fi ≠ (fi + S t) `mod` wss).
    { intros t Ht Heq. destruct (Hpassed t Ht) as [_ Hset].
      apply Hset. rewrite Hpos, <-Heq. by apply list_lookup_insert_eq; lia. }
    assert (Hfi0 : sc' !! fi = Some 0%Z).
    { rewrite Hframe.
      - apply list_lookup_insert_eq. lia.
      - intros t Ht. rewrite Hpos. by apply Hfresh. }
    pose proof (use_bits_clear sc fi b Hb Hne).
    exists (S n). split_and!; [lia | lia | | done | |].
    + by rewrite Hfi', Hpos.
    + intros [|t] Ht.
      * rewrite Nat.add_0_r, Nat.mod_small by lia. split; [done|congruence].
      * destruct (Hpassed t) as [Hz Hset]; [lia|]. rewrite Hpos in Hz, Hset.
        split; [done|].
        rewrite list_lookup_insert_ne in Hset; [done|]. apply Hfresh. lia.
    + intros j Hj. rewrite Hframe.
      * apply list_lookup_insert_ne. specialize (Hj 0).
        rewrite Nat.add_0_r, Nat.mod_small in Hj by lia. intros ->. apply Hj; [lia|done].
      * intros t Ht. rewrite Hpos. apply Hj. lia.
Qed.

(** X10: a sweep that stops has passed [n <= wss] slots, the [n] slots that
    follow the hand's position cyclically; every one of them had its use bit
    set and has it cleared, no other bit has changed, and the hand rests [n]
    slots further (modulo [wss]) on a slot whose bit is 0. *)
Theorem Clock_sweep_clears_passed (fuel wss : nat) (secondChance : list Z)
    (fifoIndex : nat) (sc' : list Z) (fi' : nat) :
  fifo_ok wss secondChance fifoIndex →
  Clock_sweep fuel wss secondChance fifoIndex = SweepStopped sc' fi' →
  ∃ n,
    n ≤ wss ∧ n ≤ fuel ∧
    fi' = (fifoIndex + n) `mod` wss ∧
    sc' !! fi' = Some 0%Z ∧
    (∀ t, t < n →
       sc' !! ((fifoIndex + t) `mod` wss) = Some 0%Z ∧
       secondChance !! ((fifoIndex + t) `mod` wss) ≠ Some 0%Z) ∧
    (∀ j, (∀ t, t < n → j ≠ (fifoIndex + t) `mod` wss) →
       sc' !! j = secondChance !! j).
Proof. apply Clock_sweep_effect. Qed.

Lemma Clock_sweep_clears_passed_witness :
  ∃ n,
    n ≤ 4 ∧ n ≤ 4 ∧ 1 = (3 + n) `mod` 4 ∧ [0; 0; 0; 0]%Z !! 1 = Some 0%Z ∧
    (∀ t, t < n →
       [0; 0; 0; 0]%Z !! ((3 + t) `mod` 4) = Some 0%Z ∧
       [1; 0; 0; 1]%Z !! ((3 + t) `mod` 4) ≠ Some 0%Z) ∧
    (∀ j, (∀ t, t < n → j ≠ (3 + t) `mod` 4) →
       [0; 0; 0; 0]%Z !! j = [1; 0; 0; 1]%Z !! j).
Proof.
  apply (Clock_sweep_clears_passed 4 4 [1; 0; 0; 1]%Z 3 [0; 0; 0; 0]%Z 1);
    [split; simpl; lia | reflexivity].
Defined.

Lemma Clock_sweep_Forall (P : Z → Prop) (fuel wss : nat) (secondChance : list Z)
    (fifoIndex : nat) (sc' : list Z) (fi' : nat) :
  P 0%Z → Forall P secondChance →
  Clock_sweep fuel wss secondChance fifoIndex = SweepStopped sc' fi' →
  Forall P sc'.
Proof.
  intros HP0. revert secondChance fifoIndex.
  induction fuel as [|fuel IH]; intros sc fi HP; rewrite Clock_sweep_unfold;
    (destruct (sc !! fi) as [b|]; [|done]); case_decide; try done;
    try (by intros [= <- <-]).
  destruct (store sc fi 0) as [sc1|] eqn:Hst; [|done].
  apply store_inv in Hst as [_ ->]. apply IH. by apply Forall_insert.
Qed.

(** X11: in every state a run of Clock reaches, there is one use bit per
    slot, every use bit is 0 or 1, and the hand points at a slot. *)
Theorem Clock_use_bits_binary (wss : nat) (data : list Z) (k : nat) (st : Clock_state) :
  1 ≤ wss →
  Clock_run wss data k = Some st →
  length (clock_secondChance st) = wss ∧
  Forall (λ b, b = 0%Z ∨ b = 1%Z) (clock_secondChance st) ∧
  clock_fifoIndex st < wss.
Proof.
  intros Hwss Hrun.
  destruct (Clock_run_inv _ _ _ _ Hwss Hrun) as [_ [Hlen Hfi]].
  split_and!; [done| |done]. clear Hlen Hfi.
  revert st Hrun; induction k as [|k IH]; simpl; intros st.
  - intros [= <-]; simpl. apply Forall_replicate. by left.
  - destruct (Clock_run wss data k) as [st0|] eqn:Hrun; simpl; [|done]. intros Hstep.
    specialize (IH st0 eq_refl).
    pose proof (Clock_run_inv _ _ _ _ Hwss Hrun) as Hinv.
    destruct (Clock_step_inv _ _ _ _ _ Hinv Hstep) as (_ & d & Hd & _).
    destruct (Clock_step_cases _ _ _ _ _ _ Hinv Hd Hstep)
      as [[_ (c & _ & ->)]|[(_ & _ & ->)|(_ & _ & sc' & fi & Hsw & _ & ->)]]; simpl.
    + apply Forall_insert; [done | by right].
    + done.
    + eapply Clock_sweep_Forall; [|done..]. by left.
Qed.

Lemma Clock_use_bits_binary_witness :
  length [1; 1; 1]%Z = 3 ∧ Forall (λ b, b = 0%Z ∨ b = 1%Z) [1; 1; 1]%Z ∧ 0 < 3.
Proof.
  apply (Clock_use_bits_binary 3 trace_all_used 6 (MkClock [1; 2; 3]%Z [1; 1; 1]%Z 3 0 0));
    [lia | reflexivity].
Defined.

Lemma mod_offset_inj (w a t n : nat) :
  t ≤ n → n < t + w → (a + t) `mod` w = (a + n) `mod` w → t = n.
Proof.
  intros Htn Hn Heq. destruct (decide (w = 0)) as [->|Hw]; [lia|].
  pose proof (Nat.div_mod_eq (a + t) w) as H1.
  pose proof (Nat.div_mod_eq (a + n) w) as H2.
  pose proof (Nat.mod_upper_bound (a + t) w Hw).
  rewrite Heq in H1.
  assert ((a + t) `div` w ≤ (a + n) `div` w) by (apply Nat.Div0.div_le_mono; lia).
  assert ((a + n) `div` w = (a + t) `div` w) by nia.
  nia.
Qed.

(** X18: the second chance.  The slot on which a sweep stops, the one Clock
    evicts, had its use bit at 0 before the sweep, unless every use bit was
    set: then the sweep clears them all and comes back to the slot it started
    from. *)
Theorem Clock_second_chance (fuel wss : nat) (secondChance : list Z)
    (fifoIndex : nat) (sc' : list Z) (fi' : nat) :
  fifo_ok wss secondChance fifoIndex →
  Clock_sweep fuel wss secondChance fifoIndex = SweepStopped sc' fi' →
  secondChance !! fi' = Some 0%Z ∨
  (Forall (λ b, b ≠ 0%Z) secondChance ∧ fi' = fifoIndex ∧
   sc' = replicate wss 0%Z).
Proof.
  intros Hok Hsweep. pose proof Hok as [Hlen Hfi].
  destruct (Clock_sweep_effect _ _ _ _ _ _ Hok Hsweep)
    as (n & Hn & _ & -> & Hbit & Hpassed & Hframe).
  destruct (decide (n = wss)) as [->|Hlt].
  - right.
    assert (Hcover : ∀ j, j < wss → ∃ t, t < wss ∧ j = (fifoIndex + t) `mod` wss).
    { intros j Hj. exists ((j + wss - fifoIndex) `mod` wss).
      split; [apply Nat.mod_upper_bound; lia|].
      rewrite Nat.Div0.add_mod_idemp_r.
      replace (fifoIndex + (j + wss - fifoIndex)) with (j + 1 * wss) by lia.
      rewrite Nat.Div0.mod_add, Nat.mod_small; lia. }
    split_and!.
    + apply Forall_lookup. intros j b Hj ->.
      destruct (Hcover j) as (t & Ht & ->); [by apply lookup_lt_Some in Hj; lia|].
      by destruct (Hpassed t Ht) as [_ ?].
    + replace (fifoIndex + wss) with (fifoIndex + 1 * wss) by lia.
      rewrite Nat.Div0.mod_add, Nat.mod_small; lia.
    + assert (Hlen' : length sc' = wss).
      { destruct (decide (wss ≤ length sc')) as [Hge|Hsmall].
        - destruct (decide (length sc' ≤ wss)) as [|Hbig]; [lia|].
          exfalso. destruct (lookup_lt_is_Some_2 sc' wss) as [b Hb]; [lia|].
          rewrite Hframe in Hb.
          + apply lookup_lt_Some in Hb. lia.
          + intros t Ht. pose proof (Nat.mod_upper_bound (fifoIndex + t) wss). lia.
        - exfalso. destruct (Hcover (length sc')) as (t & Ht & Heq); [lia|].
          destruct (Hpassed t Ht) as [Hz _]. rewrite <-Heq in Hz.
          apply lookup_lt_Some in Hz. lia. }
      apply list_eq. intros j. destruct (decide (j < wss)) as [Hj|Hj].
      * destruct (Hcover j Hj) as (t & Ht & ->).
        destruct (Hpassed t Ht) as [-> _].
        symmetry. apply lookup_replicate_2, Nat.mod_upper_bound. lia.
      * rewrite !lookup_ge_None_2; [done|rewrite length_replicate; lia|lia].
  - left. rewrite <-Hframe; [done|].
    intros t Ht Heq. symmetry in Heq.
    apply mod_offset_inj in Heq; lia.
Qed.

Lemma Clock_second_chance_witness :
  [1; 1; 1]%Z !! 0 = Some 0%Z ∨
  (Forall (λ b, b ≠ 0%Z) [1; 1; 1]%Z ∧ 0 = 0 ∧ [0; 0; 0]%Z = replicate 3 0%Z).
Proof.
  apply (Clock_second_chance 3 3 [1; 1; 1]%Z 0 [0; 0; 0]%Z 0);
    [split; simpl; lia | reflexivity].
Defined.

(** ** LRU keeps the most recently used pages *)

Lemma filter_ne_id (d : Z) (l : list Z) :
  d ∉ l → filter (λ p, p ≠ d) l = l.
Proof.
  induction l as [|a l IH]; [done|]. intros [? ?]%not_elem_of_cons.
  rewrite filter_cons_True by done. f_equal. by apply IH.
Qed.

Lemma filter_all (P : Z → Prop) `{!∀ x, Decision (P x)} (l : list Z) :
  (∀ x, x ∈ l → P x) → filter P l = l.
Proof.
  induction l as [|a l IH]; [done|]. intros HP.
  rewrite filter_cons_True by (apply HP; left). f_equal.
  apply IH. intros x Hx. apply HP. by right.
Qed.

Lemma filter_none (P : Z → Prop) `{!∀ x, Decision (P x)} (l : list Z) :
  (∀ x, x ∈ l → ¬ P x) → filter P l = [].
Proof.
  induction l as [|a l IH]; [done|]. intros HP.
  rewrite filter_cons_False by (apply HP; left).
  apply IH. intros x Hx. apply HP. by right.
Qed.

Lemma take_filter_ne (d : Z) (n : nat) (r : list Z) :
  d ∉ take n r → take n (filter (λ p, p ≠ d) r) = take n r.
Proof.
  revert n; induction r as [|a r IH]; intros [|n]; simpl; try done.
  intros [? ?]%not_elem_of_cons.
  rewrite filter_cons_True by done. simpl. f_equal. by apply IH.
Qed.

(** Moving one of the first [n] elements to the front keeps the first [n]
    elements, up to their order. *)
Lemma take_move_front (d : Z) (n : nat) (r : list Z) :
  NoDup r → d ∈ take n r →
  take n (d :: filter (λ p, p ≠ d) r) ≡ₚ take n r.
Proof.
  revert n; induction r as [|a r IH]; intros [|n]; simpl;
    try by intros _ ?%elem_of_nil.
  intros [Ha Hnd]%NoDup_cons Hd.
  destruct (decide (a = d)) as [->|Hne].
  - rewrite filter_cons_False by (intros H; by apply H).
    by rewrite filter_ne_id.
  - apply elem_of_cons in Hd as [->|Hd]; [done|].
    rewrite filter_cons_True by done.
    destruct n as [|n]; [by apply elem_of_nil in Hd|].
    specialize (IH (S n) Hnd Hd). simpl in *.
    by rewrite Permutation_swap, IH.
Qed.

Lemma insert_delete_Permutation (l : list Z) (i : nat) (x d : Z) :
  l !! i = Some x → <[i:=d]> l ≡ₚ d :: delete i l.
Proof.
  intros Hi. rewrite insert_take_drop by (by eapply lookup_lt_Some).
  by rewrite delete_take_drop, <-Permutation_middle.
Qed.

Lemma recent_S (data : list Z) (k : nat) (d : Z) :
  data !! k = Some d →
  recent data (S k) = d :: filter (λ p, p ≠ d) (recent data k).
Proof. intros Hd. simpl. by rewrite Hd. Qed.

Lemma recent_elem (data : list Z) (k : nat) (p : Z) :
  p ∈ recent data k ↔ ∃ j, j < k ∧ data !! j = Some p.
Proof.
  induction k as [|k IH]; simpl.
  - split; [by intros ?%elem_of_nil | intros (? & ? & _); lia].
  - destruct (data !! k) as [d|] eqn:Hd.
    + rewrite elem_of_cons, list_elem_of_filter, IH. split.
      * intros [->|[_ (j & ? & ?)]]; [exists k|exists j]; split; done || lia.
      * intros (j & Hj & Hp). destruct (decide (p = d)) as [|Hne]; [by left|].
        right. split; [done|]. exists j. split; [|done].
        destruct (decide (j = k)) as [->|]; [congruence|lia].
    + rewrite IH. split; intros (j & Hj & Hp); exists j; split; try done; [lia|].
      destruct (decide (j = k)) as [->|]; [congruence|lia].
Qed.

Lemma recent_NoDup (data : list Z) (k : nat) : NoDup (recent data k).
Proof.
  induction k as [|k IH]; simpl; [constructor|].
  destruct (data !! k) as [d|]; [|done].
  apply NoDup_cons. split; [|by apply NoDup_filter].
  by intros [? _]%list_elem_of_filter.
Qed.

Lemma LRU_scan_S (set : list Z) (wss : nat) (data : list Z) (j : nat)
    (ru : list Z) (c : nat) :
  LRU_scan set wss data (S j) ru c =
  match data !! j with
  | None => ScanUndefined
  | Some d =>
    if arrayContains set wss d then
      if negb (arrayContains ru wss d) then
        match store ru c d with
        | None => ScanUndefined
        | Some ru' =>
          if decide (S c = wss) then ScanBreak d j
          else LRU_scan set wss data j ru' (S c)
        end
      else
        if decide (c = wss) then ScanBreak d j
        else LRU_scan set wss data j ru c
    else LRU_scan set wss data j ru c
  end.
Proof. reflexivity. Qed.

(** The page on which the scan breaks is the one at position [wss - 1 - c]
    among the resident pages not yet recorded, taken most recent first. *)
Lemma LRU_scan_recent (set : list Z) (wss : nat) (data : list Z) :
  length set = wss → INT_MIN ∉ set →
  ∀ (k : nat) (rec : list Z) (lru : Z) (j : nat),
    length rec < wss →
    LRU_scan set wss data k (recency wss rec) (length rec) = ScanBreak lru j →
    filter (λ p, p ∈ set ∧ p ∉ rec) (recent data k) !! (wss - S (length rec))
      = Some lru.
Proof.
  intros Hlen Hsent. induction k as [|k IH]; intros rec lru j Hc; [done|].
  rewrite LRU_scan_S. destruct (data !! k) as [d|] eqn:Hd; [|done].
  rewrite (recent_S _ _ _ Hd).
  assert (Hskip : (d ∉ set ∨ d ∈ rec) →
    filter (λ p, p ∈ set ∧ p ∉ rec) (d :: filter (λ p, p ≠ d) (recent data k))
    = filter (λ p, p ∈ set ∧ p ∉ rec) (recent data k)).
  { intros Hor. rewrite filter_cons_False by (intros [? ?]; by destruct Hor).
    apply list_filter_filter_l. intros x [? ?] ->. by destruct Hor. }
  destruct (arrayContains set wss d) eqn:Hin.
  - rewrite <-Hlen, arrayContains_elem in Hin.
    assert (Hdne : d ≠ INT_MIN) by (by intros ->).
    destruct (arrayContains (recency wss rec) wss d) eqn:Hru; simpl.
    + apply recency_contains in Hru; [|lia|done].
      rewrite decide_False by lia. intros Hscan.
      rewrite Hskip by auto. by eapply IH.
    + assert (Hnr : d ∉ rec).
      { intros Hr. apply (recency_contains wss) in Hr; [congruence | lia | done]. }
      rewrite recency_store by done.
      rewrite filter_cons_True by done.
      case_decide as Hfull.
      * intros [= <- <-]. by replace (wss - S (length rec)) with 0 by lia.
      * intros Hscan.
        replace (S (length rec)) with (length (rec ++ [d])) in Hscan
          by (rewrite length_app; simpl; lia).
        apply IH in Hscan; [|rewrite length_app; simpl; lia].
        rewrite length_app in Hscan; simpl in Hscan.
        replace (wss - S (length rec)) with (S (wss - S (length rec + 1))) by lia.
        simpl. rewrite list_filter_filter. rewrite <-Hscan. f_equal.
        apply list_filter_iff. intros x.
        rewrite not_elem_of_app, not_elem_of_cons. split.
        -- intros [[? ?] ?]. split_and!; [done..|apply not_elem_of_nil].
        -- intros [? [? [? _]]]. done.
  - rewrite <-Hlen, arrayContains_not_elem in Hin. intros Hscan.
    rewrite Hskip by auto. by eapply IH.
Qed.

Lemma frame_filled_elem (wss : nat) (data : list Z) (k : nat) (set : list Z)
    (size : nat) (p : Z) :
  frame_inv wss data k set size → p ∈ set → p ≠ INT_MIN → p ∈ take size set.
Proof.
  intros [Hlen Hsz Hfree _ _ _] (j & Hj)%list_elem_of_lookup Hne.
  pose proof (lookup_lt_Some _ _ _ Hj).
  destruct (decide (j < size)); [apply elem_of_take; eauto|].
  rewrite Hfree in Hj by lia. congruence.
Qed.

(** X12: on a trace that does not reference the sentinel, the filled cells of
    LRU's frame hold, after any number [k] of references, exactly the [wss]
    most recently referenced different pages (all the pages referenced so
    far while they are fewer than [wss]). *)
Theorem LRU_keeps_most_recent (wss : nat) (data : list Z) (k : nat) (st : LRU_state) :
  1 ≤ wss →
  (∀ j, j < k → data !! j ≠ Some INT_MIN) →
  LRU_run wss data k = Some st →
  take (lru_size st) (lru_set st) ≡ₚ take wss (recent data k) ∧
  lru_size st = wss `min` length (recent data k).
Proof.
  intros Hwss Hreal Hrun.
  cut (take (lru_size st) (lru_set st) ≡ₚ take wss (recent data k)).
  { intros Hperm. split; [done|].
    apply Permutation_length in Hperm. rewrite !length_take in Hperm.
    destruct (LRU_run_inv _ _ _ _ Hrun) as [Hlen Hsz _ _ _ _]. lia. }
  revert st Hreal Hrun. induction k as [|k IH]; intros st Hreal Hrun.
  - injection Hrun as <-. simpl. by rewrite take_0, take_nil.
  - simpl in Hrun. destruct (LRU_run wss data k) as [st0|] eqn:Hrun0; simpl in Hrun; [|done].
    assert (IHk : take (lru_size st0) (lru_set st0) ≡ₚ take wss (recent data k)).
    { apply IH; [|done]. intros j Hj. apply Hreal. lia. }
    clear IH. pose proof (LRU_run_inv _ _ _ _ Hrun0) as Hinv.
    destruct (LRU_step_inv _ _ _ _ _ Hinv Hrun) as (_ & d & Hd & _).
    rewrite (recent_S _ _ _ Hd).
    assert (Hdne : d ≠ INT_MIN) by (intros ->; apply (Hreal k); [lia|done]).
    pose proof (recent_NoDup data k) as Hndr.
    pose proof (fi_length _ _ _ _ _ Hinv) as Hlen.
    pose proof (fi_size _ _ _ _ _ Hinv) as Hsz.
    destruct (LRU_step_cases _ _ _ _ _ _ Hinv Hd Hrun)
      as [[Hin ->]|[(Hmiss & Hroom & ->)|(Hmiss & Hfull & _)]]; simpl.
    + rewrite IHk. symmetry. apply take_move_front; [done|].
      rewrite <-IHk. by eapply frame_filled_elem.
    + assert (Hlr : length (recent data k) = lru_size st0).
      { pose proof (Permutation_length IHk) as Hl.
        rewrite !length_take in Hl. lia. }
      rewrite (take_ge (recent data k)) in IHk by lia.
      assert (Hnr : d ∉ recent data k).
      { rewrite <-IHk. intros (j & Hj & _)%elem_of_take.
        apply Hmiss. eapply list_elem_of_lookup_2, Hj. }
      rewrite filter_ne_id by done.
      rewrite (take_ge (d :: _)) by (simpl; lia).
      erewrite take_S_r by (apply list_lookup_insert_eq; lia).
      rewrite take_insert_ge by lia.
      rewrite IHk. symmetry. apply Permutation_cons_append.
    + pose proof Hinv as Hinv0.
      unfold LRU_inv in Hinv. rewrite Hfull in Hinv, IHk.
      assert (Hsent : INT_MIN ∉ lru_set st0).
      { intros Hs. destruct (frame_full_seen _ _ _ _ _ Hinv Hs) as (j & ? & ?).
        apply (Hreal j); [lia|done]. }
      destruct (LRU_step_evict wss data k st0 d) as
        (lru & j & c & Hscan & _ & _ & _ & _ & Hc & Hstep); [done..|].
      rewrite Hstep in Hrun. injection Hrun as <-. simpl. rewrite Hfull.
      rewrite <-Hlen, firstn_all in IHk.
      (* the victim is the last of the [wss] most recent pages *)
      pose proof (LRU_scan_recent _ _ data Hlen Hsent (S k) [] lru j) as Hrec.
      unfold recency in Hrec; simpl in Hrec. rewrite Nat.sub_0_r in Hrec.
      specialize (Hrec ltac:(lia) Hscan).
      rewrite Hd in Hrec.
      rewrite filter_cons_False in Hrec by (by intros [? _]).
      rewrite list_filter_filter_l in Hrec by (intros x [? _] ->; done).
      rewrite <-(take_drop (length (lru_set st0)) (recent data k)), filter_app in Hrec.
      rewrite (filter_all _ (take _ _)) in Hrec.
      2:{ intros x Hx. split; [by rewrite IHk|apply not_elem_of_nil]. }
      rewrite (filter_none _ (drop _ _)), app_nil_r in Hrec.
      2:{ intros x Hx [Hxs _]. rewrite IHk in Hxs.
          rewrite <-(take_drop (length (lru_set st0)) (recent data k)) in Hndr.
          apply NoDup_app in Hndr as (_ & Hdisj & _). by apply (Hdisj x). }
      pose proof Hrec as Hlt%lookup_lt_Some. rewrite length_take in Hlt.
      rewrite lookup_take_lt in Hrec by lia.
      rewrite Hlen in *.
      rewrite (take_ge (<[c:=d]> _)) by (rewrite length_insert; lia).
      assert (Htop : take wss (recent data k) = take (wss - 1) (recent data k) ++ [lru]).
      { replace (take wss (recent data k)) with (take (S (wss - 1)) (recent data k))
          by (f_equal; lia).
        by erewrite take_S_r. }
      assert (Htk : take wss (d :: filter (λ p, p ≠ d) (recent data k))
                    = d :: take (wss - 1) (recent data k)).
      { replace (take wss (d :: filter (λ p, p ≠ d) (recent data k)))
          with (take (S (wss - 1)) (d :: filter (λ p, p ≠ d) (recent data k)))
          by (f_equal; lia).
        simpl. f_equal. apply take_filter_ne.
        intros Hx. apply Hmiss. rewrite IHk, Htop. apply elem_of_app. by left. }
      rewrite Htk, (insert_delete_Permutation _ _ lru) by done. f_equiv.
      apply (inj (lru ::.)).
      rewrite <-(delete_Permutation (lru_set st0)) by done.
      rewrite IHk, Htop. symmetry. apply Permutation_cons_append.
Qed.

Lemma LRU_keeps_most_recent_witness :
  take 3 [3; 4; 2]%Z ≡ₚ take 3 (recent trace12 11) ∧
  3 = 3 `min` length (recent trace12 11).
Proof.
  apply (LRU_keeps_most_recent 3 trace12 11 (MkLRU [3; 4; 2]%Z 3 6)).
  - lia.
  - intros j Hj. do 11 (destruct j as [|j]; [discriminate|]). lia.
  - reflexivity.
Defined.

(** ** The range of the sampler *)

(** X13: whatever the random source returns, a value that the sampler returns
    is within 8 standard deviations of the mean (for a [RAND_MAX] that fits
    an [int], doubles idealised as reals): the first variate is at least
    [1 / RAND_MAX], which bounds the logarithm. *)
Theorem normal_within_8_sd (RAND_MAX mean sd : Z) (rand : list Z) (v : Z)
    (rest : list Z) :
  (0 < RAND_MAX ≤ 2147483647)%Z →
  Forall (rand_value RAND_MAX) rand →
  normal RAND_MAX mean sd rand = Some (v, rest) →
  (mean - 8 * Z.abs sd ≤ v ≤ mean + 8 * Z.abs sd)%Z ∧
  ∃ n, rand = take n rand ++ rest ∧ 2 ≤ n.
Proof. apply normal_range. Qed.

Lemma normal_within_8_sd_witness :
  (10 - 8 * Z.abs 2
   ≤ trunc (box_muller (uniform 32767 5) (uniform 32767 32767) 10 2)
   ≤ 10 + 8 * Z.abs 2)%Z.
Proof.
  apply (normal_within_8_sd 32767 10 2 [0; 5; 32767]%Z _ []).
  - lia.
  - repeat constructor; lia.
  - unfold normal.
    change [0; 5; 32767]%Z with (replicate 1 0%Z ++ 5%Z :: 32767%Z :: []).
    by rewrite draws_skip by lia.
Defined.

(** ** The traces that [main] generates *)

Lemma generate_spec (RAND_MAX : Z) (n from : nat) (rand data rest : list Z) :
  (0 < RAND_MAX ≤ 2147483647)%Z →
  Forall (rand_value RAND_MAX) rand →
  generate RAND_MAX n from rand = Some (data, rest) →
  length data = n ∧
  Forall (rand_value RAND_MAX) rest ∧
  ∀ j p, data !! j = Some p →
    (10 * Z.of_nat ((from + j) / 100) - 6 ≤ p
       ≤ 10 * Z.of_nat ((from + j) / 100) + 26)%Z.
Proof.
  intros HM. revert from rand data rest.
  induction n as [|n IH]; intros from rand data rest Hrand Hgen0; simpl in Hgen0.
  - injection Hgen0 as <- <-. split_and!; [done..|]. intros j p. by rewrite lookup_nil.
  - destruct (normal RAND_MAX 10 2 rand) as [[v rand1]|] eqn:Hnormal;
      simpl in Hgen0; [|done].
    destruct (normal_range _ _ _ _ _ _ HM Hrand Hnormal) as (Hv & m & Hsplit & _).
    assert (Hrand1 : Forall (rand_value RAND_MAX) rand1).
    { rewrite Hsplit in Hrand. by apply Forall_app in Hrand as [_ ?]. }
    destruct (generate RAND_MAX n (S from) rand1) as [[data' rest']|] eqn:Hgen;
      simpl in Hgen0; [|done].
    injection Hgen0 as <- <-.
    destruct (IH _ _ _ _ Hrand1 Hgen) as (Hlen & Hrest & Hpages).
    split_and!; [simpl; lia | done |].
    intros [|j] p Hp; simpl in Hp.
    + injection Hp as <-. rewrite Nat.add_0_r.
      rewrite Z.quot_div_nonneg by lia.
      change 100%Z with (Z.of_nat 100). rewrite <-(Nat2Z.inj_div from 100). lia.
    + replace (from + S j) with (S from + j) by lia. by apply Hpages.
Qed.

Lemma generate_total (RAND_MAX : Z) (n from : nat) (rand : list Z) :
  (0 < RAND_MAX)%Z →
  Forall (λ x, x ≠ 0%Z) rand → 2 * n ≤ length rand →
  ∃ data, generate RAND_MAX n from rand = Some (data, drop (2 * n) rand).
Proof.
  intros HM. revert from rand.
  induction n as [|n IH]; intros from rand Hnz Hlen; simpl.
  - by eexists.
  - destruct rand as [|x1 [|x2 rand]]; simpl in Hlen; [lia..|].
    apply Forall_cons in Hnz as [Hx1 Hnz]. apply Forall_cons in Hnz as [_ Hnz].
    unfold normal.
    pose proof (draws_skip RAND_MAX 0 x1 x2 rand HM Hx1) as Hdraws.
    simpl in Hdraws. rewrite Hdraws. simpl.
    destruct (IH (S from) rand Hnz) as [data Hgen]; [lia|].
    rewrite Hgen. simpl. replace (n + S (n + 0)) with (S (2 * n)) by lia.
    simpl. by eexists.
Qed.

(** X14: a trace that [main] generates has [TRACES] references; the reference
    at position [j] is a page between [10 * (j / 100) - 6] and
    [10 * (j / 100) + 26], so that no reference is to the sentinel (for a
    [RAND_MAX] that fits an [int], doubles idealised as reals). *)
Theorem generated_trace_pages (RAND_MAX : Z) (TRACES : nat) (rand data rest : list Z) :
  (0 < RAND_MAX ≤ 2147483647)%Z →
  Forall (rand_value RAND_MAX) rand →
  generate RAND_MAX TRACES 0 rand = Some (data, rest) →
  length data = TRACES ∧
  (∀ j p, data !! j = Some p →
     (10 * Z.of_nat (j / 100) - 6 ≤ p ≤ 10 * Z.of_nat (j / 100) + 26)%Z) ∧
  INT_MIN ∉ data.
Proof.
  intros HM Hrand Hgen.
  destruct (generate_spec _ _ _ _ _ _ HM Hrand Hgen) as (Hlen & _ & Hpages).
  split_and!; [done | exact Hpages |].
  intros (j & Hj)%list_elem_of_lookup. apply Hpages in Hj.
  unfold INT_MIN in Hj. lia.
Qed.

Lemma generated_trace_pages_witness :
  ∃ data,
    generate 32767 2 0 [3; 4; 5; 6]%Z = Some (data, []) ∧ length data = 2 ∧
    INT_MIN ∉ data.
Proof.
  destruct (generate_total 32767 2 0 [3; 4; 5; 6]%Z) as [data Hgen].
  - lia.
  - repeat constructor; lia.
  - simpl; lia.
  - exists data. split; [exact Hgen|].
    destruct (generated_trace_pages 32767 2 [3; 4; 5; 6]%Z data []) as (? & _ & ?).
    + lia.
    + repeat constructor; unfold rand_value; lia.
    + exact Hgen.
    + by split.
Defined.

Lemma engines_defined (TRACES wss : nat) (data : list Z) :
  1 ≤ wss → length data = TRACES → INT_MIN ∉ data →
  ∃ l f c,
    LRU TRACES wss data = Some l ∧ FIFO TRACES wss data = Some f ∧
    Clock TRACES wss data = Some c.
Proof.
  intros Hwss Hlen Hsent. unfold LRU, FIFO, Clock.
  destruct (LRU_run_total wss data TRACES) as [s1 ->]; [done | lia | |].
  { intros j _ Hj. apply Hsent. by eapply list_elem_of_lookup_2. }
  destruct (FIFO_run_total wss data TRACES) as [s2 ->]; [done | lia |].
  destruct (Clock_run_total wss data TRACES) as [s3 ->]; [done | lia |].
  simpl. by eexists _, _, _.
Qed.

(** X15: on every trace that [main] generates and for every working-set size
    [wss >= 1], the three engines are defined (LRU never reads [lru]
    unassigned) and return fault counts between 0 and [TRACES - wss]. *)
Theorem engines_defined_on_generated (RAND_MAX : Z) (TRACES wss : nat)
    (rand data rest : list Z) :
  (0 < RAND_MAX ≤ 2147483647)%Z →
  Forall (rand_value RAND_MAX) rand →
  generate RAND_MAX TRACES 0 rand = Some (data, rest) →
  1 ≤ wss →
  ∃ l f c,
    LRU TRACES wss data = Some l ∧ FIFO TRACES wss data = Some f ∧
    Clock TRACES wss data = Some c ∧
    (0 ≤ l ≤ Z.of_nat (TRACES - wss))%Z ∧
    (0 ≤ f ≤ Z.of_nat (TRACES - wss))%Z ∧
    (0 ≤ c ≤ Z.of_nat (TRACES - wss))%Z.
Proof.
  intros HM Hrand Hgen Hwss.
  destruct (generate_spec _ _ _ _ _ _ HM Hrand Hgen) as (Hlen & _ & Hpages).
  destruct (engines_defined TRACES wss data) as (l & f & c & Hl & Hf & Hc); [done..| |].
  { intros (j & Hj)%list_elem_of_lookup. apply Hpages in Hj.
    unfold INT_MIN in Hj. lia. }
  pose proof (fault_count_le TRACES wss data l Hwss (or_introl Hl)).
  pose proof (fault_count_le TRACES wss data f Hwss (or_intror (or_introl Hf))).
  pose proof (fault_count_le TRACES wss data c Hwss (or_intror (or_intror Hc))).
  by exists l, f, c.
Qed.

Lemma engines_defined_on_generated_witness :
  ∃ data l f c,
    generate 32767 2 0 [3; 4; 5; 6]%Z = Some (data, []) ∧
    LRU 2 1 data = Some l ∧ FIFO 2 1 data = Some f ∧ Clock 2 1 data = Some c ∧
    (0 ≤ l ≤ 1)%Z.
Proof.
  destruct (generate_total 32767 2 0 [3; 4; 5; 6]%Z) as [data Hgen].
  - lia.
  - repeat constructor; lia.
  - simpl; lia.
  - destruct (engines_defined_on_generated 32767 2 1 [3; 4; 5; 6]%Z data [])
      as (l & f & c & Hl & Hf & Hc & Hlb & _).
    + lia.
    + repeat constructor; unfold rand_value; lia.
    + exact Hgen.
    + lia.
    + exists data, l, f, c.
      split; [exact Hgen|]. split; [exact Hl|]. split; [exact Hf|].
      split; [exact Hc|]. exact Hlb.
Defined.

(** ** The table that [main] computes *)

Lemma update_range_spec (h : nat → Z → option Z) (n w : nat) (array array' : list Z) :
  update_range h n w array = Some array' →
  length array' = length array ∧
  ∀ i, array' !! i =
       if decide (w ≤ i < w + n) then array !! i ≫= h i else array !! i.
Proof.
  revert w array; induction n as [|n IH]; intros w a; simpl.
  - intros [= <-]. split; [done|]. intros i. by rewrite decide_False by lia.
  - destruct (a !! w) as [x|] eqn:Hx; simpl; [|done].
    destruct (h w x) as [y|] eqn:Hy; simpl; [|done].
    destruct (store a w y) as [a1|] eqn:Hst; simpl; [|done].
    apply store_inv in Hst as [Hw ->].
    intros (Hlen & Hcells)%IH. rewrite length_insert in Hlen. split; [done|].
    intros i. rewrite Hcells. destruct (decide (i = w)) as [->|Hne].
    + rewrite decide_False, decide_True by lia.
      rewrite list_lookup_insert_eq by done. by rewrite Hx.
    + rewrite list_lookup_insert_ne by done.
      destruct (decide (S w ≤ i < S w + n)).
      * by rewrite decide_True by lia.
      * by rewrite decide_False by lia.
Qed.

Lemma update_range_total (h : nat → Z → option Z) (n w : nat) (array : list Z) :
  w + n ≤ length array →
  (∀ i x, w ≤ i < w + n → array !! i = Some x → is_Some (h i x)) →
  is_Some (update_range h n w array).
Proof.
  revert w array; induction n as [|n IH]; intros w a Hlen Hh; simpl; [eauto|].
  destruct (lookup_lt_is_Some_2 a w) as [x Hx]; [lia|]. rewrite Hx; simpl.
  destruct (Hh w x) as [y Hy]; [lia | done |]. rewrite Hy; simpl.
  rewrite store_Some by lia. simpl. apply IH.
  - rewrite length_insert. lia.
  - intros i x' Hi. rewrite list_lookup_insert_ne by lia. apply Hh. lia.
Qed.

(** The three arrays go through the loops independently of each other. *)
Lemma simulate_arrays (TRACES : nat) (data : list Z) (n w : nat) (res res' : results) :
  simulate TRACES data n w res = Some res' ↔
  update_range (λ i x, l ← LRU TRACES i data; Some (x + l)%Z) n w (LRUResults res)
    = Some (LRUResults res') ∧
  update_range (λ i x, l ← FIFO TRACES i data; Some (x + l)%Z) n w (FIFOResults res)
    = Some (FIFOResults res') ∧
  update_range (λ i x, l ← Clock TRACES i data; Some (x + l)%Z) n w (ClockResults res)
    = Some (ClockResults res').
Proof.
  revert w res; induction n as [|n IH]; intros w [a1 a2 a3]; simpl.
  - destruct res' as [b1 b2 b3]; simpl. split.
    + by intros [= -> -> ->].
    + by intros ([= ->] & [= ->] & [= ->]).
  - unfold add_at.
    destruct (LRU TRACES w data) as [l|], (a1 !! w) as [x1|]; simpl;
      try (split; [done | by intros [? _]]).
    destruct (store a1 w (x1 + l)) as [a1'|]; simpl;
      [|split; [done | by intros [? _]]].
    destruct (FIFO TRACES w data) as [f|], (a2 !! w) as [x2|]; simpl;
      try (split; [done | by intros (_ & ? & _)]).
    destruct (store a2 w (x2 + f)) as [a2'|]; simpl;
      [|split; [done | by intros (_ & ? & _)]].
    destruct (Clock TRACES w data) as [c|], (a3 !! w) as [x3|]; simpl;
      try (split; [done | by intros (_ & _ & ?)]).
    destruct (store a3 w (x3 + c)) as [a3'|]; simpl;
      [|split; [done | by intros (_ & _ & ?)]].
    apply IH.
Qed.

Lemma averages_arrays (TRACES n w : nat) (res res' : results) :
  averages TRACES n w res = Some res' ↔
  update_range (λ _ x, average TRACES x) n w (LRUResults res) = Some (LRUResults res') ∧
  update_range (λ _ x, average TRACES x) n w (FIFOResults res) = Some (FIFOResults res') ∧
  update_range (λ _ x, average TRACES x) n w (ClockResults res) = Some (ClockResults res').
Proof.
  revert w res; induction n as [|n IH]; intros w [a1 a2 a3]; simpl.
  - destruct res' as [b1 b2 b3]; simpl. split.
    + by intros [= -> -> ->].
    + by intros ([= ->] & [= ->] & [= ->]).
  - unfold div_at.
    destruct (a1 !! w) as [x1|]; simpl; [|split; [done | by intros [? _]]].
    destruct (average TRACES x1) as [q1|]; simpl; [|split; [done | by intros [? _]]].
    destruct (store a1 w q1) as [a1'|]; simpl; [|split; [done | by intros [? _]]].
    destruct (a2 !! w) as [x2|]; simpl; [|split; [done | by intros (_ & ? & _)]].
    destruct (average TRACES x2) as [q2|]; simpl; [|split; [done | by intros (_ & ? & _)]].
    destruct (store a2 w q2) as [a2'|]; simpl; [|split; [done | by intros (_ & ? & _)]].
    destruct (a3 !! w) as [x3|]; simpl; [|split; [done | by intros (_ & _ & ?)]].
    destruct (average TRACES x3) as [q3|]; simpl; [|split; [done | by intros (_ & _ & ?)]].
    destruct (store a3 w q3) as [a3'|]; simpl; [|split; [done | by intros (_ & _ & ?)]].
    apply IH.
Qed.

Arguments simulate : simpl never.
Arguments averages : simpl never.

Lemma acc_cells_le (TRACES trials : nat) (g : nat → option Z) (n w : nat)
    (array array' : list Z) :
  cells_le TRACES trials array →
  (∀ i l, w ≤ i → g i = Some l → (0 ≤ l ≤ Z.of_nat (TRACES - i))%Z) →
  update_range (λ i x, l ← g i; Some (x + l)%Z) n w array = Some array' →
  cells_le TRACES (S trials) array'.
Proof.
  intros [Hlen Hcells] Hg (Hlen' & Hupd)%update_range_spec. split; [congruence|].
  intros i x. rewrite Hupd. case_decide as Hi.
  - destruct (array !! i) as [x0|] eqn:Hx0; simpl; [|done].
    destruct (g i) as [l|] eqn:Hl; simpl; [|done]. intros [= <-].
    apply Hcells in Hx0. apply Hg in Hl; [|lia]. nia.
  - intros Hx%Hcells. nia.
Qed.

Lemma simulate_le (TRACES trials : nat) (data : list Z) (n w : nat) (res res' : results) :
  1 ≤ w →
  results_le TRACES trials res →
  simulate TRACES data n w res = Some res' →
  results_le TRACES (S trials) res'.
Proof.
  intros Hw (H1 & H2 & H3) (Hl & Hf & Hc)%simulate_arrays. split_and!.
  - eapply acc_cells_le; [exact H1| |exact Hl]. intros i l Hi Hli.
    apply (fault_count_le TRACES i data); [lia|auto].
  - eapply acc_cells_le; [exact H2| |exact Hf]. intros i l Hi Hli.
    apply (fault_count_le TRACES i data); [lia|auto].
  - eapply acc_cells_le; [exact H3| |exact Hc]. intros i l Hi Hli.
    apply (fault_count_le TRACES i data); [lia|auto].
Qed.

Lemma simulate_total (TRACES trials : nat) (data : list Z) (res : results) :
  length data = TRACES → INT_MIN ∉ data →
  results_le TRACES trials res →
  is_Some (simulate TRACES data SET_SIZES SET_SIZE_LOWER res).
Proof.
  intros Hlen Hsent ([L1 _] & [L2 _] & [L3 _]).
  assert (Hdef : ∀ i, SET_SIZE_LOWER ≤ i →
            ∃ l f c, LRU TRACES i data = Some l ∧ FIFO TRACES i data = Some f ∧
                     Clock TRACES i data = Some c).
  { intros i Hi. apply engines_defined; [|done..]. unfold SET_SIZE_LOWER in Hi. lia. }
  destruct (update_range_total
              (λ i x, l ← LRU TRACES i data; Some (x + l)%Z)
              SET_SIZES SET_SIZE_LOWER (LRUResults res)) as [a1 Ha1].
  { rewrite L1. unfold SET_SIZES, SET_SIZE_LOWER, SET_SIZE_UPPER. lia. }
  { intros i x [Hi _] _. destruct (Hdef i Hi) as (l & _ & _ & -> & _). simpl; eauto. }
  destruct (update_range_total
              (λ i x, l ← FIFO TRACES i data; Some (x + l)%Z)
              SET_SIZES SET_SIZE_LOWER (FIFOResults res)) as [a2 Ha2].
  { rewrite L2. unfold SET_SIZES, SET_SIZE_LOWER, SET_SIZE_UPPER. lia. }
  { intros i x [Hi _] _. destruct (Hdef i Hi) as (_ & f & _ & _ & -> & _). simpl; eauto. }
  destruct (update_range_total
              (λ i x, l ← Clock TRACES i data; Some (x + l)%Z)
              SET_SIZES SET_SIZE_LOWER (ClockResults res)) as [a3 Ha3].
  { rewrite L3. unfold SET_SIZES, SET_SIZE_LOWER, SET_SIZE_UPPER. lia. }
  { intros i x [Hi _] _. destruct (Hdef i Hi) as (_ & _ & c & _ & _ & ->). simpl; eauto. }
  exists (MkResults a1 a2 a3). by apply simulate_arrays.
Qed.

Lemma run_trials_le (RAND_MAX : Z) (TRACES n : nat) (rand rand' : list Z)
    (res res' : results) (trials : nat) :
  results_le TRACES trials res →
  run_trials RAND_MAX TRACES n rand res = Some (res', rand') →
  results_le TRACES (trials + n) res'.
Proof.
  revert rand res trials; induction n as [|n IH]; intros rand res trials Hres; simpl.
  - intros [= <- <-]. by rewrite Nat.add_0_r.
  - destruct (generate RAND_MAX TRACES 0 rand) as [[data rand1]|]; simpl; [|done].
    destruct (simulate TRACES data SET_SIZES SET_SIZE_LOWER res) as [res1|] eqn:Hsim;
      simpl; [|done].
    intros Hrun. replace (trials + S n) with (S trials + n) by lia.
    eapply IH; [|exact Hrun].
    eapply simulate_le; [|exact Hres|exact Hsim]. unfold SET_SIZE_LOWER. lia.
Qed.

Lemma rand_positive_value (RAND_MAX : Z) (rand : list Z) :
  Forall (rand_positive RAND_MAX) rand →
  Forall (rand_value RAND_MAX) rand ∧ Forall (λ x, x ≠ 0%Z) rand.
Proof.
  intros H. split; eapply Forall_impl; try exact H;
    unfold rand_positive, rand_value; simpl; intros; lia.
Qed.

Lemma run_trials_total (RAND_MAX : Z) (TRACES n : nat) (rand : list Z)
    (res : results) (trials : nat) :
  (0 < RAND_MAX ≤ 2147483647)%Z →
  Forall (rand_positive RAND_MAX) rand →
  2 * TRACES * n ≤ length rand →
  results_le TRACES trials res →
  is_Some (run_trials RAND_MAX TRACES n rand res).
Proof.
  intros HM. revert rand res trials.
  induction n as [|n IH]; intros rand res trials Hrand Hlen Hres; simpl; [eauto|].
  destruct (rand_positive_value _ _ Hrand) as [Hval Hnz].
  destruct (generate_total RAND_MAX TRACES 0 rand) as [data Hgen]; [lia | done | nia |].
  rewrite Hgen; simpl.
  destruct (generate_spec _ _ _ _ _ _ HM Hval Hgen) as (Hdlen & _ & Hpages).
  destruct (simulate_total TRACES trials data res) as [res1 Hsim]; [done| |done|].
  { intros (j & Hj)%list_elem_of_lookup. apply Hpages in Hj.
    unfold INT_MIN in Hj. lia. }
  rewrite Hsim; simpl. apply (IH _ _ (S trials)).
  - by apply Forall_drop.
  - rewrite length_drop. nia.
  - eapply simulate_le; [|exact Hres|exact Hsim]. unfold SET_SIZE_LOWER. lia.
Qed.

Lemma results_init_le (TRACES : nat) : results_le TRACES 0 results_init.
Proof.
  unfold results_le, results_init. cbn [LRUResults FIFOResults ClockResults].
  split_and!; (split; [apply length_replicate|]);
    intros i x [-> _]%lookup_replicate; lia.
Qed.

Lemma avg_cells_le (TRACES n w : nat) (array array' : list Z) :
  0 < TRACES →
  cells_le TRACES TRACES array →
  update_range (λ _ x, average TRACES x) n w array = Some array' →
  length array' = S SET_SIZE_UPPER ∧
  ∀ i q, w ≤ i < w + n → array' !! i = Some q →
    (0 ≤ q ≤ Z.of_nat (TRACES - i))%Z.
Proof.
  intros HT [Hlen Hcells] (Hlen' & Hupd)%update_range_spec. split; [congruence|].
  intros i q Hi. rewrite Hupd, decide_True by done.
  destruct (array !! i) as [x|] eqn:Hx; simpl; [|done].
  apply Hcells in Hx. rewrite average_nonneg by lia. intros [= <-]. split.
  - apply Z.div_pos; lia.
  - apply Z.div_le_upper_bound; lia.
Qed.

Lemma rows_spec (n w : nat) (res : results) (rws : list (Z * Z * Z * Z)) :
  rows n w res = Some rws →
  length rws = n ∧
  ∀ i, i < n →
    ∃ l f c,
      rws !! i = Some (Z.of_nat (w + i), l, f, c) ∧
      LRUResults res !! (w + i) = Some l ∧ FIFOResults res !! (w + i) = Some f ∧
      ClockResults res !! (w + i) = Some c.
Proof.
  revert w rws; induction n as [|n IH]; intros w rws; simpl.
  - intros [= <-]. split; [done|]. intros; lia.
  - destruct (LRUResults res !! w) as [l|] eqn:Hl; simpl; [|done].
    destruct (FIFOResults res !! w) as [f|] eqn:Hf; simpl; [|done].
    destruct (ClockResults res !! w) as [c|] eqn:Hc; simpl; [|done].
    destruct (rows n (S w) res) as [rest|] eqn:Hrows; simpl; [|done].
    intros [= <-]. destruct (IH _ _ Hrows) as [Hlen Hrest]. split; [simpl; lia|].
    intros [|i] Hi.
    + exists l, f, c. rewrite Nat.add_0_r. by split_and!.
    + destruct (Hrest i) as (l' & f' & c' & ? & ? & ? & ?); [lia|].
      exists l', f', c'. replace (w + S i) with (S w + i) by lia. by split_and!.
Qed.

Lemma rows_total (n w : nat) (res : results) :
  w + n ≤ length (LRUResults res) → w + n ≤ length (FIFOResults res) →
  w + n ≤ length (ClockResults res) →
  is_Some (rows n w res).
Proof.
  revert w; induction n as [|n IH]; intros w H1 H2 H3; simpl; [eauto|].
  destruct (lookup_lt_is_Some_2 (LRUResults res) w) as [l ->]; [lia|].
  destruct (lookup_lt_is_Some_2 (FIFOResults res) w) as [f ->]; [lia|].
  destruct (lookup_lt_is_Some_2 (ClockResults res) w) as [c ->]; [lia|].
  simpl. destruct (IH (S w)) as [rest ->]; [lia..|]. simpl; eauto.
Qed.

Arguments rows : simpl never.

Lemma averages_positive (TRACES w : nat) (res res' : results) :
  averages TRACES SET_SIZES w res = Some res' → 0 < TRACES.
Proof.
  intros [H _]%averages_arrays. change SET_SIZES with (S 16) in H. simpl in H.
  destruct (LRUResults res !! w) as [x|]; simpl in H; [|done].
  unfold average in H. case_decide; [done|lia].
Qed.

Lemma averages_total (TRACES : nat) (res : results) :
  0 < TRACES → results_le TRACES TRACES res →
  is_Some (averages TRACES SET_SIZES SET_SIZE_LOWER res).
Proof.
  intros HT ([L1 _] & [L2 _] & [L3 _]).
  assert (Havg : ∀ array, length array = S SET_SIZE_UPPER →
            is_Some (update_range (λ _ x, average TRACES x)
                       SET_SIZES SET_SIZE_LOWER array)).
  { intros a La. apply update_range_total.
    - rewrite La. unfold SET_SIZES, SET_SIZE_LOWER, SET_SIZE_UPPER. lia.
    - intros i x _ _. unfold average. rewrite decide_False by lia. eauto. }
  destruct (Havg _ L1) as [a1 H1], (Havg _ L2) as [a2 H2], (Havg _ L3) as [a3 H3].
  exists (MkResults a1 a2 a3). by apply averages_arrays.
Qed.

Lemma main_rows (RAND_MAX : Z) (TRACES : nat) (rand : list Z)
    (rws : list (Z * Z * Z * Z)) :
  main RAND_MAX TRACES rand = Some rws →
  length rws = SET_SIZES ∧
  ∀ i, i < SET_SIZES →
    ∃ l f c,
      rws !! i = Some (Z.of_nat (SET_SIZE_LOWER + i), l, f, c) ∧
      (0 ≤ l ≤ Z.of_nat (TRACES - (SET_SIZE_LOWER + i)))%Z ∧
      (0 ≤ f ≤ Z.of_nat (TRACES - (SET_SIZE_LOWER + i)))%Z ∧
      (0 ≤ c ≤ Z.of_nat (TRACES - (SET_SIZE_LOWER + i)))%Z.
Proof.
  unfold main.
  destruct (run_trials RAND_MAX TRACES TRACES rand results_init) as [[res rand']|]
    eqn:Hrun; simpl; [|done].
  destruct (averages TRACES SET_SIZES SET_SIZE_LOWER res) as [res1|] eqn:Havg;
    simpl; [|done].
  intros [Hlen Hrows]%rows_spec. split; [done|].
  pose proof (averages_positive _ _ _ _ Havg) as HT.
  pose proof (run_trials_le _ _ _ _ _ _ _ 0 (results_init_le TRACES) Hrun)
    as (C1 & C2 & C3). simpl in C1, C2, C3.
  apply averages_arrays in Havg as (A1 & A2 & A3).
  destruct (avg_cells_le _ _ _ _ _ HT C1 A1) as [_ B1].
  destruct (avg_cells_le _ _ _ _ _ HT C2 A2) as [_ B2].
  destruct (avg_cells_le _ _ _ _ _ HT C3 A3) as [_ B3].
  intros i Hi. destruct (Hrows i Hi) as (l & f & c & Hr & Hl & Hf & Hc).
  exists l, f, c. split; [done|].
  pose proof (B1 _ _ (conj (Nat.le_add_r _ _) (proj1 (Nat.add_lt_mono_l _ _ _) Hi)) Hl).
  pose proof (B2 _ _ (conj (Nat.le_add_r _ _) (proj1 (Nat.add_lt_mono_l _ _ _) Hi)) Hf).
  pose proof (B3 _ _ (conj (Nat.le_add_r _ _) (proj1 (Nat.add_lt_mono_l _ _ _) Hi)) Hc).
  done.
Qed.

Lemma main_defined (RAND_MAX : Z) (TRACES : nat) (rand : list Z) :
  1 ≤ TRACES →
  (0 < RAND_MAX ≤ 2147483647)%Z →
  Forall (rand_positive RAND_MAX) rand →
  2 * TRACES * TRACES ≤ length rand →
  is_Some (main RAND_MAX TRACES rand).
Proof.
  intros HT HM Hrand Hlen. unfold main.
  destruct (run_trials_total RAND_MAX TRACES TRACES rand results_init 0)
    as [[res rand'] Hrun]; [done..|apply results_init_le|].
  rewrite Hrun; simpl.
  pose proof (run_trials_le _ _ _ _ _ _ _ 0 (results_init_le TRACES) Hrun) as Hle.
  simpl in Hle.
  destruct (averages_total TRACES res) as [res1 Havg]; [lia | done |].
  rewrite Havg; simpl.
  apply averages_arrays in Havg as (A1 & A2 & A3).
  destruct Hle as (C1 & C2 & C3).
  destruct (avg_cells_le _ _ _ _ _ HT C1 A1) as [L1 _].
  destruct (avg_cells_le _ _ _ _ _ HT C2 A2) as [L2 _].
  destruct (avg_cells_le _ _ _ _ _ HT C3 A3) as [L3 _].
  apply rows_total; rewrite ?L1, ?L2, ?L3;
    unfold SET_SIZES, SET_SIZE_LOWER, SET_SIZE_UPPER; lia.
Qed.

(** X16: the table that [main] writes has one row per working-set size from
    [SET_SIZE_LOWER] to [SET_SIZE_UPPER], in that order, and each of the three
    averages of the row for [wss] is between 0 and [TRACES - wss]. *)
Theorem main_table (RAND_MAX : Z) (TRACES : nat) (rand : list Z)
    (rws : list (Z * Z * Z * Z)) :
  main RAND_MAX TRACES rand = Some rws →
  length rws = SET_SIZES ∧
  ∀ i, i < SET_SIZES →
    ∃ l f c,
      rws !! i = Some (Z.of_nat (SET_SIZE_LOWER + i), l, f, c) ∧
      (0 ≤ l ≤ Z.of_nat (TRACES - (SET_SIZE_LOWER + i)))%Z ∧
      (0 ≤ f ≤ Z.of_nat (TRACES - (SET_SIZE_LOWER + i)))%Z ∧
      (0 ≤ c ≤ Z.of_nat (TRACES - (SET_SIZE_LOWER + i)))%Z.
Proof. apply main_rows. Qed.

Lemma main_table_witness :
  ∃ rws, main 32767 1 [7; 9]%Z = Some rws ∧ length rws = SET_SIZES.
Proof.
  destruct (main_defined 32767 1 [7; 9]%Z) as [rws Hmain].
  - lia.
  - lia.
  - repeat constructor; unfold rand_positive; lia.
  - simpl; lia.
  - exists rws. split; [exact Hmain|].
    by destruct (main_table 32767 1 [7; 9]%Z rws Hmain).
Defined.

(** X17: [main] computes its table (no engine, no array access and no
    division is undefined) whenever [TRACES >= 1] and the random source
    yields [2 * TRACES * TRACES] values, none of them 0 (for a [RAND_MAX] that
    fits an [int], doubles idealised as reals). *)
Theorem main_total (RAND_MAX : Z) (TRACES : nat) (rand : list Z) :
  1 ≤ TRACES →
  (0 < RAND_MAX ≤ 2147483647)%Z →
  Forall (rand_positive RAND_MAX) rand →
  2 * TRACES * TRACES ≤ length rand →
  is_Some (main RAND_MAX TRACES rand).
Proof. apply main_defined. Qed.

Lemma main_total_witness : is_Some (main 32767 1 [7; 9]%Z).
Proof.
  apply (main_total 32767 1 [7; 9]%Z); [lia | lia | | simpl; lia].
  repeat constructor; unfold rand_positive; lia.
Defined.
